(** * Camera-placement genetic algorithms: a shallow embedding

    This development embeds the optimisation core of the repository
    ([algoritmo_genetico.py], the blind-spot search, and [ga_cobertura.py],
    the coverage-improvement search) and proves the properties its
    specification states about it.

    Modelling conventions.
    - A Python [float] is an exact rational ([Q]); rounding, infinities and
      NaN are outside the model.  Sums, means and the steps of the grid
      loops are exact here, where binary64 rounds them: a mean can leave
      the range of its terms by one unit in the last place, and a step too
      small for the coordinate it is added to is absorbed.
    - [haversine_m] needs [sin], [cos], [asin] and [sqrt]; it is a field of
      the class [Geodesia], so every theorem holds for any distance function.
      The field is a total function: the [ValueError] that [asin] raises
      in the source when rounding takes its argument above 1 (two nearly
      antipodal points) is outside the model.
    - For those two reasons a theorem that concludes that a function
      which measures distances returns ([= Ok v]) says so of this exact
      model; the theorems on the fitness ranges, on what the two searches
      return for a configuration, on the grid, the repair, the penalty and
      the what-if endpoint take the returned value as given instead and
      say what holds of it.
    - The module-level [random] generator is an explicit state threaded
      through the computation; its primitives are the fields of the class
      [Azar], so every theorem holds for every outcome of the random draws.
    - Python exceptions are values: a computation returns [Ok v] or
      [Raise e].
    - A camera is a coordinate pair ([_get_lat_lon] already applied). *)

From Stdlib Require Import String.
From Stdlib Require Import QArith Qabs Qround ZArith Bool Lia Lqa.
From Stdlib Require Import List Sorted Permutation.
Import ListNotations.

Open Scope Q_scope.

(* ================================================================== *)
(** ** Exceptions and the error monad                                   *)
(* ================================================================== *)

Inductive excepcion : Type :=
| ZeroDivisionError
| ValueError
| IndexError
| KeyError
| NoTermina.

Inductive resultado (A : Type) : Type :=
| Ok (a : A)
| Raise (e : excepcion).

Arguments Ok {A} a.
Arguments Raise {A} e.

Definition ligar {A B : Type} (r : resultado A) (f : A -> resultado B)
  : resultado B :=
  match r with
  | Ok a => f a
  | Raise e => Raise e
  end.

Notation "'let?' x ':=' e 'in' k" := (ligar e (fun x => k))
  (at level 10, x pattern, e at level 100, k at level 200).

(** [mapear f l] is the list comprehension [[f(x) for x in l]] when [f] may
    raise: the first exception aborts the comprehension. *)
Fixpoint mapear {A B : Type} (f : A -> resultado B) (l : list A)
  : resultado (list B) :=
  match l with
  | [] => Ok []
  | x :: xs =>
      let? y := f x in
      let? ys := mapear f xs in
      Ok (y :: ys)
  end.

(* ================================================================== *)
(** ** Python built-ins on floats                                       *)
(* ================================================================== *)

Definition Qltb (x y : Q) : bool := negb (Qle_bool y x).

(** [max(a, b)] keeps [a] unless [b > a]; [min(a, b)] keeps [a] unless
    [b < a]. *)
Definition py_max (a b : Q) : Q := if Qltb a b then b else a.
Definition py_min (a b : Q) : Q := if Qltb b a then b else a.

(** [a / b] raises [ZeroDivisionError] on a zero divisor. *)
Definition py_div (a b : Q) : resultado Q :=
  if Qeq_bool b 0 then Raise ZeroDivisionError else Ok (a / b).

(** [sum(l)]: left to right, from 0. *)
Definition sum (l : list Q) : Q := fold_left Qplus l 0.

(** [min(l)] and [max(l)] over a sequence: the first extremal element;
    [ValueError] on an empty sequence. *)
Definition py_min_lista (l : list Q) : resultado Q :=
  match l with
  | [] => Raise ValueError
  | x :: xs => Ok (fold_left py_min xs x)
  end.

Definition py_max_lista (l : list Q) : resultado Q :=
  match l with
  | [] => Raise ValueError
  | x :: xs => Ok (fold_left py_max xs x)
  end.

(** [max(l, key=f)]: the first element whose key is maximal. *)
Definition py_max_key {A : Type} (key : A -> Q) (l : list A) : resultado A :=
  match l with
  | [] => Raise ValueError
  | x :: xs =>
      Ok (fold_left (fun m y => if Qltb (key m) (key y) then y else m) xs x)
  end.

(** [sorted(l, key=f)] and [sorted(l, key=f, reverse=True)]: a stable
    insertion sort (equal keys keep their original order in both
    directions, as Python guarantees). *)
Fixpoint insertar_asc {A : Type} (key : A -> Q) (x : A) (l : list A)
  : list A :=
  match l with
  | [] => [x]
  | y :: ys =>
      if Qltb (key y) (key x) then y :: insertar_asc key x ys
      else x :: y :: ys
  end.

Fixpoint insertar_desc {A : Type} (key : A -> Q) (x : A) (l : list A)
  : list A :=
  match l with
  | [] => [x]
  | y :: ys =>
      if Qltb (key x) (key y) then y :: insertar_desc key x ys
      else x :: y :: ys
  end.

Definition sorted_key {A : Type} (key : A -> Q) (l : list A) : list A :=
  fold_right (insertar_asc key) [] l.

Definition sorted_key_reverse {A : Type} (key : A -> Q) (l : list A)
  : list A :=
  fold_right (insertar_desc key) [] l.

Definition sorted (l : list Q) : list Q := sorted_key (fun x => x) l.

(** [l[i]] for a non-negative index: [IndexError] when out of range. *)
Definition py_index {A : Type} (l : list A) (i : nat) : resultado A :=
  match nth_error l i with
  | Some x => Ok x
  | None => Raise IndexError
  end.

Definition _clamp (v lo hi : Q) : Q := py_max lo (py_min hi v).

(* ================================================================== *)
(** ** Geometry                                                         *)
(* ================================================================== *)

Definition Punto : Type := (Q * Q)%type.

(** The transcendental part of the program: the great-circle distance in
    metres, and [cos(radians(x))] used by the grid generator. *)
Class Geodesia : Type := {
  haversine_m : Q -> Q -> Q -> Q -> Q;
  cos_radians : Q -> Q
}.

(** A rational stand-in used to run the definitions on concrete inputs: the
    taxicab distance scaled to metres per degree.  Like the real haversine
    distance it is symmetric and zero at coincident points. *)
Definition geodesia_plana : Geodesia := {|
  haversine_m := fun lat1 lon1 lat2 lon2 =>
    111320 * (Qabs (lat2 - lat1) + Qabs (lon2 - lon1));
  cos_radians := fun _ => 1
|}.

Definition eps9 : Q := 1 # 1000000000.
Definition eps6 : Q := 1 # 1000000.

(* ================================================================== *)
(** ** The random source                                                *)
(* ================================================================== *)

(** The primitives of Python's [random] module the program draws from:
    [random()], [gauss(mu, sigma)] and the index generator [_randbelow(n)]
    behind [choice] and [sample], which returns an index below [n]. *)
Class Azar : Type := {
  Rng : Type;
  rnd_random : Rng -> Q * Rng;
  rnd_gauss : Q -> Q -> Rng -> Q * Rng;
  rnd_below : nat -> Rng -> nat * Rng;
  rnd_below_lt : forall n g, (0 < n)%nat -> (fst (rnd_below n g) < n)%nat
}.

(** Computations that draw random numbers and may raise. *)
Definition Aleatorio {A : Azar} (X : Type) : Type :=
  Rng -> resultado (X * Rng).

Definition ret {A : Azar} {X : Type} (x : X) : Aleatorio X :=
  fun g => Ok (x, g).

Definition ligarA {A : Azar} {X Y : Type}
  (m : Aleatorio X) (f : X -> Aleatorio Y) : Aleatorio Y :=
  fun g =>
    match m g with
    | Ok (x, g') => f x g'
    | Raise e => Raise e
    end.

Definition elevar {A : Azar} {X : Type} (r : resultado X) : Aleatorio X :=
  fun g =>
    match r with
    | Ok x => Ok (x, g)
    | Raise e => Raise e
    end.

Definition lanzar {A : Azar} {X : Type} (e : excepcion) : Aleatorio X :=
  fun _ => Raise e.

Notation "'let!' x ':=' e 'in' k" := (ligarA e (fun x => k))
  (at level 10, x pattern, e at level 100, k at level 200).

Fixpoint mapearA {A : Azar} {X Y : Type} (f : X -> Aleatorio Y) (l : list X)
  : Aleatorio (list Y) :=
  match l with
  | [] => ret []
  | x :: xs =>
      let! y := f x in
      let! ys := mapearA f xs in
      ret (y :: ys)
  end.

(** [for x in l: estado = f(estado, x)], in either monad. *)
Fixpoint plegar {X S : Type} (f : S -> X -> resultado S) (l : list X) (s : S)
  : resultado S :=
  match l with
  | [] => Ok s
  | x :: xs => let? s' := f s x in plegar f xs s'
  end.

Fixpoint plegarA {A : Azar} {X S : Type}
  (f : S -> X -> Aleatorio S) (l : list X) (s : S) : Aleatorio S :=
  match l with
  | [] => ret s
  | x :: xs => let! s' := f s x in plegarA f xs s'
  end.

(** [l[i] = v] for an index in range (every assignment of the program is
    to an index it has just read). *)
Fixpoint reemplazar {X : Type} (l : list X) (i : nat) (v : X) : list X :=
  match l, i with
  | [], _ => []
  | _ :: xs, O => v :: xs
  | x :: xs, S i' => x :: reemplazar xs i' v
  end.

Section Aleatorios.

Context {A : Azar}.

Definition random_random : Aleatorio Q := fun g => Ok (rnd_random g).

Definition random_gauss (mu sigma : Q) : Aleatorio Q :=
  fun g => Ok (rnd_gauss mu sigma g).

Definition randbelow (n : nat) : Aleatorio nat :=
  fun g => Ok (rnd_below n g).

(** [random.uniform(a, b)] is [a + (b - a) * random()]. *)
Definition random_uniform (a b : Q) : Aleatorio Q :=
  let! u := random_random in
  ret (a + (b - a) * u).

(** [random.choice(seq)]: [IndexError] on an empty sequence, else
    [seq[_randbelow(len(seq))]]. *)
Definition random_choice {X : Type} (l : list X) : Aleatorio X :=
  match l with
  | [] => lanzar IndexError
  | _ :: _ =>
      let! j := randbelow (length l) in
      elevar (py_index l j)
  end.

(** [random.sample(population, k)], the pool variant of CPython: each draw
    takes [pool[j]] for a fresh [j] below the live length and moves the last
    live element into slot [j].  (For large populations CPython tracks the
    chosen indices in a set instead; both select [k] distinct positions.) *)
Fixpoint sample_pool {X : Type} (k : nat) (pool : list X)
  : Aleatorio (list X) :=
  match k with
  | O => ret []
  | S k' =>
      let! j := randbelow (length pool) in
      let! x := elevar (py_index pool j) in
      let pool' := removelast (reemplazar pool j (last pool x)) in
      let! xs := sample_pool k' pool' in
      ret (x :: xs)
  end.

Definition random_sample {X : Type} (population : list X) (k : Z)
  : Aleatorio (list X) :=
  if (0 <=? k)%Z && (k <=? Z.of_nat (length population))%Z
  then sample_pool (Z.to_nat k) population
  else lanzar ValueError.

End Aleatorios.

(* ================================================================== *)
(** ** Definitions shared by the two source files                       *)
(* ================================================================== *)

(** Both files define [haversine_m], [_clamp], [_get_lat_lon] and [_bbox]
    with the same text, and the same tournament selection ([seleccion_torneo]
    and [_seleccion_torneo]) and BLX blend. *)

Definition _bbox (camaras : list Punto) : resultado (Q * Q * Q * Q) :=
  let lats := map fst camaras in
  let lons := map snd camaras in
  let? a := py_min_lista lats in
  let? b := py_max_lista lats in
  let? c := py_min_lista lons in
  let? d := py_max_lista lons in
  Ok (a, b, c, d).

(** The search box [(min_lat, max_lat, min_lon, max_lon)] that the source
    passes around as four floats. *)
Record Caja : Type := {
  min_lat : Q;
  max_lat : Q;
  min_lon : Q;
  max_lon : Q
}.

(** The camera bounding box widened by [margin] of each span, spans being
    at least [1e-9]. *)
Definition caja_ampliada (camaras : list Punto) (margin : Q)
  : resultado Caja :=
  let? (min_lat0, max_lat0, min_lon0, max_lon0) := _bbox camaras in
  let lat_span := py_max (max_lat0 - min_lat0) eps9 in
  let lon_span := py_max (max_lon0 - min_lon0) eps9 in
  Ok {| min_lat := min_lat0 - lat_span * margin;
        max_lat := max_lat0 + lat_span * margin;
        min_lon := min_lon0 - lon_span * margin;
        max_lon := max_lon0 + lon_span * margin |}.

Definition clamp_punto (caja : Caja) (p : Punto) : Punto :=
  (_clamp (fst p) (min_lat caja) (max_lat caja),
   _clamp (snd p) (min_lon caja) (max_lon caja)).

(** [fitnesses[i]] for each index of [idxs]: the keys of a [key=lambda i:
    fitnesses[i]] argument, paired with their index. *)
Definition con_clave (fitnesses : list Q) (idxs : list nat)
  : resultado (list (nat * Q)) :=
  mapear (fun i => let? f := py_index fitnesses i in Ok (i, f)) idxs.

Definition indices {X : Type} (l : list X) : list nat := seq 0 (length l).

(** [sorted(range(len(poblacion)), key=lambda i: fitnesses[i],
    reverse=True)] followed by [[poblacion[i] for i in orden[:max(1,
    elitismo)]]]. *)
Definition orden_por_fitness {X : Type} (poblacion : list X)
  (fitnesses : list Q) : resultado (list nat) :=
  let? claves := con_clave fitnesses (indices poblacion) in
  Ok (map fst (sorted_key_reverse snd claves)).

Definition elites_de {X : Type} (poblacion : list X) (fitnesses : list Q)
  (elitismo : Z) : resultado (list X) :=
  let? orden := orden_por_fitness poblacion fitnesses in
  mapear (py_index poblacion) (firstn (Z.to_nat (Z.max 1 elitismo)) orden).

(** What a generation shows of a population under a fitness function [f]:
    the best fitness it evaluates, and the best fitness within its elite
    set. *)
Definition mejor_observado {X : Type} (f : X -> resultado Q)
  (poblacion : list X) : resultado Q :=
  let? fitnesses := mapear f poblacion in
  py_max_lista fitnesses.

Definition mejor_elite {X : Type} (f : X -> resultado Q) (elitismo : Z)
  (poblacion : list X) : resultado Q :=
  let? fitnesses := mapear f poblacion in
  let? elites := elites_de poblacion fitnesses elitismo in
  let? fitnesses_elite := mapear f elites in
  py_max_lista fitnesses_elite.

Section Operadores.

Context {A : Azar}.

Definition punto_aleatorio (caja : Caja) : Aleatorio Punto :=
  let! a := random_uniform (min_lat caja) (max_lat caja) in
  let! b := random_uniform (min_lon caja) (max_lon caja) in
  ret (a, b).

(** One tournament: sample [min(k, len(idxs))] distinct indices, keep the
    first one of highest fitness, return that individual. *)
Definition torneo {X : Type} (poblacion : list X) (fitnesses : list Q)
  (k : Z) : Aleatorio X :=
  let idxs := indices poblacion in
  let! contendientes :=
    random_sample idxs (Z.min k (Z.of_nat (length idxs))) in
  let! claves := elevar (con_clave fitnesses contendientes) in
  let! best := elevar (py_max_key snd claves) in
  elevar (py_index poblacion (fst best)).

Fixpoint repetir {X : Type} (n : nat) (m : Aleatorio X)
  : Aleatorio (list X) :=
  match n with
  | O => ret []
  | S n' =>
      let! x := m in
      let! xs := repetir n' m in
      ret (x :: xs)
  end.

Definition seleccion_torneo {X : Type} (poblacion : list X)
  (fitnesses : list Q) (k_torneo : Z) (n : option Z) : Aleatorio (list X) :=
  let n := match n with
           | None => Z.of_nat (length poblacion)
           | Some n => n
           end in
  repetir (Z.to_nat n) (torneo poblacion fitnesses k_torneo).

Definition _blx (a b alpha : Q) : Aleatorio Q :=
  let lo := py_min a b in
  let hi := py_max a b in
  let d := hi - lo in
  random_uniform (lo - alpha * d) (hi + alpha * d).

Definition cruzar_blx_alpha (p1 p2 : Punto) (alpha : Q) : Aleatorio Punto :=
  let '(x1, y1) := p1 in
  let '(x2, y2) := p2 in
  let! x := _blx x1 x2 alpha in
  let! y := _blx y1 y2 alpha in
  ret (x, y).

Definition mutar_gauss (ind : Punto) (caja : Caja)
  (sigma_lat sigma_lon prob_mut : Q) : Aleatorio Punto :=
  let '(lat, lon) := ind in
  let! u := random_random in
  let! (lat, lon) :=
    if Qltb u prob_mut then
      let! dlat := random_gauss 0 sigma_lat in
      let! dlon := random_gauss 0 sigma_lon in
      ret (lat + dlat, lon + dlon)
    else ret (lat, lon) in
  ret (clamp_punto caja (lat, lon)).

End Operadores.

(* ================================================================== *)
(** ** [algoritmo_genetico.py]: the blind-spot search                   *)
(* ================================================================== *)

Module PuntosCiegos.

Record Config : Type := {
  tam_poblacion : Z;
  generaciones : Z;
  num_puntos_resultado : Z;
  min_separacion_m : Q;
  radio_cobertura_m : Q;
  max_interes_m : Q;
  max_extrapolacion_m : Q;
  k_vecinos : Z;
  elitismo : Z;
  k_torneo : Z;
  alpha_blx : Q;
  bbox_margin_factor : Q
}.

(** The keyword defaults of [algoritmo_genetico_puntos_ciegos]. *)
Definition config_defecto : Config := {|
  tam_poblacion := 120;
  generaciones := 90;
  num_puntos_resultado := 10;
  min_separacion_m := 180;
  radio_cobertura_m := 80;
  max_interes_m := 350;
  max_extrapolacion_m := 900;
  k_vecinos := 4;
  elitismo := 4;
  k_torneo := 4;
  alpha_blx := 1 # 2;
  bbox_margin_factor := 15 # 100
|}.

(** A scored candidate [(lat, lon, fit)]. *)
Definition Candidato : Type := (Q * Q * Q)%type.

Section Definiciones.

Context {G : Geodesia} {A : Azar}.

(** [sum(...) / len(camaras)] on each coordinate, the exact mean. *)
Definition _centroide (camaras : list Punto) : resultado Punto :=
  let n := inject_Z (Z.of_nat (length camaras)) in
  let? a := py_div (sum (map fst camaras)) n in
  let? b := py_div (sum (map snd camaras)) n in
  Ok (a, b).

Definition distancias (lat lon : Q) (camaras : list Punto) : list Q :=
  map (fun c => haversine_m lat lon (fst c) (snd c)) camaras.

Definition _dist_min_a_camaras (lat lon : Q) (camaras : list Punto)
  : resultado Q :=
  py_min_lista (distancias lat lon camaras).

(** The neighbour count actually used: [max(1, min(k, len(dists)))]. *)
Definition k_efectivo (k : Z) (n : nat) : Z := Z.max 1 (Z.min k (Z.of_nat n)).

(** [sum(dists[:k]) / k] over the sorted distances, the exact mean. *)
Definition _dist_prom_k_vecinas (lat lon : Q) (camaras : list Punto) (k : Z)
  : resultado Q :=
  let dists := sorted (distancias lat lon camaras) in
  let k := k_efectivo k (length dists) in
  py_div (sum (firstn (Z.to_nat k) dists)) (inject_Z k).

Definition fitness_punto_completo
  (punto : Punto) (camaras : list Punto)
  (radio_cobertura_m max_interes_m max_extrapolacion_m : Q)
  (k_vecinos : Z) (borde_frac_penal : Q) : resultado Q :=
  match camaras with
  | [] => Ok 0
  | _ :: _ =>
      let '(lat, lon) := punto in
      let? dmin := _dist_min_a_camaras lat lon camaras in
      if Qle_bool dmin radio_cobertura_m then
        let? r := py_div dmin (py_max radio_cobertura_m eps9) in
        Ok (_clamp ((5 # 100) * r) 0 (5 # 100))
      else
        let d_use := py_min dmin max_interes_m in
        let? hueco := py_div d_use (py_max max_interes_m eps9) in
        let hueco := _clamp hueco 0 1 in
        let? d_k := _dist_prom_k_vecinas lat lon camaras k_vecinos in
        let? q := py_div d_k (py_max max_interes_m eps9) in
        let interno := 1 - py_min q 1 in
        let interno := _clamp interno 0 1 in
        let? (c_lat, c_lon) := _centroide camaras in
        let d_cent := haversine_m lat lon c_lat c_lon in
        let? penal_extrap :=
          if Qltb max_interes_m d_cent then
            let? pe := py_div (d_cent - max_interes_m)
                         (py_max (max_extrapolacion_m - max_interes_m) eps9) in
            Ok (_clamp pe 0 1)
          else Ok 0 in
        let penal_extrap := penal_extrap * (1 # 2) in
        let? (min_lat, max_lat, min_lon, max_lon) := _bbox camaras in
        let lat_span := py_max (max_lat - min_lat) eps9 in
        let lon_span := py_max (max_lon - min_lon) eps9 in
        let lat_borde := lat_span * borde_frac_penal in
        let lon_borde := lon_span * borde_frac_penal in
        let cerca_borde :=
          Qltb lat (min_lat + lat_borde)
          || Qltb (max_lat - lat_borde) lat
          || Qltb lon (min_lon + lon_borde)
          || Qltb (max_lon - lon_borde) lon in
        let penal_borde := if cerca_borde then 15 # 100 else 0 in
        let score :=
          ((7 # 10) * hueco + (3 # 10) * interno)
          - ((7 # 10) * penal_extrap) - penal_borde in
        Ok (_clamp score 0 1)
  end.

(** The greedy pass of [seleccionar_espaciados]: candidates in order, until
    [max_puntos] are selected; a candidate closer than [min_sep_m] to an
    already selected one is skipped. *)
Definition separado (min_sep_m : Q) (c : Candidato)
  (seleccionados : list Candidato) : bool :=
  let '(lat, lon, _) := c in
  forallb
    (fun s : Candidato =>
       let '(slat, slon, _) := s in
       negb (Qltb (haversine_m lat lon slat slon) min_sep_m))
    seleccionados.

Fixpoint pasada_separada (min_sep_m : Q) (max_puntos : Z)
  (candidatos seleccionados : list Candidato) : list Candidato :=
  match candidatos with
  | [] => seleccionados
  | c :: resto =>
      if (max_puntos <=? Z.of_nat (length seleccionados))%Z
      then seleccionados
      else if separado min_sep_m c seleccionados
      then pasada_separada min_sep_m max_puntos resto (seleccionados ++ [c])
      else pasada_separada min_sep_m max_puntos resto seleccionados
  end.

(** Tuple equality [==] and the membership test [c in seleccionados]. *)
Definition candidato_eqb (c d : Candidato) : bool :=
  let '(a1, b1, f1) := c in
  let '(a2, b2, f2) := d in
  Qeq_bool a1 a2 && Qeq_bool b1 b2 && Qeq_bool f1 f2.

Definition pertenece (c : Candidato) (l : list Candidato) : bool :=
  existsb (candidato_eqb c) l.

(** The backfill loop. *)
Fixpoint rellenar (max_puntos : Z)
  (candidatos seleccionados : list Candidato) : list Candidato :=
  match candidatos with
  | [] => seleccionados
  | c :: resto =>
      if (max_puntos <=? Z.of_nat (length seleccionados))%Z
      then seleccionados
      else if pertenece c seleccionados
      then rellenar max_puntos resto seleccionados
      else rellenar max_puntos resto (seleccionados ++ [c])
  end.

Definition seleccionar_espaciados (candidatos : list Candidato)
  (min_sep_m : Q) (max_puntos : Z) : list Candidato :=
  let seleccionados := pasada_separada min_sep_m max_puntos candidatos [] in
  if (Z.of_nat (length seleccionados) <? max_puntos)%Z
  then rellenar max_puntos candidatos seleccionados
  else seleccionados.

(** [fitness_punto_completo] as the search calls it (the border fraction
    keeps its default 0.10), and the fitness list of a population. *)
Definition fitness_individuo (cfg : Config) (camaras : list Punto)
  (ind : Punto) : resultado Q :=
  fitness_punto_completo ind camaras
    (radio_cobertura_m cfg) (max_interes_m cfg)
    (max_extrapolacion_m cfg) (k_vecinos cfg) (1 # 10).

Definition evaluar (cfg : Config) (camaras : list Punto)
  (poblacion : list Punto) : resultado (list Q) :=
  mapear (fitness_individuo cfg camaras) poblacion.

(** [while len(nueva) < tam_poblacion]: every turn appends one child, so the
    loop runs [tam_poblacion - len(nueva)] times (no time when that is not
    positive). *)
Fixpoint reproducir (faltan : nat) (cfg : Config) (caja : Caja)
  (padres nueva : list Punto) : Aleatorio (list Punto) :=
  match faltan with
  | O => ret nueva
  | S faltan' =>
      let! p1 := random_choice padres in
      let! p2 := random_choice padres in
      let! hijo := cruzar_blx_alpha p1 p2 (alpha_blx cfg) in
      let! hijo :=
        mutar_gauss hijo caja (7 # 10000) (7 # 10000) (25 # 100) in
      reproducir faltan' cfg caja padres (nueva ++ [hijo])
  end.

(** The body of [for _ in range(generaciones)]. *)
Definition generacion (cfg : Config) (camaras : list Punto) (caja : Caja)
  (poblacion : list Punto) : Aleatorio (list Punto) :=
  let! fitnesses := elevar (evaluar cfg camaras poblacion) in
  let! elites := elevar (elites_de poblacion fitnesses (elitismo cfg)) in
  let! padres :=
    seleccion_torneo poblacion fitnesses (k_torneo cfg)
      (Some (tam_poblacion cfg)) in
  reproducir
    (Z.to_nat (tam_poblacion cfg - Z.of_nat (length elites)))
    cfg caja padres elites.

Fixpoint bucle (gens : nat) (cfg : Config) (camaras : list Punto)
  (caja : Caja) (poblacion : list Punto) : Aleatorio (list Punto) :=
  match gens with
  | O => ret poblacion
  | S gens' =>
      let! nueva := generacion cfg camaras caja poblacion in
      bucle gens' cfg camaras caja nueva
  end.

Definition algoritmo_genetico_puntos_ciegos (camaras : list Punto)
  (cfg : Config) : Aleatorio (list Candidato) :=
  match camaras with
  | [] => ret []
  | _ :: _ =>
      let! caja :=
        elevar (caja_ampliada camaras (bbox_margin_factor cfg)) in
      let! poblacion :=
        repetir (Z.to_nat (tam_poblacion cfg)) (punto_aleatorio caja) in
      let! poblacion :=
        bucle (Z.to_nat (generaciones cfg)) cfg camaras caja poblacion in
      let! fitnesses_final := elevar (evaluar cfg camaras poblacion) in
      let candidatos :=
        map (fun pf : Punto * Q => (fst (fst pf), snd (fst pf), snd pf))
          (combine poblacion fitnesses_final) in
      let candidatos :=
        sorted_key_reverse (fun x : Candidato => snd x) candidatos in
      ret (seleccionar_espaciados candidatos
             (min_separacion_m cfg) (num_puntos_resultado cfg))
  end.

End Definiciones.

End PuntosCiegos.

(* ================================================================== *)
(** ** [ga_cobertura.py]: the coverage-improvement search               *)
(* ================================================================== *)

Module Cobertura.

Record Config : Type := {
  n_camaras_nuevas : Z;
  radio_m : Q;
  puntos_eval : option (list Punto);
  step_grid_m : Q;
  grid_max_points : Z;
  tam_poblacion : Z;
  generaciones : Z;
  elitismo : Z;
  k_torneo : Z;
  alpha_blx : Q;
  bbox_margin_factor : Q;
  penalizar_sobrecobertura : bool;
  penalizar_cercania : bool;
  min_dist_entre_nuevas_m : Q;
  min_dist_a_existentes_m : Q;
  peso_cercania : Q;
  puntos_semilla : option (list Punto);
  prob_usar_semilla : Q
}.

(** The keyword defaults of [algoritmo_genetico_mejorar_cobertura]. *)
Definition config_defecto : Config := {|
  n_camaras_nuevas := 5;
  radio_m := 120;
  puntos_eval := None;
  step_grid_m := 150;
  grid_max_points := 6000;
  tam_poblacion := 80;
  generaciones := 80;
  elitismo := 3;
  k_torneo := 4;
  alpha_blx := 1 # 2;
  bbox_margin_factor := 12 # 100;
  penalizar_sobrecobertura := true;
  penalizar_cercania := true;
  min_dist_entre_nuevas_m := 180;
  min_dist_a_existentes_m := 60;
  peso_cercania := 10;
  puntos_semilla := None;
  prob_usar_semilla := 6 # 10
|}.

(** A Python [dict] with string keys, in insertion order. *)
Definition Dict : Type := list (string * Q).

Fixpoint dict_get (d : Dict) (k : string) : option Q :=
  match d with
  | [] => None
  | (k', v) :: d' => if String.eqb k k' then Some v else dict_get d' k
  end.

(** The returned dictionary [{"camaras_nuevas", "fitness", "metricas"}]. *)
Record Resultado : Type := {
  camaras_nuevas : list Punto;
  fitness : Q;
  metricas : Dict
}.

(** An individual: the proposed cameras. *)
Definition Individuo : Type := list Punto.

Section Definiciones.

Context {G : Geodesia} {A : Azar}.

(** The inner [while lon <= max_lon] of the grid; [lon += step_lon] is an
    exact sum. *)
Fixpoint fila_grid (gas : nat) (lat lon max_lon step_lon : Q)
  (pts : list Punto) : resultado (list Punto) :=
  match gas with
  | O => Raise NoTermina
  | S gas' =>
      if Qle_bool lon max_lon
      then fila_grid gas' lat (lon + step_lon) max_lon step_lon
             (pts ++ [(lat, lon)])
      else Ok pts
  end.

(** The outer [while lat <= max_lat]; each row gets the budget [gas];
    [lat += step_lat] is an exact sum. *)
Fixpoint filas_grid (gas n : nat) (lat max_lat min_lon max_lon : Q)
  (step_lat step_lon : Q) (pts : list Punto) : resultado (list Punto) :=
  match n with
  | O => Raise NoTermina
  | S n' =>
      if Qle_bool lat max_lat
      then
        let? pts' := fila_grid gas lat min_lon max_lon step_lon pts in
        filas_grid gas n' (lat + step_lat) max_lat min_lon max_lon
          step_lat step_lon pts'
      else Ok pts
  end.

(** [generar_grid_puntos].  The two [while] loops are bounded by [gas]
    turns each; running out of them is the exception [NoTermina]. *)
Definition generar_grid_puntos (gas : nat) (camaras : list Punto)
  (step_m margin_factor : Q) (max_points : Z) : Aleatorio (list Punto) :=
  match camaras with
  | [] => ret []
  | _ :: _ =>
      let! (min_lat, max_lat, min_lon, max_lon) := elevar (_bbox camaras) in
      let lat_span := py_max (max_lat - min_lat) eps9 in
      let lon_span := py_max (max_lon - min_lon) eps9 in
      let min_lat := min_lat - lat_span * margin_factor in
      let max_lat := max_lat + lat_span * margin_factor in
      let min_lon := min_lon - lon_span * margin_factor in
      let max_lon := max_lon + lon_span * margin_factor in
      let! mid_lat := elevar (py_div (min_lat + max_lat) 2) in
      let m_per_deg_lat := 111320 in
      let m_per_deg_lon := 111320 * cos_radians mid_lat in
      let! step_lat := elevar (py_div step_m m_per_deg_lat) in
      let! step_lon := elevar (py_div step_m (py_max m_per_deg_lon eps6)) in
      let! pts :=
        elevar (filas_grid gas gas min_lat max_lat min_lon max_lon
                  step_lat step_lon []) in
      if negb (max_points =? 0)%Z
         && (max_points <? Z.of_nat (length pts))%Z
      then random_sample pts max_points
      else ret pts
  end.

Definition contar_cobertura_en_punto (punto : Punto)
  (camaras : list Punto) (radio_m : Q) : nat :=
  let '(lat, lon) := punto in
  fold_left
    (fun count (c : Punto) =>
       if Qle_bool (haversine_m lat lon (fst c) (snd c)) radio_m
       then S count else count)
    camaras O.

(** The four counters [(c0, c1, c2, c3)] after the classification loop. *)
Definition clasificar (puntos_eval camaras_totales : list Punto)
  (radio_m : Q) : nat * nat * nat * nat :=
  fold_left
    (fun '(c0, c1, c2, c3) p =>
       let k := contar_cobertura_en_punto p camaras_totales radio_m in
       if (k <=? 0)%nat then (S c0, c1, c2, c3)
       else if (k =? 1)%nat then (c0, S c1, c2, c3)
       else if (k =? 2)%nat then (c0, c1, S c2, c3)
       else (c0, c1, c2, S c3))
    puntos_eval (O, O, O, O).

Definition de_nat (n : nat) : Q := inject_Z (Z.of_nat n).

(** [(c / n) * 100.0]. *)
Definition porcentaje (c n : nat) : resultado Q :=
  let? r := py_div (de_nat c) (de_nat n) in
  Ok (r * 100).

Definition metricas_niveles_cobertura (puntos_eval camaras_totales : list Punto)
  (radio_m : Q) : resultado Dict :=
  match puntos_eval with
  | [] =>
      Ok [("cobertura_total"%string, 0); ("sin_cobertura"%string, 100);
          ("nivel_1"%string, 0); ("nivel_2"%string, 0);
          ("nivel_3_mas"%string, 0)]
  | _ :: _ =>
      let n := length puntos_eval in
      let '(c0, c1, c2, c3) :=
        clasificar puntos_eval camaras_totales radio_m in
      let? sin_cob := porcentaje c0 n in
      let cov_total := 100 - sin_cob in
      let? n1 := porcentaje c1 n in
      let? n2 := porcentaje c2 n in
      let? n3 := porcentaje c3 n in
      Ok [("cobertura_total"%string, cov_total);
          ("sin_cobertura"%string, sin_cob);
          ("nivel_1"%string, n1); ("nivel_2"%string, n2);
          ("nivel_3_mas"%string, n3)]
  end.

(** [d[k]]. *)
Definition leer (d : Dict) (k : string) : resultado Q :=
  match dict_get d k with
  | Some v => Ok v
  | None => Raise KeyError
  end.

(** The index pairs [(i, j)] of [for i in range(n): for j in range(i + 1,
    n)], in the order the loops visit them. *)
Definition pares (n : nat) : list (nat * nat) :=
  flat_map (fun i => map (pair i) (seq (S i) (n - S i))) (seq 0 n).

(** [dmin] of the inner loop over the existing cameras: [None] when there
    is none. *)
Definition dmin_existentes (lat lon : Q) (camaras_existentes : list Punto)
  : option Q :=
  fold_left
    (fun (dmin : option Q) (e : Punto) =>
       let d := haversine_m lat lon (fst e) (snd e) in
       match dmin with
       | None => Some d
       | Some m => if Qltb d m then Some d else Some m
       end)
    camaras_existentes None.

Definition _penalizar_camaras_muy_cercanas
  (camaras_nuevas camaras_existentes : list Punto)
  (min_dist_entre_nuevas_m min_dist_a_existentes_m peso_penalizacion : Q)
  : resultado Q :=
  let n := length camaras_nuevas in
  let? pen :=
    plegar
      (fun pen '(i, j) =>
         let? ci := py_index camaras_nuevas i in
         let? cj := py_index camaras_nuevas j in
         let d := haversine_m (fst ci) (snd ci) (fst cj) (snd cj) in
         if Qltb d min_dist_entre_nuevas_m then
           let? r := py_div d (py_max min_dist_entre_nuevas_m eps6) in
           Ok (pen + peso_penalizacion * (1 - r))
         else Ok pen)
      (pares n) 0 in
  if Qltb 0 min_dist_a_existentes_m then
    plegar
      (fun pen '(lat, lon) =>
         match dmin_existentes lat lon camaras_existentes with
         | Some dmin =>
             if Qltb dmin min_dist_a_existentes_m then
               let? r := py_div dmin (py_max min_dist_a_existentes_m eps6) in
               Ok (pen + (peso_penalizacion * (75 # 100)) * (1 - r))
             else Ok pen
         | None => Ok pen
         end)
      camaras_nuevas pen
  else Ok pen.

(** One turn of the repair loop: the pass against the existing cameras,
    then the pass over the pairs; the flag is [changed]. *)
Definition demasiado_cerca (p : Punto) (camaras_existentes : list Punto)
  (min_dist_a_existentes_m : Q) : bool :=
  existsb
    (fun e : Punto =>
       Qltb (haversine_m (fst p) (snd p) (fst e) (snd e))
            min_dist_a_existentes_m)
    camaras_existentes.

Definition reparar_existentes (caja : Caja) (camaras_existentes : list Punto)
  (min_dist_a_existentes_m : Q) (out : list Punto)
  : Aleatorio (list Punto * bool) :=
  plegarA
    (fun '(out, changed) i =>
       let! p := elevar (py_index out i) in
       if demasiado_cerca p camaras_existentes min_dist_a_existentes_m then
         let! q := punto_aleatorio caja in
         ret (reemplazar out i q, true)
       else ret (out, changed))
    (indices out) (out, false).

Definition reparar_pares (caja : Caja) (min_dist_entre_nuevas_m : Q)
  (estado : list Punto * bool) : Aleatorio (list Punto * bool) :=
  plegarA
    (fun '(out, changed) '(i, j) =>
       let! pi := elevar (py_index out i) in
       let! pj := elevar (py_index out j) in
       let d := haversine_m (fst pi) (snd pi) (fst pj) (snd pj) in
       if Qltb d min_dist_entre_nuevas_m then
         let! q := punto_aleatorio caja in
         ret (reemplazar out j q, true)
       else ret (out, changed))
    (pares (length (fst estado))) estado.

Definition pasada_repair (caja : Caja) (camaras_existentes : list Punto)
  (min_dist_entre_nuevas_m min_dist_a_existentes_m : Q) (out : list Punto)
  : Aleatorio (list Punto * bool) :=
  let! estado :=
    if Qltb 0 min_dist_a_existentes_m
    then reparar_existentes caja camaras_existentes
           min_dist_a_existentes_m out
    else ret (out, false) in
  reparar_pares caja min_dist_entre_nuevas_m estado.

Fixpoint iterar_repair (iters : nat) (caja : Caja)
  (camaras_existentes : list Punto)
  (min_dist_entre_nuevas_m min_dist_a_existentes_m : Q) (out : list Punto)
  : Aleatorio (list Punto) :=
  match iters with
  | O => ret out
  | S iters' =>
      let! (out', changed) :=
        pasada_repair caja camaras_existentes
          min_dist_entre_nuevas_m min_dist_a_existentes_m out in
      if (changed : bool)
      then iterar_repair iters' caja camaras_existentes
             min_dist_entre_nuevas_m min_dist_a_existentes_m out'
      else ret out'
  end.

Definition _repair_separacion (ind : list Punto)
  (camaras_existentes : list Punto) (caja : Caja)
  (min_dist_entre_nuevas_m min_dist_a_existentes_m : Q) (max_iters : Z)
  : Aleatorio (list Punto) :=
  let! out :=
    iterar_repair (Z.to_nat max_iters) caja camaras_existentes
      min_dist_entre_nuevas_m min_dist_a_existentes_m ind in
  ret (map (clamp_punto caja) out).

Definition fitness_cobertura
  (puntos_eval camaras_existentes camaras_nuevas : list Punto) (radio_m : Q)
  (penalizar_sobrecobertura : bool) (peso_sobrecobertura : Q)
  (penalizar_cercania : bool)
  (min_dist_entre_nuevas_m min_dist_a_existentes_m peso_cercania : Q)
  : resultado Q :=
  let cam_tot := camaras_existentes ++ camaras_nuevas in
  let? met := metricas_niveles_cobertura puntos_eval cam_tot radio_m in
  let? score := leer met "cobertura_total" in
  let? score :=
    if penalizar_sobrecobertura then
      let? n3 := leer met "nivel_3_mas" in
      Ok (score - peso_sobrecobertura * n3)
    else Ok score in
  let? score :=
    if penalizar_cercania
       && match camaras_nuevas with [] => false | _ :: _ => true end
    then
      let? pen :=
        _penalizar_camaras_muy_cercanas camaras_nuevas camaras_existentes
          min_dist_entre_nuevas_m min_dist_a_existentes_m peso_cercania in
      Ok (score - pen)
    else Ok score in
  Ok (_clamp score 0 100).

Definition _seleccion_torneo (poblacion : list Individuo)
  (fitnesses : list Q) (k : Z) (n : option Z) : Aleatorio (list Individuo) :=
  seleccion_torneo poblacion fitnesses k n.

(** Pointwise blend over [range(min(len(p1), len(p2)))]. *)
Definition _cruzar_individuo_blx (p1 p2 : Individuo) (alpha : Q)
  : Aleatorio Individuo :=
  mapearA
    (fun '(a, b) => cruzar_blx_alpha a b alpha)
    (combine p1 p2).

Definition _mutar_individuo_gauss (ind : Individuo) (caja : Caja)
  (prob_mut sigma_lat sigma_lon : Q) : Aleatorio Individuo :=
  mapearA (fun p => mutar_gauss p caja sigma_lat sigma_lon prob_mut) ind.

(** [_repair_separacion] as both callers invoke it ([max_iters] keeps its
    default 35). *)
Definition reparar (cfg : Config) (camaras_existentes : list Punto)
  (caja : Caja) (ind : Individuo) : Aleatorio Individuo :=
  if penalizar_cercania cfg
  then _repair_separacion ind camaras_existentes caja
         (min_dist_entre_nuevas_m cfg) (min_dist_a_existentes_m cfg) 35
  else ret ind.

(** [while len(ind) < n_camaras_nuevas: ind.append(random point)]. *)
Fixpoint completar (faltan : nat) (caja : Caja) (ind : Individuo)
  : Aleatorio Individuo :=
  match faltan with
  | O => ret ind
  | S faltan' =>
      let! p := punto_aleatorio caja in
      completar faltan' caja (ind ++ [p])
  end.

(** The closure [_crear_individuo]; [semillas] are the clamped seeds. *)
Definition _crear_individuo (cfg : Config) (camaras_existentes : list Punto)
  (caja : Caja) (semillas : list Punto) : Aleatorio Individuo :=
  let! ind :=
    match semillas with
    | [] => ret []
    | _ :: _ =>
        let! u := random_random in
        if Qltb u (prob_usar_semilla cfg) then
          let take :=
            Z.min (Z.of_nat (length semillas)) (n_camaras_nuevas cfg) in
          random_sample semillas take
        else ret []
    end in
  let! ind :=
    completar (Z.to_nat (n_camaras_nuevas cfg - Z.of_nat (length ind)))
      caja ind in
  let ind := map (clamp_punto caja) ind in
  reparar cfg camaras_existentes caja ind.

(** The fitness the loop records for an individual: [fitness_cobertura]
    (the over-coverage weight keeps its default 0.15) clamped once more to
    [0, 100]; and the fitness list of a population. *)
Definition fitness_individuo (cfg : Config)
  (puntos_eval camaras_existentes : list Punto) (ind : Individuo)
  : resultado Q :=
  let? fit :=
    fitness_cobertura puntos_eval camaras_existentes ind (radio_m cfg)
      (penalizar_sobrecobertura cfg) (15 # 100)
      (penalizar_cercania cfg) (min_dist_entre_nuevas_m cfg)
      (min_dist_a_existentes_m cfg) (peso_cercania cfg) in
  Ok (_clamp fit 0 100).

Definition evaluar (cfg : Config) (puntos_eval camaras_existentes : list Punto)
  (poblacion : list Individuo) : resultado (list Q) :=
  mapear (fitness_individuo cfg puntos_eval camaras_existentes) poblacion.

Fixpoint reproducir (faltan : nat) (cfg : Config)
  (camaras_existentes : list Punto) (caja : Caja)
  (padres nueva : list Individuo) : Aleatorio (list Individuo) :=
  match faltan with
  | O => ret nueva
  | S faltan' =>
      let! p1 := random_choice padres in
      let! p2 := random_choice padres in
      let! hijo := _cruzar_individuo_blx p1 p2 (alpha_blx cfg) in
      let! hijo :=
        _mutar_individuo_gauss hijo caja (35 # 100) (7 # 10000) (7 # 10000) in
      let hijo := map (clamp_punto caja) hijo in
      let! hijo := reparar cfg camaras_existentes caja hijo in
      reproducir faltan' cfg camaras_existentes caja padres (nueva ++ [hijo])
  end.

(** The loop state: the population and the best individual seen so far. *)
Record Estado : Type := {
  poblacion : list Individuo;
  best_ind : Individuo;
  best_fit : Q
}.

(** The body of [for _ in range(generaciones)].  Besides the next state it
    returns the fitness list it evaluated, so that a run can be related to
    everything it scored. *)
Definition generacion (cfg : Config)
  (puntos_eval camaras_existentes : list Punto) (caja : Caja) (e : Estado)
  : Aleatorio (Estado * list Q) :=
  let pob := poblacion e in
  let! fitnesses := elevar (evaluar cfg puntos_eval camaras_existentes pob) in
  let! claves := elevar (con_clave fitnesses (indices pob)) in
  let! mejor := elevar (py_max_key snd claves) in
  let i_best := fst mejor in
  let! f_best := elevar (py_index fitnesses i_best) in
  let! (best_fit', best_ind') :=
    if Qltb (best_fit e) f_best then
      let! ind := elevar (py_index pob i_best) in
      ret (f_best, ind)
    else ret (best_fit e, best_ind e) in
  let! elites := elevar (elites_de pob fitnesses (elitismo cfg)) in
  let! padres :=
    _seleccion_torneo pob fitnesses (k_torneo cfg)
      (Some (tam_poblacion cfg)) in
  let! nueva :=
    reproducir (Z.to_nat (tam_poblacion cfg - Z.of_nat (length elites)))
      cfg camaras_existentes caja padres elites in
  ret ({| poblacion := nueva; best_ind := best_ind';
          best_fit := best_fit' |}, fitnesses).

(** The generational loop.  Its second result is the record of the run:
    for each generation, in order, the fitness list it evaluated and the
    value of [best_fit] at its end. *)
Fixpoint bucle (gens : nat) (cfg : Config)
  (puntos_eval camaras_existentes : list Punto) (caja : Caja) (e : Estado)
  : Aleatorio (Estado * list (list Q * Q)) :=
  match gens with
  | O => ret (e, [])
  | S gens' =>
      let! (e', fs) :=
        generacion cfg puntos_eval camaras_existentes caja e in
      let! (e'', historial) :=
        bucle gens' cfg puntos_eval camaras_existentes caja e' in
      ret (e'', (fs, best_fit e') :: historial)
  end.

Definition algoritmo_genetico_mejorar_cobertura (gas : nat)
  (camaras_existentes_in : list Punto) (cfg : Config) : Aleatorio Resultado :=
  match camaras_existentes_in with
  | [] => ret {| camaras_nuevas := []; fitness := 0; metricas := [] |}
  | _ :: _ =>
      let camaras_existentes := camaras_existentes_in in
      let! puntos_eval :=
        match puntos_eval cfg with
        | None =>
            generar_grid_puntos gas camaras_existentes (step_grid_m cfg)
              (6 # 100) (grid_max_points cfg)
        | Some pts => ret pts
        end in
      let! puntos_eval :=
        match puntos_eval with
        | [] =>
            random_sample camaras_existentes
              (Z.min 200 (Z.of_nat (length camaras_existentes)))
        | _ :: _ => ret puntos_eval
        end in
      let! caja :=
        elevar (caja_ampliada camaras_existentes (bbox_margin_factor cfg)) in
      let semillas :=
        map (clamp_punto caja)
          match puntos_semilla cfg with
          | None => []
          | Some l => l
          end in
      let! poblacion :=
        repetir (Z.to_nat (tam_poblacion cfg))
          (_crear_individuo cfg camaras_existentes caja semillas) in
      let! (e, _) :=
        bucle (Z.to_nat (generaciones cfg)) cfg puntos_eval
          camaras_existentes caja
          {| poblacion := poblacion; best_ind := []; best_fit := -(1) |} in
      let cam_tot := camaras_existentes ++ best_ind e in
      let! met :=
        elevar (metricas_niveles_cobertura puntos_eval cam_tot (radio_m cfg)) in
      ret {| camaras_nuevas := best_ind e; fitness := best_fit e;
             metricas := met |}
  end.

End Definiciones.

End Cobertura.

(* ================================================================== *)
(** ** A concrete random source                                         *)
(* ================================================================== *)

(** A linear congruential generator, used to run the searches on concrete
    inputs. *)
Definition lcg (s : Z) : Z := ((1103515245 * s + 12345) mod 2147483648)%Z.

Lemma lcg_below_lt (n : nat) (g : Z) :
  (0 < n)%nat -> (Z.to_nat (lcg g mod Z.of_nat n) < n)%nat.
Proof.
  intro H.
  assert (0 <= lcg g mod Z.of_nat n < Z.of_nat n)%Z
    by (apply Z.mod_pos_bound; lia).
  lia.
Qed.

Definition azar_lcg : Azar := {|
  Rng := Z;
  rnd_random := fun s => (Qmake (lcg s) 2147483648, lcg s);
  rnd_gauss := fun mu sigma s =>
    (mu + sigma * Qmake (lcg s mod 2001 - 1000) 250, lcg s);
  rnd_below := fun n s => (Z.to_nat (lcg s mod Z.of_nat n), lcg s);
  rnd_below_lt := lcg_below_lt
|}.
(* ================================================================== *)
(** ** Basic facts                                                      *)
(* ================================================================== *)

Lemma Qltb_lt (x y : Q) : Qltb x y = true <-> x < y.
Proof.
  unfold Qltb. rewrite negb_true_iff.
  split; intro H.
  - apply Qnot_le_lt. intro Hle. apply Qle_bool_iff in Hle. congruence.
  - destruct (Qle_bool y x) eqn:E; [|reflexivity].
    apply Qle_bool_iff in E. exfalso. apply (Qlt_not_le _ _ H E).
Qed.

Lemma Qltb_ge (x y : Q) : Qltb x y = false <-> y <= x.
Proof.
  unfold Qltb. rewrite negb_false_iff. apply Qle_bool_iff.
Qed.

Lemma Qle_bool_false (x y : Q) : Qle_bool x y = false <-> y < x.
Proof.
  rewrite <- Qltb_lt. unfold Qltb. rewrite negb_true_iff. reflexivity.
Qed.

Ltac casos_Q :=
  repeat match goal with
  | H : Qltb _ _ = true |- _ => apply Qltb_lt in H
  | H : Qltb _ _ = false |- _ => apply Qltb_ge in H
  | H : Qle_bool _ _ = true |- _ => apply Qle_bool_iff in H
  | H : Qle_bool _ _ = false |- _ => apply Qle_bool_false in H
  end.

Lemma py_max_cota (a b : Q) : a <= py_max a b /\ b <= py_max a b.
Proof.
  unfold py_max. destruct (Qltb a b) eqn:E; casos_Q; split; lra.
Qed.

Lemma py_min_cota (a b : Q) : py_min a b <= a /\ py_min a b <= b.
Proof.
  unfold py_min. destruct (Qltb b a) eqn:E; casos_Q; split; lra.
Qed.

Lemma py_max_es (a b : Q) : py_max a b = a \/ py_max a b = b.
Proof. unfold py_max. destruct (Qltb a b); auto. Qed.

Lemma py_min_es (a b : Q) : py_min a b = a \/ py_min a b = b.
Proof. unfold py_min. destruct (Qltb b a); auto. Qed.

Lemma clamp_entre (v lo hi : Q) :
  lo <= hi -> lo <= _clamp v lo hi /\ _clamp v lo hi <= hi.
Proof.
  intro H. unfold _clamp.
  pose proof (py_min_cota hi v) as [H1 _].
  pose proof (py_max_cota lo (py_min hi v)) as [H2 _].
  split; [exact H2|].
  destruct (py_max_es lo (py_min hi v)) as [E|E]; rewrite E; lra.
Qed.

Lemma py_div_ok (a b : Q) : ~ b == 0 -> py_div a b = Ok (a / b).
Proof.
  intro H. unfold py_div.
  destruct (Qeq_bool b 0) eqn:E; [|reflexivity].
  apply Qeq_bool_iff in E. contradiction.
Qed.

Lemma py_max_eps_no_nulo (x e : Q) : 0 < e -> ~ py_max x e == 0.
Proof.
  intros He H0. pose proof (py_max_cota x e) as [_ H]. lra.
Qed.

Lemma eps9_pos : 0 < eps9.
Proof. reflexivity. Qed.

Lemma eps6_pos : 0 < eps6.
Proof. reflexivity. Qed.

Lemma Nat2Z_inj_min_r_aux (k : Z) (n : nat) :
  (1 <= k <= Z.of_nat n)%Z -> Z.of_nat (Nat.min (Z.to_nat k) n) = k.
Proof. lia. Qed.

Lemma inject_Z_no_nulo (k : Z) : (1 <= k)%Z -> ~ inject_Z k == 0.
Proof.
  intros Hk H. unfold Qeq in H. simpl in H. lia.
Qed.

Lemma de_nat_S_no_nulo (n : nat) : ~ inject_Z (Z.of_nat (S n)) == 0.
Proof. apply inject_Z_no_nulo. lia. Qed.

Lemma k_efectivo_cota (k : Z) (n : nat) :
  (1 <= n)%nat ->
  (1 <= PuntosCiegos.k_efectivo k n <= Z.of_nat n)%Z.
Proof. unfold PuntosCiegos.k_efectivo. lia. Qed.

Lemma k_efectivo_pos (k : Z) (n : nat) :
  (1 <= PuntosCiegos.k_efectivo k n)%Z.
Proof. unfold PuntosCiegos.k_efectivo. lia. Qed.

Section HechosFitnessPunto.

Context {G : Geodesia}.

Import PuntosCiegos.

Lemma bbox_ok (c : Punto) (cs : list Punto) :
  exists a b c' d, _bbox (c :: cs) = Ok (a, b, c', d).
Proof. unfold _bbox. simpl. do 4 eexists. reflexivity. Qed.

Lemma centroide_ok (c : Punto) (cs : list Punto) :
  exists p, _centroide (c :: cs) = Ok p.
Proof.
  unfold _centroide.
  rewrite !py_div_ok by apply de_nat_S_no_nulo.
  simpl. eexists. reflexivity.
Qed.

Lemma dist_min_ok (lat lon : Q) (c : Punto) (cs : list Punto) :
  exists d, _dist_min_a_camaras lat lon (c :: cs) = Ok d.
Proof. unfold _dist_min_a_camaras. simpl. eexists. reflexivity. Qed.

Lemma dist_prom_ok (lat lon : Q) (camaras : list Punto) (k : Z) :
  exists d, _dist_prom_k_vecinas lat lon camaras k = Ok d.
Proof.
  unfold _dist_prom_k_vecinas.
  rewrite py_div_ok by (apply inject_Z_no_nulo, k_efectivo_pos).
  eexists. reflexivity.
Qed.

(** The value of the covered branch. *)
Definition score_cubierto (dmin radio : Q) : Q :=
  _clamp ((5 # 100) * (dmin / py_max radio eps9)) 0 (5 # 100).

Lemma fitness_punto_rama_cubierta
  (lat lon : Q) (c : Punto) (cs : list Punto)
  (radio interes extrap : Q) (k : Z) (borde dmin : Q) :
  _dist_min_a_camaras lat lon (c :: cs) = Ok dmin ->
  Qle_bool dmin radio = true ->
  fitness_punto_completo (lat, lon) (c :: cs) radio interes extrap k borde
  = Ok (score_cubierto dmin radio).
Proof.
  intros Hd Hle. unfold fitness_punto_completo.
  rewrite Hd. cbn [ligar]. rewrite Hle.
  rewrite py_div_ok by (apply py_max_eps_no_nulo, eps9_pos).
  reflexivity.
Qed.

Lemma fitness_punto_total
  (punto : Punto) (camaras : list Punto)
  (radio interes extrap : Q) (k : Z) (borde : Q) :
  exists v,
    fitness_punto_completo punto camaras radio interes extrap k borde = Ok v
    /\ 0 <= v /\ v <= 1.
Proof.
  destruct camaras as [|c cs].
  { exists 0. split; [reflexivity|]. split; lra. }
  destruct punto as [lat lon].
  destruct (dist_min_ok lat lon c cs) as [dmin Hd].
  destruct (Qle_bool dmin radio) eqn:Hle.
  - rewrite (fitness_punto_rama_cubierta _ _ _ _ _ _ _ _ _ _ Hd Hle).
    eexists. split; [reflexivity|].
    unfold score_cubierto.
    pose proof (clamp_entre ((5 # 100) * (dmin / py_max radio eps9))
                  0 (5 # 100)) as H.
    destruct H as [H1 H2]; [lra|]. split; lra.
  - unfold fitness_punto_completo.
    rewrite Hd. cbn [ligar]. rewrite Hle.
    rewrite !py_div_ok by (apply py_max_eps_no_nulo, eps9_pos).
    cbn [ligar].
    destruct (dist_prom_ok lat lon (c :: cs) k) as [dk Hk]. rewrite Hk.
    cbn [ligar].
    rewrite py_div_ok by (apply py_max_eps_no_nulo, eps9_pos).
    cbn [ligar].
    destruct (centroide_ok c cs) as [[clat clon] Hc]. rewrite Hc.
    cbn [ligar].
    destruct (bbox_ok c cs) as (a & b & c' & d & Hb).
    destruct (Qltb interes (haversine_m lat lon clat clon)).
    + rewrite py_div_ok by (apply py_max_eps_no_nulo, eps9_pos).
      cbn [ligar]. rewrite Hb. cbn [ligar].
      eexists. split; [reflexivity|]. apply clamp_entre. lra.
    + cbn [ligar]. rewrite Hb. cbn [ligar].
      eexists. split; [reflexivity|]. apply clamp_entre. lra.
Qed.

End HechosFitnessPunto.

(* ================================================================== *)
(** ** The error monad on lists                                         *)
(* ================================================================== *)

Lemma py_index_ok {X : Type} (l : list X) (i : nat) :
  (i < length l)%nat -> exists x, py_index l i = Ok x /\ In x l.
Proof.
  intro H. unfold py_index.
  destruct (nth_error l i) eqn:E.
  - exists x. split; [reflexivity|]. eapply nth_error_In; eauto.
  - apply nth_error_None in E. lia.
Qed.

Lemma py_index_In {X : Type} (l : list X) (i : nat) (x : X) :
  py_index l i = Ok x -> In x l /\ (i < length l)%nat.
Proof.
  unfold py_index. destruct (nth_error l i) eqn:E; [|discriminate].
  intro H. injection H as <-. split.
  - eapply nth_error_In; eauto.
  - apply nth_error_Some. congruence.
Qed.

Lemma mapear_ok {X Y : Type} (f : X -> resultado Y) (l : list X) :
  (forall x, In x l -> exists y, f x = Ok y) ->
  exists ys, mapear f l = Ok ys /\ Forall2 (fun x y => f x = Ok y) l ys.
Proof.
  induction l as [|x xs IH]; intro H.
  - exists []. split; [reflexivity | constructor].
  - destruct (H x (or_introl eq_refl)) as [y Hy].
    destruct IH as [ys [Hys HF]]; [intros; apply H; right; assumption|].
    exists (y :: ys). simpl. rewrite Hy. simpl. rewrite Hys. simpl.
    split; [reflexivity | constructor; assumption].
Qed.

Lemma mapear_Forall2 {X Y : Type} (f : X -> resultado Y) (l : list X)
  (ys : list Y) :
  mapear f l = Ok ys -> Forall2 (fun x y => f x = Ok y) l ys.
Proof.
  revert ys. induction l as [|x xs IH]; intros ys H; simpl in H.
  - injection H as <-. constructor.
  - destruct (f x) eqn:Ex; simpl in H; [|discriminate].
    destruct (mapear f xs) eqn:Exs; simpl in H; [|discriminate].
    injection H as <-. constructor; auto.
Qed.

Lemma Forall2_In_der {X Y : Type} (R : X -> Y -> Prop) (l : list X)
  (l' : list Y) (y : Y) :
  Forall2 R l l' -> In y l' -> exists x, In x l /\ R x y.
Proof.
  induction 1 as [|x y' l l' Hr HF IH]; intros Hin; [destruct Hin|].
  destruct Hin as [<-|Hin].
  - exists x. split; [left; reflexivity | assumption].
  - destruct (IH Hin) as [x' [H1 H2]]. exists x'. split; [right|]; assumption.
Qed.

Lemma Forall2_In_izq {X Y : Type} (R : X -> Y -> Prop) (l : list X)
  (l' : list Y) (x : X) :
  Forall2 R l l' -> In x l -> exists y, In y l' /\ R x y.
Proof.
  induction 1 as [|x' y l l' Hr HF IH]; intros Hin; [destruct Hin|].
  destruct Hin as [<-|Hin].
  - exists y. split; [left; reflexivity | assumption].
  - destruct (IH Hin) as [y' [H1 H2]]. exists y'. split; [right|]; assumption.
Qed.

Lemma Forall2_nth_error {X Y : Type} (R : X -> Y -> Prop) (l : list X)
  (l' : list Y) (i : nat) (x : X) (y : Y) :
  Forall2 R l l' -> nth_error l i = Some x -> nth_error l' i = Some y ->
  R x y.
Proof.
  intro HF. revert i. induction HF as [|x' y' l l' Hr HF IH]; intros i Hx Hy.
  - destruct i; discriminate.
  - destruct i as [|i]; simpl in *.
    + injection Hx as <-. injection Hy as <-. assumption.
    + eapply IH; eassumption.
Qed.

Lemma Forall2_largo {X Y : Type} (R : X -> Y -> Prop) (l : list X)
  (l' : list Y) : Forall2 R l l' -> length l = length l'.
Proof. induction 1; simpl; congruence. Qed.

Lemma mapear_largo {X Y : Type} (f : X -> resultado Y) (l : list X)
  (ys : list Y) : mapear f l = Ok ys -> length ys = length l.
Proof.
  intro H. symmetry. eapply Forall2_largo. eapply mapear_Forall2; eauto.
Qed.

Lemma plegar_ok {X S : Type} (f : S -> X -> resultado S) (l : list X) :
  (forall s x, In x l -> exists s', f s x = Ok s') ->
  forall s, exists s', plegar f l s = Ok s'.
Proof.
  induction l as [|x xs IH]; intros H s; simpl.
  - eexists; reflexivity.
  - destruct (H s x (or_introl eq_refl)) as [s' Hs']. rewrite Hs'. simpl.
    apply IH. intros; apply H; right; assumption.
Qed.

(* ================================================================== *)
(** ** Coverage metrics and coverage fitness                            *)
(* ================================================================== *)

Section HechosCobertura.

Context {G : Geodesia}.

Import Cobertura.

(** The dictionary [metricas_niveles_cobertura] builds. *)
Definition dict_metricas (ct sc n1 n2 n3 : Q) : Dict :=
  [("cobertura_total"%string, ct); ("sin_cobertura"%string, sc);
   ("nivel_1"%string, n1); ("nivel_2"%string, n2);
   ("nivel_3_mas"%string, n3)].

(** [(c / n) * 100.0] as a number. *)
Definition pct (c n : nat) : Q := de_nat c / de_nat n * 100.

Lemma porcentaje_ok (c n : nat) : porcentaje c (S n) = Ok (pct c (S n)).
Proof.
  unfold porcentaje, pct.
  rewrite py_div_ok by apply de_nat_S_no_nulo. reflexivity.
Qed.

Definition suma4 (t : nat * nat * nat * nat) : nat :=
  let '(a, b, c, d) := t in (a + b + c + d)%nat.

Lemma clasificar_desde (cams : list Punto) (r : Q) (pe : list Punto) :
  forall acc,
    suma4
      (fold_left
         (fun '(c0, c1, c2, c3) p =>
            let k := contar_cobertura_en_punto p cams r in
            if (k <=? 0)%nat then (S c0, c1, c2, c3)
            else if (k =? 1)%nat then (c0, S c1, c2, c3)
            else if (k =? 2)%nat then (c0, c1, S c2, c3)
            else (c0, c1, c2, S c3))
         pe acc)
    = (suma4 acc + length pe)%nat.
Proof.
  induction pe as [|p ps IH]; intro acc; simpl.
  - lia.
  - rewrite IH. destruct acc as [[[a b] c] d].
    destruct (contar_cobertura_en_punto p cams r <=? 0)%nat;
      [simpl; lia|].
    destruct (contar_cobertura_en_punto p cams r =? 1)%nat;
      [simpl; lia|].
    destruct (contar_cobertura_en_punto p cams r =? 2)%nat; simpl; lia.
Qed.

(** Every grid point falls in exactly one class. *)
Lemma clasificar_total (pe cams : list Punto) (r : Q) :
  suma4 (clasificar pe cams r) = length pe.
Proof. unfold clasificar. rewrite clasificar_desde. reflexivity. Qed.

Lemma metricas_no_vacio (p : Punto) (ps cams : list Punto) (r : Q) :
  let n := S (length ps) in
  let '(c0, c1, c2, c3) := clasificar (p :: ps) cams r in
  metricas_niveles_cobertura (p :: ps) cams r
  = Ok (dict_metricas (100 - pct c0 n) (pct c0 n)
          (pct c1 n) (pct c2 n) (pct c3 n)).
Proof.
  intro n. unfold metricas_niveles_cobertura.
  destruct (clasificar (p :: ps) cams r) as [[[c0 c1] c2] c3].
  change (length (p :: ps)) with (S (length ps)).
  rewrite !porcentaje_ok. reflexivity.
Qed.

Lemma metricas_forma (pe cams : list Punto) (r : Q) :
  exists ct sc n1 n2 n3,
    metricas_niveles_cobertura pe cams r
    = Ok (dict_metricas ct sc n1 n2 n3).
Proof.
  destruct pe as [|p ps].
  - do 5 eexists. reflexivity.
  - pose proof (metricas_no_vacio p ps cams r) as H. cbv zeta in H.
    destruct (clasificar (p :: ps) cams r) as [[[c0 c1] c2] c3].
    do 5 eexists. exact H.
Qed.

Lemma pares_cota (n i j : nat) :
  In (i, j) (pares n) -> (i < j)%nat /\ (j < n)%nat.
Proof.
  unfold pares. rewrite in_flat_map.
  intros [a [Ha Hb]]. apply in_seq in Ha.
  apply in_map_iff in Hb. destruct Hb as [b [Hb1 Hb2]].
  injection Hb1 as <- <-. apply in_seq in Hb2. lia.
Qed.

Lemma penalizar_ok (nuevas existentes : list Punto) (mn me peso : Q) :
  exists pen,
    _penalizar_camaras_muy_cercanas nuevas existentes mn me peso = Ok pen.
Proof.
  unfold _penalizar_camaras_muy_cercanas.
  match goal with
  | |- context [plegar ?f (pares ?n) 0] =>
      destruct (plegar_ok f (pares n)) with (s := 0) as [pen Hpen]
  end.
  { intros s [i j] Hin. apply pares_cota in Hin.
    destruct (py_index_ok nuevas i) as [ci [Hci _]]; [lia|].
    destruct (py_index_ok nuevas j) as [cj [Hcj _]]; [lia|].
    rewrite Hci, Hcj. cbn [ligar].
    destruct (Qltb _ mn).
    - rewrite py_div_ok by (apply py_max_eps_no_nulo, eps6_pos).
      eexists; reflexivity.
    - eexists; reflexivity. }
  rewrite Hpen. cbn [ligar].
  destruct (Qltb 0 me); [|eexists; reflexivity].
  apply plegar_ok.
  intros s [lat lon] _.
  destruct (dmin_existentes lat lon existentes) as [dmin|];
    [|eexists; reflexivity].
  destruct (Qltb dmin me); [|eexists; reflexivity].
  rewrite py_div_ok by (apply py_max_eps_no_nulo, eps6_pos).
  eexists; reflexivity.
Qed.

Lemma fitness_cobertura_total
  (pe existentes nuevas : list Punto) (radio : Q)
  (pen_sobre : bool) (peso_sobre : Q) (pen_cerca : bool) (mn me peso : Q) :
  exists v,
    fitness_cobertura pe existentes nuevas radio pen_sobre peso_sobre
      pen_cerca mn me peso = Ok v
    /\ 0 <= v /\ v <= 100.
Proof.
  unfold fitness_cobertura.
  destruct (metricas_forma pe (existentes ++ nuevas) radio)
    as (ct & sc & n1 & n2 & n3 & Hm).
  rewrite Hm. cbn [ligar].
  change (leer (dict_metricas ct sc n1 n2 n3) "cobertura_total")
    with (Ok ct).
  change (leer (dict_metricas ct sc n1 n2 n3) "nivel_3_mas")
    with (Ok n3).
  cbn [ligar].
  destruct pen_sobre; cbn [ligar];
    (destruct (pen_cerca && _) ;
     [ destruct (penalizar_ok nuevas existentes mn me peso) as [pen Hp];
       rewrite Hp; cbn [ligar]
     | cbn [ligar] ];
     eexists; (split; [reflexivity | apply clamp_entre; lra])).
Qed.

End HechosCobertura.

(* ================================================================== *)
(** ** Sorting                                                          *)
(* ================================================================== *)

Lemma insertar_asc_perm {X : Type} (key : X -> Q) (x : X) (l : list X) :
  Permutation (x :: l) (insertar_asc key x l).
Proof.
  induction l as [|y ys IH]; simpl.
  - reflexivity.
  - destruct (Qltb (key y) (key x)).
    + rewrite perm_swap. constructor. exact IH.
    + reflexivity.
Qed.

Lemma insertar_desc_perm {X : Type} (key : X -> Q) (x : X) (l : list X) :
  Permutation (x :: l) (insertar_desc key x l).
Proof.
  induction l as [|y ys IH]; simpl.
  - reflexivity.
  - destruct (Qltb (key x) (key y)).
    + rewrite perm_swap. constructor. exact IH.
    + reflexivity.
Qed.

Lemma sorted_key_perm {X : Type} (key : X -> Q) (l : list X) :
  Permutation l (sorted_key key l).
Proof.
  induction l as [|x xs IH]; simpl.
  - constructor.
  - rewrite <- insertar_asc_perm. constructor. exact IH.
Qed.

Lemma sorted_key_reverse_perm {X : Type} (key : X -> Q) (l : list X) :
  Permutation l (sorted_key_reverse key l).
Proof.
  induction l as [|x xs IH]; simpl.
  - constructor.
  - rewrite <- insertar_desc_perm. constructor. exact IH.
Qed.

Lemma sorted_largo (l : list Q) : length (sorted l) = length l.
Proof.
  symmetry. apply Permutation_length. apply sorted_key_perm.
Qed.

(* ================================================================== *)
(** ** Fitness ranges (C1), the covered branch (C5), neighbours (C9)    *)
(* ================================================================== *)

(** C1.  Whatever the candidate point, the camera set and the
    thresholds, a value that [fitness_punto_completo] returns lies in
    [0, 1]; and whatever the evaluation grid, the existing cameras, the
    candidate set, the radius and the penalty settings, a value that
    [fitness_cobertura] returns lies in [0, 100]. *)
Theorem fitness_en_rango :
  forall (G : Geodesia)
    (punto : Punto) (camaras : list Punto)
    (radio_cobertura_m max_interes_m max_extrapolacion_m : Q)
    (k_vecinos : Z) (borde_frac_penal : Q)
    (puntos_eval camaras_existentes camaras_nuevas : list Punto)
    (radio_m : Q) (penalizar_sobrecobertura : bool)
    (peso_sobrecobertura : Q) (penalizar_cercania : bool)
    (min_dist_entre_nuevas_m min_dist_a_existentes_m peso_cercania : Q),
    (forall v,
        PuntosCiegos.fitness_punto_completo punto camaras
          radio_cobertura_m max_interes_m max_extrapolacion_m
          k_vecinos borde_frac_penal = Ok v ->
        0 <= v /\ v <= 1)
    /\ (forall w,
          Cobertura.fitness_cobertura puntos_eval camaras_existentes
            camaras_nuevas radio_m penalizar_sobrecobertura
            peso_sobrecobertura penalizar_cercania
            min_dist_entre_nuevas_m min_dist_a_existentes_m peso_cercania
          = Ok w ->
          0 <= w /\ w <= 100).
Proof.
  intros G punto camaras radio interes extrap k borde pe ex nu r ps peso_s
    pc mn me peso_c.
  split.
  - intros v Ev.
    destruct (fitness_punto_total punto camaras radio interes extrap k borde)
      as (v' & Ev' & Hv).
    rewrite Ev in Ev'. injection Ev' as <-. exact Hv.
  - intros w Ew.
    destruct (fitness_cobertura_total pe ex nu r ps peso_s pc mn me peso_c)
      as (w' & Ew' & Hw).
    rewrite Ew in Ew'. injection Ew' as <-. exact Hw.
Qed.

(** An uncovered point between two cameras, and one new camera scored
    over a grid of two points with both penalties on. *)
Lemma fitness_en_rango_ejemplo :
  exists v w,
    PuntosCiegos.fitness_punto_completo (G := geodesia_plana)
      (1 # 200, 1 # 200) [(0, 0); (1 # 100, 1 # 100)] 80 350 900 4 (1 # 10)
    = Ok v
    /\ Cobertura.fitness_cobertura (G := geodesia_plana)
         [(0, 0); (1 # 100, 0)] [(0, 0)] [(1 # 100, 1 # 1000)]
         120 true (15 # 100) true 180 60 10
       = Ok w
    /\ (0 <= v /\ v <= 1) /\ (0 <= w /\ w <= 100).
Proof.
  destruct (PuntosCiegos.fitness_punto_completo (G := geodesia_plana)
              (1 # 200, 1 # 200) [(0, 0); (1 # 100, 1 # 100)] 80 350 900 4
              (1 # 10)) as [v|e] eqn:Ev; [|vm_compute in Ev; discriminate].
  destruct (Cobertura.fitness_cobertura (G := geodesia_plana)
              [(0, 0); (1 # 100, 0)] [(0, 0)] [(1 # 100, 1 # 1000)]
              120 true (15 # 100) true 180 60 10)
    as [w|e] eqn:Ew; [|vm_compute in Ew; discriminate].
  exists v, w. split; [reflexivity|]. split; [reflexivity|].
  destruct (fitness_en_rango geodesia_plana
              (1 # 200, 1 # 200) [(0, 0); (1 # 100, 1 # 100)] 80 350 900 4
              (1 # 10)
              [(0, 0); (1 # 100, 0)] [(0, 0)] [(1 # 100, 1 # 1000)]
              120 true (15 # 100) true 180 60 10) as [H1 H2].
  split; [exact (H1 v Ev) | exact (H2 w Ew)].
Defined.

Lemma score_cubierto_valor (dmin radio : Q) :
  dmin <= radio ->
  0 <= score_cubierto dmin radio
  /\ score_cubierto dmin radio <= 5 # 100
  /\ (0 <= dmin ->
      score_cubierto dmin radio
      == (5 # 100) * (dmin / py_max radio eps9))
  /\ (score_cubierto dmin radio == 0 <-> dmin <= 0).
Proof.
  intro Hle.
  pose proof (py_max_cota radio eps9) as [Hm1 Hm2].
  pose proof eps9_pos as He.
  set (m := py_max radio eps9) in *.
  assert (Hmpos : 0 < m) by lra.
  assert (Hr1 : dmin / m <= 1)
    by (apply Qle_shift_div_r; [exact Hmpos | lra]).
  assert (Hr0 : dmin <= 0 -> dmin / m <= 0)
    by (intro; apply Qle_shift_div_r; [exact Hmpos | lra]).
  assert (Hr2 : 0 < dmin -> 0 < dmin / m)
    by (intro; apply Qlt_shift_div_l; [exact Hmpos | lra]).
  assert (Hr3 : 0 <= dmin -> 0 <= dmin / m)
    by (intro; apply Qle_shift_div_l; [exact Hmpos | lra]).
  unfold score_cubierto. fold m.
  set (r := dmin / m) in *.
  unfold _clamp, py_max, py_min.
  destruct (Qltb ((5 # 100) * r) (5 # 100)) eqn:E1;
    [destruct (Qltb 0 ((5 # 100) * r)) eqn:E2
    | destruct (Qltb 0 (5 # 100)) eqn:E2 ];
    casos_Q;
    (split; [lra|]); (split; [lra|]);
    (split; [intro H0; specialize (Hr3 H0); lra|]);
    (split; intro H;
     [ destruct (Qlt_le_dec 0 dmin) as [Hp|Hn];
       [specialize (Hr2 Hp); lra | exact Hn]
     | specialize (Hr0 H); lra ]).
Qed.

(** C5 (amended).  When the nearest camera is within the coverage radius,
    [fitness_punto_completo] returns [0.05 * dmin / max(radio, 1e-9)]
    clamped to [0, 0.05]: at most 0.05, equal to the unclamped product when
    [dmin] is not negative, and exactly zero precisely when [dmin] is zero
    (or negative), that is, when the point sits on a camera. *)
Theorem rama_cubierta :
  forall (G : Geodesia) (lat lon : Q) (c : Punto) (cs : list Punto)
    (radio_cobertura_m max_interes_m max_extrapolacion_m : Q)
    (k_vecinos : Z) (borde_frac_penal dmin : Q),
    PuntosCiegos._dist_min_a_camaras lat lon (c :: cs) = Ok dmin ->
    dmin <= radio_cobertura_m ->
    exists v,
      PuntosCiegos.fitness_punto_completo (lat, lon) (c :: cs)
        radio_cobertura_m max_interes_m max_extrapolacion_m
        k_vecinos borde_frac_penal = Ok v
      /\ 0 <= v /\ v <= 5 # 100
      /\ (0 <= dmin ->
          v == (5 # 100) * (dmin / py_max radio_cobertura_m eps9))
      /\ (v == 0 <-> dmin <= 0).
Proof.
  intros G lat lon c cs radio interes extrap k borde dmin Hd Hle.
  exists (score_cubierto dmin radio). split.
  - apply fitness_punto_rama_cubierta; [exact Hd|].
    apply Qle_bool_iff. exact Hle.
  - apply score_cubierto_valor. exact Hle.
Qed.

(** A point 55.66 m away from the only camera, radius 80. *)
Lemma rama_cubierta_ejemplo :
  exists v,
    PuntosCiegos.fitness_punto_completo (G := geodesia_plana)
      (0, 5 # 10000) [(0, 0)] 80 350 900 4 (1 # 10) = Ok v
    /\ 0 <= v /\ v <= 5 # 100
    /\ (0 <= 111320 * (0 + (5 # 10000)) ->
        v == (5 # 100) * (111320 * (0 + (5 # 10000)) / py_max 80 eps9))
    /\ (v == 0 <-> 111320 * (0 + (5 # 10000)) <= 0).
Proof.
  apply (rama_cubierta geodesia_plana 0 (5 # 10000) (0, 0) [] 80 350 900 4
           (1 # 10) (111320 * (0 + (5 # 10000)))).
  - reflexivity.
  - vm_compute. discriminate.
Defined.

(** Whatever the distance function, if it vanishes at coincident points
    then a candidate placed on the only camera scores zero. *)
Lemma fitness_sobre_una_camara (G : Geodesia) (lat lon : Q)
  (radio interes extrap : Q) (k : Z) (borde : Q) :
  haversine_m lat lon lat lon == 0 -> 0 <= radio ->
  exists v,
    PuntosCiegos.fitness_punto_completo (lat, lon) [(lat, lon)]
      radio interes extrap k borde = Ok v
    /\ v == 0.
Proof.
  intros H0 Hr.
  assert (Hd : PuntosCiegos._dist_min_a_camaras lat lon [(lat, lon)]
               = Ok (haversine_m lat lon lat lon)) by reflexivity.
  assert (Hle : haversine_m lat lon lat lon <= radio) by lra.
  exists (score_cubierto (haversine_m lat lon lat lon) radio). split.
  - apply fitness_punto_rama_cubierta; [exact Hd|].
    apply Qle_bool_iff. exact Hle.
  - apply score_cubierto_valor; lra.
Qed.

(** C5, as stated, fails: a candidate on top of a camera has [dmin = 0],
    which is within the radius, and its score is exactly zero.  (The
    haversine distance of a point to itself is 0, as is the stand-in's.) *)
Lemma rama_cubierta_cero :
  PuntosCiegos._dist_min_a_camaras (G := geodesia_plana) 0 0 [(0, 0)] = Ok 0
  /\ Qle_bool 0 80 = true
  /\ PuntosCiegos.fitness_punto_completo (G := geodesia_plana)
       (0, 0) [(0, 0)] 80 350 900 4 (1 # 10) = Ok 0.
Proof. repeat split. Qed.

(** C9.  With at least one camera and any integer [k], the neighbour count
    used by [_dist_prom_k_vecinas] lies between 1 and the number of
    cameras, that many sorted distances are averaged, the average is
    returned without raising, and so is [fitness_punto_completo]. *)
Theorem k_vecinos_acotado :
  forall (G : Geodesia) (lat lon : Q) (c : Punto) (cs : list Punto) (k : Z)
    (radio_cobertura_m max_interes_m max_extrapolacion_m : Q)
    (borde_frac_penal : Q),
    let camaras := c :: cs in
    let ke := PuntosCiegos.k_efectivo k (length camaras) in
    let cercanas :=
      firstn (Z.to_nat ke) (sorted (PuntosCiegos.distancias lat lon camaras)) in
    (1 <= ke <= Z.of_nat (length camaras))%Z
    /\ Z.of_nat (length cercanas) = ke
    /\ PuntosCiegos._dist_prom_k_vecinas lat lon camaras k
       = Ok (sum cercanas / inject_Z ke)
    /\ exists v,
        PuntosCiegos.fitness_punto_completo (lat, lon) camaras
          radio_cobertura_m max_interes_m max_extrapolacion_m
          k borde_frac_penal = Ok v.
Proof.
  intros G lat lon c cs k radio interes extrap borde camaras ke cercanas.
  assert (Hke : (1 <= ke <= Z.of_nat (length camaras))%Z)
    by (apply k_efectivo_cota; simpl; lia).
  split; [exact Hke|]. split; [|split].
  - unfold cercanas. rewrite length_firstn, sorted_largo.
    unfold PuntosCiegos.distancias. rewrite length_map.
    apply Nat2Z_inj_min_r_aux. exact Hke.
  - unfold PuntosCiegos._dist_prom_k_vecinas. cbv zeta.
    rewrite py_div_ok by (apply inject_Z_no_nulo, k_efectivo_pos).
    rewrite sorted_largo. unfold PuntosCiegos.distancias at 1 3.
    rewrite length_map. reflexivity.
  - destruct (fitness_punto_total (lat, lon) camaras radio interes extrap
                k borde) as [v [Hv _]].
    exists v. exact Hv.
Qed.

(* ================================================================== *)
(** ** Coverage levels (C8), empty inputs (C4, C10)                     *)
(* ================================================================== *)

Lemma de_nat_suma (a b : nat) :
  Cobertura.de_nat (a + b) == Cobertura.de_nat a + Cobertura.de_nat b.
Proof.
  unfold Cobertura.de_nat. rewrite Nat2Z.inj_add, inject_Z_plus.
  reflexivity.
Qed.

Lemma pct_suma (c0 c1 c2 c3 n : nat) :
  (c0 + c1 + c2 + c3 = S n)%nat ->
  pct c0 (S n) + pct c1 (S n) + pct c2 (S n) + pct c3 (S n) == 100.
Proof.
  intro H. unfold pct.
  assert (Hn : ~ Cobertura.de_nat (S n) == 0) by apply de_nat_S_no_nulo.
  assert (Hs : Cobertura.de_nat c0 + Cobertura.de_nat c1
               + Cobertura.de_nat c2 + Cobertura.de_nat c3
               == Cobertura.de_nat (S n))
    by (rewrite <- H, !de_nat_suma; reflexivity).
  set (d := Cobertura.de_nat (S n)) in *.
  setoid_replace
    (Cobertura.de_nat c0 / d * 100 + Cobertura.de_nat c1 / d * 100
     + Cobertura.de_nat c2 / d * 100 + Cobertura.de_nat c3 / d * 100)
    with ((Cobertura.de_nat c0 + Cobertura.de_nat c1
           + Cobertura.de_nat c2 + Cobertura.de_nat c3) / d * 100)
    by (field; exact Hn).
  rewrite Hs. field. exact Hn.
Qed.

(** C8.  Over a non-empty grid the four level percentages of
    [metricas_niveles_cobertura] add up to 100 and [cobertura_total] is 100
    minus [sin_cobertura]; over an empty grid every entry is 0 except
    [sin_cobertura], which is 100.  (Exact arithmetic: the sum is exactly
    100.) *)
Theorem niveles_suman_cien :
  forall (G : Geodesia) (p : Punto) (ps camaras_totales : list Punto)
    (radio_m : Q),
    (exists d ct sc n1 n2 n3,
        Cobertura.metricas_niveles_cobertura (p :: ps) camaras_totales radio_m
        = Ok d
        /\ Cobertura.dict_get d "cobertura_total" = Some ct
        /\ Cobertura.dict_get d "sin_cobertura" = Some sc
        /\ Cobertura.dict_get d "nivel_1" = Some n1
        /\ Cobertura.dict_get d "nivel_2" = Some n2
        /\ Cobertura.dict_get d "nivel_3_mas" = Some n3
        /\ sc + n1 + n2 + n3 == 100
        /\ ct == 100 - sc)
    /\ Cobertura.metricas_niveles_cobertura [] camaras_totales radio_m
       = Ok [("cobertura_total"%string, 0); ("sin_cobertura"%string, 100);
             ("nivel_1"%string, 0); ("nivel_2"%string, 0);
             ("nivel_3_mas"%string, 0)].
Proof.
  intros G p ps cams r. split; [|reflexivity].
  pose proof (metricas_no_vacio p ps cams r) as H. cbv zeta in H.
  pose proof (clasificar_total (p :: ps) cams r) as Hs.
  destruct (Cobertura.clasificar (p :: ps) cams r) as [[[c0 c1] c2] c3].
  simpl in Hs.
  eexists. exists (100 - pct c0 (S (length ps))), (pct c0 (S (length ps))),
    (pct c1 (S (length ps))), (pct c2 (S (length ps))),
    (pct c3 (S (length ps))).
  split; [exact H|].
  repeat (split; [reflexivity|]).
  split; [apply pct_suma; exact Hs | reflexivity].
Qed.

(** C10.  [generar_grid_puntos] on an empty camera sequence returns the
    empty list for any step, margin factor and [max_points]; it raises
    nothing, enters no loop and draws no random number. *)
Theorem grid_sin_camaras :
  forall (G : Geodesia) (A : Azar) (gas : nat)
    (step_m margin_factor : Q) (max_points : Z) (g : Rng),
    Cobertura.generar_grid_puntos gas [] step_m margin_factor max_points g
    = Ok ([], g).
Proof. reflexivity. Qed.

(** C4.  With no existing camera both searches return at once, without
    raising, without running a generation and without drawing a random
    number: the blind-spot search returns the empty list, the coverage
    search an empty camera list, fitness 0 and empty metrics. *)
Theorem sin_camaras_resultado_vacio :
  forall (G : Geodesia) (A : Azar) (gas : nat)
    (cfg_pc : PuntosCiegos.Config) (cfg_cob : Cobertura.Config) (g : Rng),
    PuntosCiegos.algoritmo_genetico_puntos_ciegos [] cfg_pc g = Ok ([], g)
    /\ Cobertura.algoritmo_genetico_mejorar_cobertura gas [] cfg_cob g
       = Ok ({| Cobertura.camaras_nuevas := [];
                Cobertura.fitness := 0;
                Cobertura.metricas := [] |}, g).
Proof. intros. split; reflexivity. Qed.

(* ================================================================== *)
(** ** The diversity selector (C7)                                      *)
(* ================================================================== *)

(** No two candidates of the list are equal as tuples ([==]). *)
Fixpoint sin_repetidos (l : list PuntosCiegos.Candidato) : bool :=
  match l with
  | [] => true
  | c :: resto => negb (PuntosCiegos.pertenece c resto) && sin_repetidos resto
  end.

(** Canonical representatives: two candidates are [==] exactly when their
    reduced forms coincide. *)
Definition reducido (c : PuntosCiegos.Candidato) : PuntosCiegos.Candidato :=
  let '(a, b, f) := c in (Qred a, Qred b, Qred f).

Lemma Qeq_bool_Qred (a b : Q) : Qeq_bool a b = true <-> Qred a = Qred b.
Proof.
  rewrite Qeq_bool_iff. split.
  - apply Qred_complete.
  - intro H. rewrite <- (Qred_correct a), <- (Qred_correct b), H.
    reflexivity.
Qed.

Lemma candidato_eqb_reducido (c d : PuntosCiegos.Candidato) :
  PuntosCiegos.candidato_eqb c d = true <-> reducido c = reducido d.
Proof.
  destruct c as [[a1 b1] f1], d as [[a2 b2] f2]. simpl.
  rewrite !andb_true_iff, !Qeq_bool_Qred. split.
  - intros [[-> ->] ->]. reflexivity.
  - intro H. injection H as -> -> ->. auto.
Qed.

Lemma pertenece_reducido (c : PuntosCiegos.Candidato)
  (l : list PuntosCiegos.Candidato) :
  PuntosCiegos.pertenece c l = true <-> In (reducido c) (map reducido l).
Proof.
  unfold PuntosCiegos.pertenece. rewrite existsb_exists, in_map_iff.
  split; intros [d [H1 H2]].
  - exists d. split; [symmetry; apply candidato_eqb_reducido|]; assumption.
  - exists d. split; [assumption|].
    apply candidato_eqb_reducido. symmetry. assumption.
Qed.

Lemma sin_repetidos_NoDup (l : list PuntosCiegos.Candidato) :
  sin_repetidos l = true <-> NoDup (map reducido l).
Proof.
  induction l as [|c r IH]; simpl.
  - split; [constructor | reflexivity].
  - rewrite andb_true_iff, negb_true_iff, IH. split.
    + intros [H1 H2]. constructor; [|assumption].
      intro Hin. apply pertenece_reducido in Hin. congruence.
    + intro H. inversion H as [|? ? Hn Hd]; subst. split; [|assumption].
      destruct (PuntosCiegos.pertenece c r) eqn:E; [|reflexivity].
      apply pertenece_reducido in E. contradiction.
Qed.

Lemma NoDup_reducido_snoc (l : list PuntosCiegos.Candidato)
  (c : PuntosCiegos.Candidato) :
  NoDup (map reducido l) -> ~ In (reducido c) (map reducido l) ->
  NoDup (map reducido (l ++ [c])).
Proof.
  intros Hd Hn. rewrite map_app. simpl.
  apply NoDup_rev in Hd. rewrite <- (rev_involutive (_ ++ _)).
  apply NoDup_rev. rewrite rev_app_distr. simpl.
  constructor; [|assumption].
  rewrite <- in_rev. assumption.
Qed.

Lemma largo_incluido (l l' : list PuntosCiegos.Candidato) :
  NoDup (map reducido l) -> incl l l' -> (length l <= length l')%nat.
Proof.
  intros Hd Hi.
  rewrite <- (length_map reducido l), <- (length_map reducido l').
  apply NoDup_incl_length; [assumption|].
  intros x Hx. apply in_map_iff in Hx. destruct Hx as [c [<- Hc]].
  apply in_map. apply Hi. assumption.
Qed.

Section HechosEspaciados.

Context {G : Geodesia}.

Import PuntosCiegos.

Lemma pasada_separada_inv (min_sep : Q) (cap : Z) :
  forall post pre acc,
    NoDup (map reducido (pre ++ post)) ->
    incl acc pre ->
    NoDup (map reducido acc) ->
    (Z.of_nat (length acc) <= cap)%Z ->
    let sel := pasada_separada min_sep cap post acc in
    incl sel (pre ++ post)
    /\ NoDup (map reducido sel)
    /\ (Z.of_nat (length sel) <= cap)%Z.
Proof.
  induction post as [|c rest IH]; intros pre acc Hd Hi Ha Hl; simpl.
  - rewrite app_nil_r. auto.
  - destruct (cap <=? Z.of_nat (length acc))%Z eqn:E.
    + split; [|auto]. apply incl_appl. assumption.
    + apply Z.leb_gt in E.
      assert (Hpre : pre ++ c :: rest = (pre ++ [c]) ++ rest)
        by (rewrite <- app_assoc; reflexivity).
      destruct (separado min_sep c acc).
      * rewrite Hpre. rewrite Hpre in Hd. apply IH.
        -- assumption.
        -- apply incl_app; [apply incl_appl; assumption|].
           apply incl_appr, incl_refl.
        -- apply NoDup_reducido_snoc; [assumption|].
           intro Hin. rewrite <- app_assoc in Hd. simpl in Hd.
           rewrite map_app in Hd. simpl in Hd.
           apply NoDup_remove_2 in Hd. apply Hd.
           apply in_or_app. left.
           apply in_map_iff in Hin. destruct Hin as [d [Hd1 Hd2]].
           rewrite <- Hd1. apply in_map, Hi. assumption.
        -- rewrite length_app. simpl. lia.
      * rewrite Hpre. rewrite Hpre in Hd. apply IH; try assumption.
        apply incl_appl. assumption.
Qed.

Lemma rellenar_largo (cap : Z) :
  forall post pre sel,
    NoDup (map reducido (pre ++ post)) ->
    incl sel (pre ++ post) ->
    (forall c, In c pre -> In (reducido c) (map reducido sel)) ->
    NoDup (map reducido sel) ->
    (Z.of_nat (length sel) <= cap)%Z ->
    Z.of_nat (length (rellenar cap post sel))
    = Z.min cap (Z.of_nat (length (pre ++ post))).
Proof.
  induction post as [|c rest IH]; intros pre sel Hd Hi Hp Hs Hl; simpl.
  - pose proof (largo_incluido _ _ Hs Hi) as H1.
    assert (H2 : (length (pre ++ []) <= length sel)%nat).
    { rewrite <- (length_map reducido (pre ++ [])),
        <- (length_map reducido sel).
      apply NoDup_incl_length; [assumption|].
      intros x Hx. apply in_map_iff in Hx. destruct Hx as [d [<- Hd']].
      apply Hp. rewrite app_nil_r in Hd'. assumption. }
    lia.
  - pose proof (largo_incluido _ _ Hs Hi) as H1.
    destruct (cap <=? Z.of_nat (length sel))%Z eqn:E.
    + apply Z.leb_le in E. lia.
    + apply Z.leb_gt in E.
      assert (Hpre : pre ++ c :: rest = (pre ++ [c]) ++ rest)
        by (rewrite <- app_assoc; reflexivity).
      destruct (pertenece c sel) eqn:Ec.
      * rewrite Hpre. rewrite Hpre in Hd, Hi. apply IH; try assumption.
        intros d Hin. apply in_app_or in Hin. destruct Hin as [Hin|Hin].
        -- apply Hp. assumption.
        -- destruct Hin as [<-|[]]. apply pertenece_reducido. assumption.
      * rewrite Hpre. rewrite Hpre in Hd, Hi.
        assert (Hn : ~ In (reducido c) (map reducido sel)).
        { intro Hin. apply pertenece_reducido in Hin. congruence. }
        apply IH.
        -- assumption.
        -- apply incl_app; [assumption|].
           apply incl_appl, incl_appr, incl_refl.
        -- intros d Hin. rewrite map_app. apply in_or_app.
           apply in_app_or in Hin. destruct Hin as [Hin|Hin].
           ++ left. apply Hp. assumption.
           ++ right. destruct Hin as [<-|[]]. left. reflexivity.
        -- apply NoDup_reducido_snoc; assumption.
        -- rewrite length_app. simpl. lia.
Qed.

Lemma espaciados_largo (candidatos : list Candidato) (min_sep_m : Q)
  (max_puntos : Z) :
  sin_repetidos candidatos = true ->
  (0 <= max_puntos)%Z ->
  Z.of_nat (length (seleccionar_espaciados candidatos min_sep_m max_puntos))
  = Z.min max_puntos (Z.of_nat (length candidatos)).
Proof.
  intros Hsr Hcap.
  apply sin_repetidos_NoDup in Hsr.
  destruct (pasada_separada_inv min_sep_m max_puntos candidatos [] [])
    as (Hi & Hs & Hl); simpl; try assumption.
  { intros x []. }
  { constructor. }
  unfold seleccionar_espaciados.
  destruct (Z.of_nat
              (length (pasada_separada min_sep_m max_puntos candidatos []))
            <? max_puntos)%Z eqn:E.
  - apply (rellenar_largo max_puntos candidatos []); simpl; try assumption.
    intros c [].
  - apply Z.ltb_ge in E.
    pose proof (largo_incluido _ _ Hs Hi) as H1. simpl in H1. lia.
Qed.

Lemma candidato_eqb_sim (c d : Candidato) :
  candidato_eqb c d = candidato_eqb d c.
Proof.
  destruct (candidato_eqb c d) eqn:E1, (candidato_eqb d c) eqn:E2;
    try reflexivity.
  - apply candidato_eqb_reducido in E1. symmetry in E1.
    apply candidato_eqb_reducido in E1. congruence.
  - apply candidato_eqb_reducido in E2. symmetry in E2.
    apply candidato_eqb_reducido in E2. congruence.
Qed.

Lemma pertenece_In (c : Candidato) (l : list Candidato) :
  In c l -> pertenece c l = true.
Proof.
  intro H. apply pertenece_reducido. apply in_map. assumption.
Qed.

Lemma pertenece_app (c : Candidato) (l l' : list Candidato) :
  pertenece c (l ++ l') = pertenece c l || pertenece c l'.
Proof. unfold pertenece. apply existsb_app. Qed.

(** The candidates the backfill loop may take: those equal to no member of
    the greedy selection, in list order. *)
Definition restantes (candidatos seleccionados : list Candidato)
  : list Candidato :=
  filter (fun c => negb (pertenece c seleccionados)) candidatos.

(** The backfill loop on distinct candidates: it appends the first
    remaining ones, as many as the cap leaves room for. *)
Lemma rellenar_es (cap : Z) :
  forall cands sel,
    sin_repetidos cands = true ->
    rellenar cap cands sel
    = sel ++ firstn (Z.to_nat (cap - Z.of_nat (length sel)))
               (restantes cands sel).
Proof.
  unfold restantes.
  induction cands as [|c rest IH]; intros sel Hs; simpl.
  - rewrite firstn_nil, app_nil_r. reflexivity.
  - simpl in Hs. apply andb_true_iff in Hs. destruct Hs as [Hc Hs].
    apply negb_true_iff in Hc.
    destruct (cap <=? Z.of_nat (length sel))%Z eqn:E.
    + apply Z.leb_le in E.
      replace (Z.to_nat (cap - Z.of_nat (length sel))) with O by lia.
      rewrite app_nil_r. reflexivity.
    + apply Z.leb_gt in E. destruct (pertenece c sel) eqn:Ec; simpl.
      * apply IH. assumption.
      * rewrite (IH (sel ++ [c]) Hs), <- app_assoc. f_equal.
        replace (Z.to_nat (cap - Z.of_nat (length sel)))
          with (S (Z.to_nat (cap - Z.of_nat (length (sel ++ [c])))))
          by (rewrite length_app; simpl; lia).
        simpl. f_equal. f_equal.
        apply filter_ext_in. intros x Hx. f_equal.
        rewrite pertenece_app. unfold pertenece at 2. simpl.
        replace (candidato_eqb x c) with false; [apply orb_false_r|].
        symmetry. rewrite candidato_eqb_sim.
        unfold pertenece in Hc.
        destruct (candidato_eqb c x) eqn:Ex; [|reflexivity].
        assert (existsb (candidato_eqb c) rest = true)
          by (apply existsb_exists; exists x; auto).
        congruence.
Qed.

(** The candidates are in descending order of fitness, as the search
    passes them. *)
Fixpoint ordenado_desc (l : list Candidato) : bool :=
  match l with
  | [] => true
  | c :: resto =>
      forallb (fun d : Candidato => Qle_bool (snd d) (snd c)) resto
      && ordenado_desc resto
  end.

Lemma ordenado_desc_partes (l1 l2 : list Candidato) :
  ordenado_desc (l1 ++ l2) = true ->
  forall c d, In c l1 -> In d l2 -> snd d <= snd c.
Proof.
  induction l1 as [|a l1 IH]; intros H c d Hc Hd; [destruct Hc|].
  simpl in H. apply andb_true_iff in H. destruct H as [H1 H2].
  destruct Hc as [<-|Hc]; [|apply IH; assumption].
  rewrite forallb_forall in H1. apply Qle_bool_iff, H1.
  apply in_or_app. right. assumption.
Qed.

Lemma ordenado_desc_filter (p : Candidato -> bool) (l : list Candidato) :
  ordenado_desc l = true -> ordenado_desc (filter p l) = true.
Proof.
  induction l as [|a l IH]; intro H; [reflexivity|].
  simpl in H. apply andb_true_iff in H. destruct H as [H1 H2].
  simpl. destruct (p a); [|apply IH; assumption].
  simpl. apply andb_true_iff. split; [|apply IH; assumption].
  rewrite forallb_forall in *. intros x Hx. apply H1.
  apply filter_In in Hx. tauto.
Qed.

(** C7 (amended).  When no two candidates are equal as tuples and the cap
    is not negative, [seleccionar_espaciados] returns the selection of the
    greedy separated pass followed by the first remaining candidates (those
    equal to no greedy one, in list order) that the cap leaves room for;
    that makes exactly [min(cap, total)] results; no backfilled candidate
    equals a greedy one; and when the list is in descending order of
    fitness no candidate left out has a higher fitness than a backfilled
    one. *)
Theorem espaciados_sin_repetidos :
  forall (candidatos : list Candidato) (min_sep_m : Q) (max_puntos : Z),
    sin_repetidos candidatos = true ->
    (0 <= max_puntos)%Z ->
    let voraz := pasada_separada min_sep_m max_puntos candidatos [] in
    let relleno :=
      firstn (Z.to_nat (max_puntos - Z.of_nat (length voraz)))
        (restantes candidatos voraz) in
    seleccionar_espaciados candidatos min_sep_m max_puntos = voraz ++ relleno
    /\ Z.of_nat (length (voraz ++ relleno))
       = Z.min max_puntos (Z.of_nat (length candidatos))
    /\ (forall c, In c relleno -> pertenece c voraz = false)
    /\ (ordenado_desc candidatos = true ->
        forall c d,
          In c relleno -> In d candidatos ->
          pertenece d (voraz ++ relleno) = false ->
          snd d <= snd c).
Proof.
  intros cands min_sep cap Hsr Hcap voraz relleno.
  assert (E : seleccionar_espaciados cands min_sep cap = voraz ++ relleno).
  { unfold seleccionar_espaciados. fold voraz.
    destruct (Z.of_nat (length voraz) <? cap)%Z eqn:El.
    - apply rellenar_es. assumption.
    - apply Z.ltb_ge in El. unfold relleno.
      replace (Z.to_nat (cap - Z.of_nat (length voraz))) with O by lia.
      rewrite app_nil_r. reflexivity. }
  split; [exact E|]. split.
  { rewrite <- E. apply espaciados_largo; assumption. }
  split.
  - intros c Hc.
    assert (Hc' : In c (restantes cands voraz)).
    { rewrite <- (firstn_skipn
                    (Z.to_nat (cap - Z.of_nat (length voraz)))
                    (restantes cands voraz)).
      apply in_or_app. left. exact Hc. }
    apply filter_In in Hc'. destruct Hc' as [_ Hc'].
    apply negb_true_iff in Hc'. exact Hc'.
  - intros Hord c d Hc Hd Hno.
    rewrite pertenece_app in Hno. apply orb_false_iff in Hno.
    destruct Hno as [Hv Hr].
    set (k := Z.to_nat (cap - Z.of_nat (length voraz))) in *.
    assert (Hd' : In d (restantes cands voraz)).
    { apply filter_In. split; [assumption|]. rewrite Hv. reflexivity. }
    rewrite <- (firstn_skipn k (restantes cands voraz)) in Hd'.
    apply in_app_or in Hd'. destruct Hd' as [Hd'|Hd'].
    + apply pertenece_In in Hd'. fold relleno in Hd'. congruence.
    + apply (ordenado_desc_partes (firstn k (restantes cands voraz))
               (skipn k (restantes cands voraz))); try assumption.
      rewrite firstn_skipn. apply ordenado_desc_filter. assumption.
Qed.

End HechosEspaciados.

(** Three distinct candidates in descending order of fitness, the last two
    closer to the first than the separation, and two results asked for:
    the greedy pass keeps the first, the backfill adds the second and the
    third is left out. *)
Lemma espaciados_sin_repetidos_ejemplo :
  let candidatos :=
    [(0, 0, 7 # 10); (1 # 1000, 0, 6 # 10); (0, 1 # 1000, 5 # 10)] in
  let voraz :=
    PuntosCiegos.pasada_separada (G := geodesia_plana) 180 2 candidatos [] in
  let relleno :=
    firstn (Z.to_nat (2 - Z.of_nat (length voraz)))
      (restantes candidatos voraz) in
  PuntosCiegos.seleccionar_espaciados (G := geodesia_plana) candidatos 180 2
  = voraz ++ relleno
  /\ Z.of_nat (length (voraz ++ relleno))
     = Z.min 2 (Z.of_nat (length candidatos))
  /\ (forall c, In c relleno -> PuntosCiegos.pertenece c voraz = false)
  /\ (ordenado_desc candidatos = true ->
      forall c d,
        In c relleno -> In d candidatos ->
        PuntosCiegos.pertenece d (voraz ++ relleno) = false ->
        snd d <= snd c).
Proof.
  apply (espaciados_sin_repetidos (G := geodesia_plana)
           [(0, 0, 7 # 10); (1 # 1000, 0, 6 # 10); (0, 1 # 1000, 5 # 10)]
           180 2).
  - reflexivity.
  - lia.
Defined.

(** In that run the greedy part is the first candidate alone, the backfill
    the second, and the list is in descending order. *)
Example espaciados_sin_repetidos_corrida :
  PuntosCiegos.seleccionar_espaciados (G := geodesia_plana)
    [(0, 0, 7 # 10); (1 # 1000, 0, 6 # 10); (0, 1 # 1000, 5 # 10)] 180 2
  = [(0, 0, 7 # 10); (1 # 1000, 0, 6 # 10)]
  /\ PuntosCiegos.pasada_separada (G := geodesia_plana) 180 2
       [(0, 0, 7 # 10); (1 # 1000, 0, 6 # 10); (0, 1 # 1000, 5 # 10)] []
     = [(0, 0, 7 # 10)]
  /\ ordenado_desc
       [(0, 0, 7 # 10); (1 # 1000, 0, 6 # 10); (0, 1 # 1000, 5 # 10)]
     = true.
Proof. repeat split. Qed.

(** Whatever the distance function, if a point is closer to itself than
    the separation then of two equal candidates only one is returned. *)
Lemma espaciados_duplicado (G : Geodesia) (lat lon fit min_sep_m : Q) :
  haversine_m lat lon lat lon < min_sep_m ->
  PuntosCiegos.seleccionar_espaciados
    [(lat, lon, fit); (lat, lon, fit)] min_sep_m 2
  = [(lat, lon, fit)].
Proof.
  intro H. apply Qltb_lt in H.
  unfold PuntosCiegos.seleccionar_espaciados.
  cbn [PuntosCiegos.pasada_separada length Z.of_nat Z.leb Z.compare
       Pos.compare Pos.compare_cont app PuntosCiegos.separado forallb].
  rewrite H.
  cbn [negb andb PuntosCiegos.pasada_separada length Z.of_nat Z.ltb
       Z.compare Pos.compare Pos.compare_cont Pos.of_succ_nat].
  cbn [PuntosCiegos.rellenar length Z.of_nat Z.leb Z.compare Pos.compare
       Pos.compare_cont Pos.of_succ_nat PuntosCiegos.pertenece existsb
       PuntosCiegos.candidato_eqb].
  assert (E : forall q, Qeq_bool q q = true)
    by (intro q; apply Qeq_bool_iff; reflexivity).
  rewrite !E. reflexivity.
Qed.

(** C7, as stated, fails: of two equal candidates the backfill skips the
    second, so one result comes back where [min(cap, total)] is two.  (The
    haversine distance of a point to itself is 0, as is the stand-in's.) *)
Lemma espaciados_con_repetidos :
  Z.of_nat
    (length
       (PuntosCiegos.seleccionar_espaciados (G := geodesia_plana)
          [(0, 0, 7 # 10); (0, 0, 7 # 10)] 180 2)) = 1%Z
  /\ Z.min 2 (Z.of_nat (length [(0, 0, 7 # 10); (0, 0, 7 # 10)])) = 2%Z.
Proof. split; reflexivity. Qed.

(* ================================================================== *)
(** ** Reasoning about random computations                              *)
(* ================================================================== *)

Lemma largo_reemplazar {X : Type} (l : list X) (i : nat) (v : X) :
  length (reemplazar l i v) = length l.
Proof.
  revert i. induction l as [|x xs IH]; intros [|i]; simpl; auto.
Qed.

Lemma In_reemplazar {X : Type} (l : list X) (i : nat) (v y : X) :
  In y (reemplazar l i v) -> In y l \/ y = v.
Proof.
  revert i. induction l as [|x xs IH]; intros [|i]; simpl; auto.
  - intros [H|H]; auto.
  - intros [H|H]; auto. destruct (IH _ H); auto.
Qed.

Lemma largo_removelast {X : Type} (l : list X) :
  length (removelast l) = pred (length l).
Proof.
  induction l as [|x xs IH]; [reflexivity|].
  destruct xs as [|y ys]; [reflexivity|].
  change (removelast (x :: y :: ys)) with (x :: removelast (y :: ys)).
  change (length (x :: removelast (y :: ys)))
    with (S (length (removelast (y :: ys)))).
  rewrite IH. reflexivity.
Qed.

Lemma In_removelast {X : Type} (l : list X) (y : X) :
  In y (removelast l) -> In y l.
Proof.
  induction l as [|x xs IH]; [auto|].
  destruct xs as [|z zs]; [intros []|].
  change (removelast (x :: z :: zs)) with (x :: removelast (z :: zs)).
  intros [H|H]; [left; assumption | right; apply IH; assumption].
Qed.

Lemma In_firstn {X : Type} (n : nat) (l : list X) (x : X) :
  In x (firstn n l) -> In x l.
Proof.
  revert l. induction n as [|n IH]; intros [|y ys]; simpl; auto.
  - intros [].
  - intros [H|H]; auto.
Qed.

Lemma In_last {X : Type} (l : list X) (d : X) :
  l <> [] -> In (last l d) l.
Proof.
  induction l as [|x xs IH]; [congruence|]. intros _.
  destruct xs as [|y ys]; [left; reflexivity|].
  right. apply IH. discriminate.
Qed.

Section HechosAzar.

Context {A : Azar}.

(** [devuelve m P]: from every generator state [m] returns, without
    raising, a value that satisfies [P]. *)
Definition devuelve {X : Type} (m : Aleatorio X) (P : X -> Prop) : Prop :=
  forall g, exists x g', m g = Ok (x, g') /\ P x.

Lemma devuelve_ret {X : Type} (x : X) (P : X -> Prop) :
  P x -> devuelve (ret x) P.
Proof. intros H g. exists x, g. split; [reflexivity | assumption]. Qed.

Lemma devuelve_ligar {X Y : Type} (m : Aleatorio X) (f : X -> Aleatorio Y)
  (P : X -> Prop) (Q : Y -> Prop) :
  devuelve m P -> (forall x, P x -> devuelve (f x) Q) ->
  devuelve (ligarA m f) Q.
Proof.
  intros Hm Hf g. destruct (Hm g) as (x & g1 & E & Hx).
  destruct (Hf x Hx g1) as (y & g2 & E2 & Hy).
  exists y, g2. unfold ligarA. rewrite E. split; assumption.
Qed.

Lemma devuelve_elevar {X : Type} (r : resultado X) (x : X) (P : X -> Prop) :
  r = Ok x -> P x -> devuelve (elevar r) P.
Proof.
  intros -> H g. exists x, g. split; [reflexivity | assumption].
Qed.

Lemma devuelve_implica {X : Type} (m : Aleatorio X) (P Q : X -> Prop) :
  devuelve m P -> (forall x, P x -> Q x) -> devuelve m Q.
Proof.
  intros Hm H g. destruct (Hm g) as (x & g' & E & Hx).
  exists x, g'. auto.
Qed.

Lemma devuelve_random : devuelve random_random (fun _ => True).
Proof.
  intro g. unfold random_random.
  destruct (rnd_random g) as [u g'] eqn:E. exists u, g'. auto.
Qed.

Lemma devuelve_gauss (mu sigma : Q) :
  devuelve (random_gauss mu sigma) (fun _ => True).
Proof.
  intro g. unfold random_gauss.
  destruct (rnd_gauss mu sigma g) as [u g'] eqn:E. exists u, g'. auto.
Qed.

Lemma devuelve_randbelow (n : nat) :
  (0 < n)%nat -> devuelve (randbelow n) (fun j => (j < n)%nat).
Proof.
  intros Hn g. unfold randbelow.
  pose proof (rnd_below_lt n g Hn) as H.
  destruct (rnd_below n g) as [j g'] eqn:E. exists j, g'. auto.
Qed.

Lemma devuelve_uniform (a b : Q) :
  devuelve (random_uniform a b) (fun _ => True).
Proof.
  unfold random_uniform.
  eapply devuelve_ligar; [apply devuelve_random|].
  intros u _. apply devuelve_ret. exact I.
Qed.

Lemma devuelve_choice {X : Type} (l : list X) :
  l <> [] -> devuelve (random_choice l) (fun x => In x l).
Proof.
  intro Hl. destruct l as [|x xs]; [congruence|].
  unfold random_choice.
  eapply devuelve_ligar; [apply devuelve_randbelow; simpl; lia|].
  intros j Hj. destruct (py_index_ok (x :: xs) j Hj) as [y [Hy Hin]].
  apply devuelve_elevar with (x := y); assumption.
Qed.

Lemma devuelve_sample_pool {X : Type} (k : nat) :
  forall pool : list X,
    (k <= length pool)%nat ->
    devuelve (sample_pool k pool)
      (fun xs => length xs = k /\ incl xs pool).
Proof.
  induction k as [|k IH]; intros pool Hk; simpl.
  - apply devuelve_ret. split; [reflexivity | intros x []].
  - assert (Hne : pool <> []) by (destruct pool; simpl in *; [lia|congruence]).
    eapply devuelve_ligar; [apply devuelve_randbelow; lia|].
    intros j Hj. destruct (py_index_ok pool j Hj) as [x [Hx Hin]].
    apply devuelve_ligar with (P := fun y => y = x);
      [eapply devuelve_elevar; [exact Hx|reflexivity]|].
    intros x' ->.
    eapply devuelve_ligar.
    + apply IH. rewrite largo_removelast, largo_reemplazar. lia.
    + intros xs [Hl Hi]. apply devuelve_ret. split; [simpl; lia|].
      intros y [<-|Hy]; [assumption|].
      apply Hi in Hy. apply In_removelast in Hy.
      apply In_reemplazar in Hy. destruct Hy as [Hy| ->]; [assumption|].
      apply In_last. assumption.
Qed.

Lemma devuelve_sample {X : Type} (l : list X) (k : Z) :
  (0 <= k <= Z.of_nat (length l))%Z ->
  devuelve (random_sample l k)
    (fun xs => length xs = Z.to_nat k /\ incl xs l).
Proof.
  intro Hk. unfold random_sample.
  replace ((0 <=? k)%Z && (k <=? Z.of_nat (length l))%Z) with true
    by (symmetry; apply andb_true_iff; split; apply Z.leb_le; lia).
  apply devuelve_sample_pool. lia.
Qed.

Lemma devuelve_repetir {X : Type} (n : nat) (m : Aleatorio X)
  (P : X -> Prop) :
  devuelve m P ->
  devuelve (repetir n m) (fun xs => length xs = n /\ Forall P xs).
Proof.
  intro Hm. induction n as [|n IH]; simpl.
  - apply devuelve_ret. split; [reflexivity | constructor].
  - eapply devuelve_ligar; [exact Hm|]. intros x Hx.
    eapply devuelve_ligar; [exact IH|]. intros xs [Hl HF].
    apply devuelve_ret. split; [simpl; lia | constructor; assumption].
Qed.

Lemma devuelve_mapearA {X Y : Type} (f : X -> Aleatorio Y) (l : list X)
  (P : Y -> Prop) :
  (forall x, In x l -> devuelve (f x) P) ->
  devuelve (mapearA f l) (fun ys => length ys = length l /\ Forall P ys).
Proof.
  induction l as [|x xs IH]; intro H; simpl.
  - apply devuelve_ret. split; [reflexivity | constructor].
  - eapply devuelve_ligar; [apply H; left; reflexivity|]. intros y Hy.
    eapply devuelve_ligar; [apply IH; intros; apply H; right; assumption|].
    intros ys [Hl HF].
    apply devuelve_ret. split; [simpl; lia | constructor; assumption].
Qed.

Lemma devuelve_plegarA {X S : Type} (f : S -> X -> Aleatorio S)
  (l : list X) (I : S -> Prop) :
  (forall s x, In x l -> I s -> devuelve (f s x) I) ->
  forall s, I s -> devuelve (plegarA f l s) I.
Proof.
  induction l as [|x xs IH]; intros H s Hs; simpl.
  - apply devuelve_ret. assumption.
  - eapply devuelve_ligar; [apply H; [left; reflexivity | assumption]|].
    intros s' Hs'. apply IH; [|assumption].
    intros; apply H; [right|]; assumption.
Qed.

Lemma devuelve_punto_aleatorio (caja : Caja) :
  devuelve (punto_aleatorio caja) (fun _ => True).
Proof.
  unfold punto_aleatorio.
  eapply devuelve_ligar; [apply devuelve_uniform|]. intros a _.
  eapply devuelve_ligar; [apply devuelve_uniform|]. intros b _.
  apply devuelve_ret. exact I.
Qed.

Lemma devuelve_blx (a b alpha : Q) : devuelve (_blx a b alpha) (fun _ => True).
Proof. unfold _blx. apply devuelve_uniform. Qed.

Lemma devuelve_cruzar (p1 p2 : Punto) (alpha : Q) :
  devuelve (cruzar_blx_alpha p1 p2 alpha) (fun _ => True).
Proof.
  destruct p1 as [x1 y1], p2 as [x2 y2]. unfold cruzar_blx_alpha.
  eapply devuelve_ligar; [apply devuelve_blx|]. intros x _.
  eapply devuelve_ligar; [apply devuelve_blx|]. intros y _.
  apply devuelve_ret. exact I.
Qed.

Lemma devuelve_mutar (ind : Punto) (caja : Caja) (sl sn pm : Q) :
  devuelve (mutar_gauss ind caja sl sn pm) (fun _ => True).
Proof.
  destruct ind as [lat lon]. unfold mutar_gauss.
  eapply devuelve_ligar; [apply devuelve_random|]. intros u _.
  eapply devuelve_ligar with (P := fun _ => True).
  - destruct (Qltb u pm).
    + eapply devuelve_ligar; [apply devuelve_gauss|]. intros a _.
      eapply devuelve_ligar; [apply devuelve_gauss|]. intros b _.
      apply devuelve_ret. exact I.
    + apply devuelve_ret. exact I.
  - intros [lat' lon'] _. apply devuelve_ret. exact I.
Qed.

End HechosAzar.

(* ================================================================== *)
(** ** Keys, maxima, elites and tournaments                             *)
(* ================================================================== *)

Lemma con_clave_ok (fs : list Q) (idxs : list nat) :
  (forall i, In i idxs -> (i < length fs)%nat) ->
  exists claves,
    con_clave fs idxs = Ok claves
    /\ map fst claves = idxs
    /\ forall i f, In (i, f) claves -> nth_error fs i = Some f.
Proof.
  unfold con_clave. induction idxs as [|i idxs IH]; intro H; simpl.
  - exists []. repeat split. intros i f [].
  - destruct IH as (cl & E & Hm & Hn); [intros; apply H; right; assumption|].
    assert (Hi : (i < length fs)%nat) by (apply H; left; reflexivity).
    unfold py_index at 1.
    destruct (nth_error fs i) as [f|] eqn:Ef;
      [|apply nth_error_None in Ef; lia].
    simpl. rewrite E. simpl.
    exists ((i, f) :: cl). split; [reflexivity|]. split.
    + simpl. congruence.
    + intros j f' [Hj|Hj]; [injection Hj as <- <-; assumption | auto].
Qed.

Lemma py_max_key_desde {X : Type} (key : X -> Q) (xs : list X) :
  forall x0,
    let m := fold_left
               (fun m y => if Qltb (key m) (key y) then y else m) xs x0 in
    (m = x0 \/ In m xs)
    /\ key x0 <= key m
    /\ forall y, In y xs -> key y <= key m.
Proof.
  induction xs as [|x xs IH]; intro x0; simpl.
  - split; [left; reflexivity|]. split; [lra | intros y []].
  - destruct (IH (if Qltb (key x0) (key x) then x else x0))
      as (H1 & H2 & H3).
    destruct (Qltb (key x0) (key x)) eqn:E; casos_Q.
    + split; [destruct H1 as [->|H1]; auto|].
      split; [lra|]. intros y [<-|Hy]; auto.
    + split; [destruct H1 as [->|H1]; auto|].
      split; [lra|]. intros y [<-|Hy]; [lra | auto].
Qed.

Lemma py_max_key_ok {X : Type} (key : X -> Q) (l : list X) :
  l <> [] ->
  exists m,
    py_max_key key l = Ok m /\ In m l
    /\ forall y, In y l -> key y <= key m.
Proof.
  destruct l as [|x xs]; [congruence|]. intros _.
  destruct (py_max_key_desde key xs x) as (H1 & H2 & H3).
  eexists. split; [reflexivity|]. split.
  - destruct H1 as [->|H1]; [left; reflexivity | right; assumption].
  - intros y [<-|Hy]; auto.
Qed.

(** [max(l)] over floats is [max(l, key=identity)]. *)
Lemma py_max_lista_ok (l : list Q) :
  l <> [] ->
  exists m,
    py_max_lista l = Ok m /\ In m l /\ forall y, In y l -> y <= m.
Proof.
  destruct l as [|x xs]; [congruence|]. intros _.
  destruct (py_max_key_desde (fun q => q) xs x) as (H1 & H2 & H3).
  exists (fold_left py_max xs x).
  assert (E : forall ys y0,
             fold_left py_max ys y0
             = fold_left (fun m y => if Qltb m y then y else m) ys y0).
  { induction ys as [|y ys IHy]; intro y0; simpl; [reflexivity|].
    rewrite IHy. reflexivity. }
  rewrite E. split; [simpl; rewrite E; reflexivity|]. split.
  - destruct H1 as [->|H1]; [left; reflexivity | right; assumption].
  - intros y [<-|Hy]; auto.
Qed.

Lemma insertar_desc_cabeza {X : Type} (key : X -> Q) (a : X) (s : list X) :
  (forall h t, s = h :: t -> forall y, In y t -> key y <= key h) ->
  exists h t,
    insertar_desc key a s = h :: t
    /\ forall y, In y (a :: s) -> key y <= key h.
Proof.
  intro Hs. destruct s as [|h t]; simpl.
  - exists a, []. split; [reflexivity|]. intros y [<-|[]]. lra.
  - specialize (Hs h t eq_refl).
    destruct (Qltb (key a) (key h)) eqn:E; casos_Q.
    + exists h, (insertar_desc key a t). split; [reflexivity|].
      intros y [<-|[<-|Hy]]; [lra | lra | auto].
    + exists a, (h :: t). split; [reflexivity|].
      intros y [<-|[<-|Hy]]; [lra | lra |].
      specialize (Hs y Hy). lra.
Qed.

(** The head of a descending sort carries a maximal key. *)
Lemma sorted_reverse_cabeza {X : Type} (key : X -> Q) (l : list X) :
  forall h t,
    sorted_key_reverse key l = h :: t ->
    forall y, In y l -> key y <= key h.
Proof.
  induction l as [|a l IH]; intros h t E y Hy; [destruct Hy|].
  simpl in E.
  destruct (insertar_desc_cabeza key a (sorted_key_reverse key l))
    as (h' & t' & E' & Hmax).
  - intros h0 t0 E0 z Hz. apply (IH h0 t0 E0).
    apply (Permutation_in _ (Permutation_sym (sorted_key_reverse_perm key l))).
    rewrite E0. right. assumption.
  - rewrite E in E'. injection E' as <- <-.
    apply Hmax. destruct Hy as [<-|Hy]; [left; reflexivity|].
    right. apply (Permutation_in _ (sorted_key_reverse_perm key l)).
    assumption.
Qed.

Lemma In_indices {X : Type} (l : list X) (i : nat) :
  In i (indices l) <-> (i < length l)%nat.
Proof. unfold indices. rewrite in_seq. lia. Qed.

Lemma valores_en_claves (fs : list Q) (n : nat) (claves : list (nat * Q)) :
  length fs = n ->
  map fst claves = seq 0 n ->
  (forall i f, In (i, f) claves -> nth_error fs i = Some f) ->
  forall f, In f fs -> exists i, In (i, f) claves.
Proof.
  intros Hl Hm Hn f Hf.
  apply In_nth_error in Hf. destruct Hf as [i Hi].
  assert (Hlt : (i < n)%nat)
    by (rewrite <- Hl; apply nth_error_Some; congruence).
  assert (Hin : In i (map fst claves)) by (rewrite Hm; apply in_seq; lia).
  apply in_map_iff in Hin. destruct Hin as [[j f'] [Hj Hc]].
  simpl in Hj. subst j. exists i.
  pose proof (Hn i f' Hc) as H'. rewrite Hi in H'. injection H' as ->.
  assumption.
Qed.

(** The elites of a non-empty population: members of the population, the
    first of which has the highest fitness of the generation. *)
Lemma elites_de_ok {X : Type} (pob : list X) (fs : list Q) (e : Z) :
  pob <> [] -> length fs = length pob ->
  exists x0 resto i0 f0,
    elites_de pob fs e = Ok (x0 :: resto)
    /\ incl (x0 :: resto) pob
    /\ nth_error pob i0 = Some x0
    /\ nth_error fs i0 = Some f0
    /\ forall f, In f fs -> f <= f0.
Proof.
  intros Hne Hl. unfold elites_de, orden_por_fitness.
  destruct (con_clave_ok fs (indices pob)) as (claves & Ec & Hm & Hn).
  { intros i Hi. apply In_indices in Hi. lia. }
  rewrite Ec. cbn [ligar].
  pose proof (sorted_key_reverse_perm (@snd nat Q) claves) as Hperm.
  set (ord := sorted_key_reverse (@snd nat Q) claves) in *.
  assert (Hidx : forall i, In i (map fst ord) -> (i < length pob)%nat).
  { intros i Hi. apply In_indices. rewrite <- Hm.
    apply (Permutation_in _ (Permutation_sym (Permutation_map fst Hperm))).
    assumption. }
  destruct ord as [|[i0 f0] ord'] eqn:Eord.
  { apply Permutation_sym, Permutation_nil in Hperm. subst claves.
    destruct pob; [congruence | discriminate Hm]. }
  assert (Hmax : forall c, In c claves -> snd c <= f0).
  { intros c Hc.
    apply (sorted_reverse_cabeza (@snd nat Q) claves (i0, f0) ord' Eord c Hc). }
  assert (Hi0 : In (i0, f0) claves).
  { apply (Permutation_in _ (Permutation_sym Hperm)). left. reflexivity. }
  assert (He : exists k, Z.to_nat (Z.max 1 e) = S k)
    by (exists (pred (Z.to_nat (Z.max 1 e))); lia).
  destruct He as [k ->]. simpl map. simpl firstn.
  destruct (mapear_ok (py_index pob) (i0 :: firstn k (map fst ord')))
    as (els & Eels & HF).
  { intros i Hi.
    destruct (py_index_ok pob i) as [x [Hx _]]; [|eauto].
    apply Hidx. simpl. destruct Hi as [<-|Hi]; [left; reflexivity|].
    right. eapply In_firstn. eassumption. }
  rewrite Eels. inversion HF as [|? x0 ? resto Hx0 HF']; subst.
  exists x0, resto, i0, f0. split; [reflexivity|].
  split; [|split; [|split]].
  - intros x Hx.
    destruct (Forall2_In_der _ _ _ x HF Hx) as [i [_ Hi]].
    apply py_index_In in Hi. tauto.
  - unfold py_index in Hx0.
    destruct (nth_error pob i0); [congruence | discriminate].
  - apply Hn. assumption.
  - intros f Hf.
    destruct (valores_en_claves fs (length pob) claves Hl Hm Hn f Hf)
      as [i Hi].
    apply (Hmax (i, f) Hi).
Qed.

Lemma mapear_In {X Y : Type} (f : X -> resultado Y) (l : list X)
  (ys : list Y) (x : X) (y : Y) :
  mapear f l = Ok ys -> In x l -> f x = Ok y -> In y ys.
Proof.
  intros Hm Hin Hy. apply mapear_Forall2 in Hm.
  destruct (Forall2_In_izq _ _ _ x Hm Hin) as [y' [H1 H2]].
  congruence.
Qed.

Section HechosElite.

Context {X : Type} (f : X -> resultado Q).

Hypothesis f_total : forall x, exists v, f x = Ok v.

Lemma mapear_total (l : list X) : exists fs, mapear f l = Ok fs.
Proof.
  destruct (mapear_ok f l) as [fs [E _]]; [intros; apply f_total|].
  exists fs. exact E.
Qed.

(** The best fitness of the elite set is the best fitness of its
    generation. *)
Lemma mejor_elite_es_mejor (e : Z) (pob : list X) :
  pob <> [] ->
  exists fs els m,
    mapear f pob = Ok fs
    /\ elites_de pob fs e = Ok els
    /\ incl els pob
    /\ mejor_elite f e pob = Ok m
    /\ In m fs
    /\ (forall v, In v fs -> v <= m)
    /\ exists x, In x els /\ f x = Ok m.
Proof.
  intro Hne. destruct (mapear_total pob) as [fs Efs].
  pose proof (mapear_Forall2 _ _ _ Efs) as HF.
  pose proof (mapear_largo _ _ _ Efs) as Hl.
  destruct (elites_de_ok pob fs e Hne Hl)
    as (x0 & resto & i0 & f0 & Eel & Hincl & Hx0 & Hf0 & Hmax).
  pose proof (Forall2_nth_error _ _ _ _ _ _ HF Hx0 Hf0) as Hfx0.
  destruct (mapear_total (x0 :: resto)) as [fe Efe].
  assert (Hf0e : In f0 fe)
    by (eapply mapear_In; [exact Efe | left; reflexivity | exact Hfx0]).
  destruct (py_max_lista_ok fe) as (m & Em & Hm & Hmm).
  { intro H. rewrite H in Hf0e. destruct Hf0e. }
  destruct (Forall2_In_der _ _ _ m (mapear_Forall2 _ _ _ Efe) Hm)
    as [x [Hx Hfx]].
  exists fs, (x0 :: resto), m.
  split; [exact Efs|]. split; [exact Eel|]. split; [exact Hincl|].
  split; [|split; [|split]].
  - unfold mejor_elite. rewrite Efs. cbn [ligar]. rewrite Eel. cbn [ligar].
    rewrite Efe. cbn [ligar]. exact Em.
  - eapply mapear_In; [exact Efs | apply Hincl; exact Hx | exact Hfx].
  - intros v Hv. specialize (Hmax v Hv). specialize (Hmm f0 Hf0e). lra.
  - exists x. split; assumption.
Qed.

Lemma mejor_observado_ok (pob : list X) :
  pob <> [] ->
  exists fs m,
    mapear f pob = Ok fs /\ mejor_observado f pob = Ok m
    /\ In m fs /\ forall v, In v fs -> v <= m.
Proof.
  intro Hne. destruct (mapear_total pob) as [fs Efs].
  destruct (py_max_lista_ok fs) as (m & Em & Hm & Hmm).
  { intro H. subst fs. apply mapear_largo in Efs.
    destruct pob; [congruence | discriminate]. }
  exists fs, m. split; [exact Efs|]. split; [|split; assumption].
  unfold mejor_observado. rewrite Efs. exact Em.
Qed.

(** Elitism: when the next population starts with the elites of the
    current one, the best fitness of its elite set is not lower. *)
Lemma elitismo_monotono (e : Z) (pob nueva hijos : list X) (els : list X)
  (fs : list Q) :
  pob <> [] ->
  mapear f pob = Ok fs ->
  elites_de pob fs e = Ok els ->
  nueva = els ++ hijos ->
  exists m0 m m',
    mejor_observado f pob = Ok m0
    /\ mejor_elite f e pob = Ok m
    /\ mejor_elite f e nueva = Ok m'
    /\ m0 == m /\ m <= m'.
Proof.
  intros Hne Efs Eel ->.
  destruct (mejor_elite_es_mejor e pob Hne)
    as (fs1 & els1 & m & Efs1 & Eel1 & Hincl & Em & Hm & Hmax & x & Hx & Hfx).
  rewrite Efs in Efs1. injection Efs1 as <-.
  rewrite Eel in Eel1. injection Eel1 as <-.
  destruct (mejor_observado_ok pob Hne) as (fs2 & m0 & Efs2 & Em0 & Hm0 & Hmax0).
  rewrite Efs in Efs2. injection Efs2 as <-.
  assert (Hne' : els ++ hijos <> []).
  { destruct els; [destruct Hx | discriminate]. }
  destruct (mejor_elite_es_mejor e (els ++ hijos) Hne')
    as (fs' & els' & m' & Efs' & Eel' & _ & Em' & _ & Hmax' & _).
  exists m0, m, m'. repeat (split; [assumption|]).
  split.
  - apply Qle_antisym; auto.
  - apply Hmax'.
    eapply mapear_In; [exact Efs' | apply in_or_app; left; exact Hx
                      | exact Hfx].
Qed.

End HechosElite.

Section HechosTorneo.

Context {A : Azar}.

Lemma devuelve_torneo {X : Type} (pob : list X) (fs : list Q) (k : Z) :
  pob <> [] -> length fs = length pob -> (1 <= k)%Z ->
  devuelve (torneo pob fs k) (fun x => In x pob).
Proof.
  intros Hne Hl Hk. unfold torneo.
  assert (Hn : (0 < length pob)%nat)
    by (destruct pob; [congruence | simpl; lia]).
  assert (Hli : length (indices pob) = length pob)
    by (unfold indices; apply length_seq).
  eapply devuelve_ligar.
  { apply devuelve_sample. rewrite Hli. lia. }
  intros cont [Hlc Hic]. rewrite Hli in Hlc.
  destruct (con_clave_ok fs cont) as (claves & Ec & Hm & Hnth).
  { intros i Hi. apply Hic, In_indices in Hi. lia. }
  apply devuelve_ligar with (P := fun c => c = claves);
    [eapply devuelve_elevar; [exact Ec | reflexivity]|].
  intros ? ->.
  destruct (py_max_key_ok (@snd nat Q) claves) as (best & Eb & Hb & _).
  { intro H. subst claves. simpl in Hm. subst cont. simpl in Hlc. lia. }
  apply devuelve_ligar with (P := fun b => b = best);
    [eapply devuelve_elevar; [exact Eb | reflexivity]|].
  intros ? ->.
  assert (Hi : (fst best < length pob)%nat).
  { apply In_indices, Hic. rewrite <- Hm. apply in_map. assumption. }
  destruct (py_index_ok pob (fst best) Hi) as [x [Hx Hin]].
  apply devuelve_elevar with (x := x); assumption.
Qed.

Lemma devuelve_seleccion_torneo {X : Type} (pob : list X) (fs : list Q)
  (k n : Z) :
  pob <> [] -> length fs = length pob -> (1 <= k)%Z ->
  devuelve (seleccion_torneo pob fs k (Some n))
    (fun xs => length xs = Z.to_nat n /\ Forall (fun x => In x pob) xs).
Proof.
  intros Hne Hl Hk. unfold seleccion_torneo.
  apply devuelve_repetir. apply devuelve_torneo; assumption.
Qed.

End HechosTorneo.

(* ================================================================== *)
(** ** Values of the runs that return                                   *)
(* ================================================================== *)

Section HechosValor.

Context {A : Azar}.

(** [siempre m P]: whatever the generator state, a value that [m] returns
    satisfies [P]; nothing is said of a run that raises. *)
Definition siempre {X : Type} (m : Aleatorio X) (P : X -> Prop) : Prop :=
  forall g x g', m g = Ok (x, g') -> P x.

Lemma siempre_ret {X : Type} (x : X) (P : X -> Prop) :
  P x -> siempre (ret x) P.
Proof. intros H g y g' E. injection E as <- _. exact H. Qed.

Lemma siempre_lanzar {X : Type} (e : excepcion) (P : X -> Prop) :
  siempre (lanzar e) P.
Proof. intros g y g' E. discriminate E. Qed.

Lemma siempre_ligar {X Y : Type} (m : Aleatorio X) (f : X -> Aleatorio Y)
  (P : X -> Prop) (Q : Y -> Prop) :
  siempre m P -> (forall x, P x -> siempre (f x) Q) ->
  siempre (ligarA m f) Q.
Proof.
  intros Hm Hf g y g' E. unfold ligarA in E.
  destruct (m g) as [[x g1]|e] eqn:Em; [|discriminate E].
  exact (Hf x (Hm g x g1 Em) g1 y g' E).
Qed.

Lemma siempre_elevar {X : Type} (r : resultado X) (P : X -> Prop) :
  (forall x, r = Ok x -> P x) -> siempre (elevar r) P.
Proof.
  intros H g y g' E. unfold elevar in E.
  destruct r as [x|e]; [|discriminate E].
  injection E as <- _. apply H. reflexivity.
Qed.

Lemma siempre_implica {X : Type} (m : Aleatorio X) (P Q : X -> Prop) :
  siempre m P -> (forall x, P x -> Q x) -> siempre m Q.
Proof. intros Hm H g x g' E. apply H. exact (Hm g x g' E). Qed.

Lemma siempre_cierto {X : Type} (m : Aleatorio X) :
  siempre m (fun _ => True).
Proof. intros g x g' _. exact I. Qed.

Lemma devuelve_siempre {X : Type} (m : Aleatorio X) (P : X -> Prop) :
  devuelve m P -> siempre m P.
Proof.
  intros H g x g' E. destruct (H g) as (x' & g'' & E' & Hx).
  rewrite E in E'. injection E' as <- _. exact Hx.
Qed.

Lemma siempre_choice {X : Type} (l : list X) :
  siempre (random_choice l) (fun x => In x l).
Proof.
  destruct l as [|a l]; [apply siempre_lanzar|].
  apply devuelve_siempre, devuelve_choice. discriminate.
Qed.

Lemma siempre_sample {X : Type} (l : list X) (k : Z) :
  siempre (random_sample l k)
    (fun xs => (0 <= k)%Z /\ length xs = Z.to_nat k /\ incl xs l).
Proof.
  unfold random_sample.
  destruct ((0 <=? k)%Z && (k <=? Z.of_nat (length l))%Z) eqn:E;
    [|apply siempre_lanzar].
  apply andb_true_iff in E. destruct E as [E1 E2].
  apply Z.leb_le in E1. apply Z.leb_le in E2.
  eapply siempre_implica.
  - apply devuelve_siempre, devuelve_sample_pool. lia.
  - intros xs [H1 H2]. auto.
Qed.

Lemma siempre_repetir {X : Type} (n : nat) (m : Aleatorio X)
  (P : X -> Prop) :
  siempre m P ->
  siempre (repetir n m) (fun xs => length xs = n /\ Forall P xs).
Proof.
  intro Hm. induction n as [|n IH]; simpl.
  - apply siempre_ret. split; [reflexivity | constructor].
  - eapply siempre_ligar; [exact Hm|]. intros x Hx.
    eapply siempre_ligar; [exact IH|]. intros xs [Hl HF].
    apply siempre_ret. split; [simpl; lia | constructor; assumption].
Qed.

(** Whoever wins a tournament is a member of the population. *)
Lemma siempre_torneo {X : Type} (pob : list X) (fs : list Q) (k : Z) :
  siempre (torneo pob fs k) (fun x => In x pob).
Proof.
  unfold torneo.
  eapply siempre_ligar; [apply siempre_cierto|]. intros cont _.
  eapply siempre_ligar; [apply siempre_cierto|]. intros claves _.
  eapply siempre_ligar; [apply siempre_cierto|]. intros best _.
  apply siempre_elevar. intros x Hx. apply py_index_In in Hx. tauto.
Qed.

Lemma siempre_seleccion_torneo {X : Type} (pob : list X) (fs : list Q)
  (k : Z) (n : option Z) :
  siempre (seleccion_torneo pob fs k n) (Forall (fun x => In x pob)).
Proof.
  unfold seleccion_torneo.
  eapply siempre_implica; [apply siempre_repetir, siempre_torneo|].
  intros xs [_ H]. exact H.
Qed.

End HechosValor.

(* ================================================================== *)
(** ** One generation of the blind-spot search                          *)
(* ================================================================== *)

Section HechosPuntosCiegos.

Context {G : Geodesia} {A : Azar}.

Import PuntosCiegos.

Lemma pc_fitness_total (cfg : Config) (camaras : list Punto) (ind : Punto) :
  exists v, fitness_individuo cfg camaras ind = Ok v.
Proof.
  unfold fitness_individuo.
  destruct (fitness_punto_total ind camaras (radio_cobertura_m cfg)
              (max_interes_m cfg) (max_extrapolacion_m cfg) (k_vecinos cfg)
              (1 # 10)) as [v [Hv _]].
  exists v. exact Hv.
Qed.

Lemma devuelve_pc_reproducir (cfg : Config) (caja : Caja)
  (padres : list Punto) :
  forall faltan nueva,
    (faltan = O \/ padres <> []) ->
    devuelve (reproducir faltan cfg caja padres nueva)
      (fun r => exists hijos, r = nueva ++ hijos /\ length hijos = faltan).
Proof.
  induction faltan as [|n IH]; intros nueva Hp; simpl.
  - apply devuelve_ret. exists []. rewrite app_nil_r. auto.
  - destruct Hp as [Hp|Hp]; [discriminate|].
    eapply devuelve_ligar; [apply devuelve_choice; assumption|].
    intros p1 _.
    eapply devuelve_ligar; [apply devuelve_choice; assumption|].
    intros p2 _.
    eapply devuelve_ligar; [apply devuelve_cruzar|]. intros h _.
    eapply devuelve_ligar; [apply devuelve_mutar|]. intros h' _.
    eapply devuelve_implica; [apply IH; right; assumption|].
    intros r [hijos [-> Hl]]. exists (h' :: hijos).
    rewrite <- app_assoc. split; [reflexivity | simpl; lia].
Qed.

Lemma devuelve_pc_generacion (cfg : Config) (camaras : list Punto)
  (caja : Caja) (pob : list Punto) :
  pob <> [] -> (1 <= k_torneo cfg)%Z ->
  devuelve (generacion cfg camaras caja pob)
    (fun nueva =>
       exists fs els hijos,
         evaluar cfg camaras pob = Ok fs
         /\ elites_de pob fs (elitismo cfg) = Ok els
         /\ nueva = els ++ hijos).
Proof.
  intros Hne Hk. unfold generacion.
  destruct (mejor_elite_es_mejor (fitness_individuo cfg camaras)
              (pc_fitness_total cfg camaras) (elitismo cfg) pob Hne)
    as (fs & els & m & Efs & Eel & _).
  pose proof (mapear_largo _ _ _ Efs) as Hl.
  apply devuelve_ligar with (P := fun x => x = fs);
    [eapply devuelve_elevar; [exact Efs | reflexivity]|].
  intros ? ->.
  apply devuelve_ligar with (P := fun x => x = els);
    [eapply devuelve_elevar; [exact Eel | reflexivity]|].
  intros ? ->.
  eapply devuelve_ligar;
    [apply devuelve_seleccion_torneo; assumption|].
  intros padres [Hlp _].
  eapply devuelve_implica.
  - apply devuelve_pc_reproducir.
    destruct (Z.to_nat (tam_poblacion cfg - Z.of_nat (length els))) eqn:E;
      [left; reflexivity|].
    right. intro H. subst padres. simpl in Hlp. lia.
  - intros r [hijos [-> _]]. exists fs, els, hijos. auto.
Qed.

End HechosPuntosCiegos.

(* ================================================================== *)
(** ** The operators of the coverage search keep the length             *)
(* ================================================================== *)

Section HechosOperadoresCobertura.

Context {G : Geodesia} {A : Azar}.

Import Cobertura.

Lemma devuelve_cruzar_individuo (p1 p2 : Individuo) (alpha : Q) :
  devuelve (_cruzar_individuo_blx p1 p2 alpha)
    (fun h => length h = Nat.min (length p1) (length p2)).
Proof.
  unfold _cruzar_individuo_blx.
  eapply devuelve_implica.
  - apply devuelve_mapearA with (P := fun _ => True).
    intros [a b] _. apply devuelve_cruzar.
  - intros h [Hl _]. rewrite Hl. apply length_combine.
Qed.

Lemma devuelve_mutar_individuo (ind : Individuo) (caja : Caja)
  (pm sl sn : Q) :
  devuelve (_mutar_individuo_gauss ind caja pm sl sn)
    (fun h => length h = length ind).
Proof.
  unfold _mutar_individuo_gauss.
  eapply devuelve_implica.
  - apply devuelve_mapearA with (P := fun _ => True).
    intros p _. apply devuelve_mutar.
  - intros h [Hl _]. exact Hl.
Qed.

Lemma devuelve_reparar_existentes (caja : Caja) (existentes : list Punto)
  (me : Q) (out : list Punto) :
  devuelve (reparar_existentes caja existentes me out)
    (fun s => length (fst s) = length out).
Proof.
  unfold reparar_existentes.
  apply devuelve_plegarA
    with (I := fun s : list Punto * bool => length (fst s) = length out);
    [|reflexivity].
  intros [o ch] i Hi Ho. simpl in Ho.
  apply In_indices in Hi.
  destruct (py_index_ok o i) as [p [Hp _]]; [lia|].
  apply devuelve_ligar with (P := fun x => x = p);
    [eapply devuelve_elevar; [exact Hp | reflexivity]|].
  intros ? ->.
  destruct (demasiado_cerca p existentes me).
  - eapply devuelve_ligar; [apply devuelve_punto_aleatorio|].
    intros q _. apply devuelve_ret. simpl.
    rewrite largo_reemplazar. assumption.
  - apply devuelve_ret. assumption.
Qed.

Lemma devuelve_reparar_pares (caja : Caja) (mn : Q)
  (estado : list Punto * bool) :
  devuelve (reparar_pares caja mn estado)
    (fun s => length (fst s) = length (fst estado)).
Proof.
  unfold reparar_pares.
  apply devuelve_plegarA
    with (I := fun s : list Punto * bool =>
                 length (fst s) = length (fst estado));
    [|reflexivity].
  intros [o ch] [i j] Hij Ho. simpl in Ho.
  apply pares_cota in Hij.
  destruct (py_index_ok o i) as [pi [Hpi _]]; [lia|].
  destruct (py_index_ok o j) as [pj [Hpj _]]; [lia|].
  apply devuelve_ligar with (P := fun x => x = pi);
    [eapply devuelve_elevar; [exact Hpi | reflexivity]|].
  intros ? ->.
  apply devuelve_ligar with (P := fun x => x = pj);
    [eapply devuelve_elevar; [exact Hpj | reflexivity]|].
  intros ? ->.
  destruct (Qltb _ mn).
  - eapply devuelve_ligar; [apply devuelve_punto_aleatorio|].
    intros q _. apply devuelve_ret. simpl.
    rewrite largo_reemplazar. assumption.
  - apply devuelve_ret. assumption.
Qed.

Lemma devuelve_pasada_repair (caja : Caja) (existentes : list Punto)
  (mn me : Q) (out : list Punto) :
  devuelve (pasada_repair caja existentes mn me out)
    (fun s => length (fst s) = length out).
Proof.
  unfold pasada_repair.
  apply devuelve_ligar
    with (P := fun s : list Punto * bool => length (fst s) = length out).
  - destruct (Qltb 0 me).
    + apply devuelve_reparar_existentes.
    + apply devuelve_ret. reflexivity.
  - intros s Hs. eapply devuelve_implica; [apply devuelve_reparar_pares|].
    intros s' Hs'. congruence.
Qed.

Lemma devuelve_iterar_repair (caja : Caja) (existentes : list Punto)
  (mn me : Q) :
  forall iters out,
    devuelve (iterar_repair iters caja existentes mn me out)
      (fun o => length o = length out).
Proof.
  induction iters as [|n IH]; intro out; simpl.
  - apply devuelve_ret. reflexivity.
  - eapply devuelve_ligar; [apply devuelve_pasada_repair|].
    intros [o ch] Ho. simpl in Ho. destruct ch.
    + eapply devuelve_implica; [apply IH|]. intros o' Ho'. congruence.
    + apply devuelve_ret. assumption.
Qed.

Lemma devuelve_repair_separacion (ind existentes : list Punto) (caja : Caja)
  (mn me : Q) (max_iters : Z) :
  devuelve (_repair_separacion ind existentes caja mn me max_iters)
    (fun o => length o = length ind).
Proof.
  unfold _repair_separacion.
  eapply devuelve_ligar; [apply devuelve_iterar_repair|].
  intros o Ho. apply devuelve_ret. rewrite length_map. assumption.
Qed.

Lemma devuelve_reparar (cfg : Config) (existentes : list Punto) (caja : Caja)
  (ind : Individuo) :
  devuelve (reparar cfg existentes caja ind)
    (fun o => length o = length ind).
Proof.
  unfold reparar. destruct (penalizar_cercania cfg).
  - apply devuelve_repair_separacion.
  - apply devuelve_ret. reflexivity.
Qed.

Lemma devuelve_completar (caja : Caja) :
  forall faltan ind,
    devuelve (completar faltan caja ind)
      (fun o => length o = (length ind + faltan)%nat).
Proof.
  induction faltan as [|n IH]; intro ind; simpl.
  - apply devuelve_ret. lia.
  - eapply devuelve_ligar; [apply devuelve_punto_aleatorio|].
    intros p _. eapply devuelve_implica; [apply IH|].
    intros o Ho. rewrite Ho, length_app. simpl. lia.
Qed.

(** A new individual has exactly the requested number of points. *)
Lemma devuelve_crear_individuo (cfg : Config) (existentes : list Punto)
  (caja : Caja) (semillas : list Punto) :
  (0 <= n_camaras_nuevas cfg)%Z \/ semillas = [] ->
  devuelve (_crear_individuo cfg existentes caja semillas)
    (fun ind => length ind = Z.to_nat (n_camaras_nuevas cfg)).
Proof.
  intro Hn. unfold _crear_individuo.
  apply devuelve_ligar
    with (P := fun ind : Individuo =>
                 (Z.of_nat (length ind) <= Z.max 0 (n_camaras_nuevas cfg))%Z).
  - destruct semillas as [|s ss].
    + apply devuelve_ret. simpl. lia.
    + destruct Hn as [Hn|Hn]; [|discriminate].
      eapply devuelve_ligar; [apply devuelve_random|]. intros u _.
      destruct (Qltb u (prob_usar_semilla cfg)).
      * eapply devuelve_implica; [apply devuelve_sample; lia|].
        intros xs [Hl _]. rewrite Hl. lia.
      * apply devuelve_ret. simpl. lia.
  - intros ind Hind.
    eapply devuelve_ligar; [apply devuelve_completar|].
    intros ind' Hind'.
    eapply devuelve_implica; [apply devuelve_reparar|].
    intros o Ho. rewrite Ho, length_map, Hind'. lia.
Qed.

(** Reproduction appends children to the next generation; when every
    parent has [n] points (the premise [U] below stands for that
    situation), so has every child. *)
Lemma devuelve_cob_reproducir (cfg : Config) (existentes : list Punto)
  (caja : Caja) (padres : list Individuo) (n : nat) (U : Prop) :
  (U -> Forall (fun p => length p = n) padres) ->
  forall faltan nueva,
    (faltan = O \/ padres <> []) ->
    devuelve (reproducir faltan cfg existentes caja padres nueva)
      (fun r =>
         exists hijos,
           r = nueva ++ hijos
           /\ (U -> Forall (fun h => length h = n) hijos)).
Proof.
  intro Hpad.
  induction faltan as [|k IH]; intros nueva Hp; simpl.
  - apply devuelve_ret. exists []. rewrite app_nil_r. auto.
  - destruct Hp as [Hp|Hp]; [discriminate|].
    eapply devuelve_ligar; [apply devuelve_choice; assumption|].
    intros p1 Hp1.
    eapply devuelve_ligar; [apply devuelve_choice; assumption|].
    intros p2 Hp2.
    eapply devuelve_ligar; [apply devuelve_cruzar_individuo|].
    intros h Hh.
    eapply devuelve_ligar; [apply devuelve_mutar_individuo|].
    intros h' Hh'.
    eapply devuelve_ligar; [apply devuelve_reparar|].
    intros h'' Hh''. rewrite length_map in Hh''.
    eapply devuelve_implica; [apply IH; right; assumption|].
    intros r [hijos [-> HF]]. exists (h'' :: hijos).
    rewrite <- app_assoc. split; [reflexivity|].
    intro HU. specialize (Hpad HU). rewrite Forall_forall in Hpad.
    constructor; [|auto].
    rewrite Hh'', Hh', Hh, (Hpad _ Hp1), (Hpad _ Hp2). apply Nat.min_id.
Qed.

End HechosOperadoresCobertura.

(* ================================================================== *)
(** ** One generation and the whole loop of the coverage search         *)
(* ================================================================== *)

Lemma last_cons {X : Type} (a d : X) (l : list X) :
  last (a :: l) d = last l a.
Proof.
  revert a d. induction l as [|b l IH]; intros a d; [reflexivity|].
  change (last (a :: b :: l) d) with (last (b :: l) d).
  rewrite !IH. reflexivity.
Qed.

Section HechosBucleCobertura.

Context {G : Geodesia} {A : Azar}.

Import Cobertura.

Lemma cob_fitness_rango (cfg : Config) (pe ex : list Punto)
  (ind : Individuo) :
  exists v,
    fitness_individuo cfg pe ex ind = Ok v /\ 0 <= v /\ v <= 100.
Proof.
  unfold fitness_individuo.
  destruct (fitness_cobertura_total pe ex ind (radio_m cfg)
              (penalizar_sobrecobertura cfg) (15 # 100)
              (penalizar_cercania cfg) (min_dist_entre_nuevas_m cfg)
              (min_dist_a_existentes_m cfg) (peso_cercania cfg))
    as [v [Hv _]].
  rewrite Hv. cbn [ligar]. eexists. split; [reflexivity|].
  apply clamp_entre. lra.
Qed.

Lemma cob_fitness_total (cfg : Config) (pe ex : list Punto)
  (ind : Individuo) :
  exists v, fitness_individuo cfg pe ex ind = Ok v.
Proof.
  destruct (cob_fitness_rango cfg pe ex ind) as [v [Hv _]]. eauto.
Qed.

Lemma cob_evaluar_rango (cfg : Config) (pe ex : list Punto)
  (pob : list Individuo) (fs : list Q) :
  evaluar cfg pe ex pob = Ok fs ->
  forall f, In f fs -> 0 <= f /\ f <= 100.
Proof.
  intros E f Hf. apply mapear_Forall2 in E.
  destruct (Forall2_In_der _ _ _ f E Hf) as [x [_ Hx]].
  destruct (cob_fitness_rango cfg pe ex x) as [v [Hv Hr]].
  rewrite Hx in Hv. injection Hv as <-. exact Hr.
Qed.

(** What one generation establishes. *)
Definition tras_generacion (cfg : Config) (pe ex : list Punto)
  (n : nat) (U : Prop) (e : Estado) (r : Estado * list Q) : Prop :=
  let e' := fst r in
  let fs := snd r in
  evaluar cfg pe ex (poblacion e) = Ok fs
  /\ (exists els hijos,
         elites_de (poblacion e) fs (elitismo cfg) = Ok els
         /\ poblacion e' = els ++ hijos)
  /\ poblacion e' <> []
  /\ (U -> Forall (fun ind => length ind = n) (poblacion e'))
  /\ (forall f, In f fs -> f <= best_fit e')
  /\ best_fit e <= best_fit e'
  /\ ((best_fit e' = best_fit e /\ best_ind e' = best_ind e)
      \/ (In (best_fit e') fs /\ In (best_ind e') (poblacion e)))
  /\ (exists fb,
         In fb fs /\ (forall f, In f fs -> f <= fb)
         /\ best_fit e' = py_max (best_fit e) fb).

Lemma devuelve_cob_generacion (cfg : Config) (pe ex : list Punto)
  (caja : Caja) (e : Estado) (n : nat) (U : Prop) :
  poblacion e <> [] ->
  (U -> Forall (fun ind => length ind = n) (poblacion e)) ->
  (1 <= k_torneo cfg)%Z ->
  devuelve (generacion cfg pe ex caja e) (tras_generacion cfg pe ex n U e).
Proof.
  intros Hne Hlen Hk. unfold generacion.
  set (pob := poblacion e) in *.
  destruct (mejor_elite_es_mejor (fitness_individuo cfg pe ex)
              (cob_fitness_total cfg pe ex) (elitismo cfg) pob Hne)
    as (fs & els & m & Efs & Eel & Hincl & _ & _ & _ & x & Hx & _).
  pose proof (mapear_largo _ _ _ Efs) as Hl.
  apply devuelve_ligar with (P := fun v => v = fs);
    [eapply devuelve_elevar; [exact Efs | reflexivity]|].
  intros ? ->.
  destruct (con_clave_ok fs (indices pob)) as (claves & Ec & Hm & Hnth).
  { intros i Hi. apply In_indices in Hi. lia. }
  apply devuelve_ligar with (P := fun v => v = claves);
    [eapply devuelve_elevar; [exact Ec | reflexivity]|].
  intros ? ->.
  destruct (py_max_key_ok (@snd nat Q) claves) as ([ib fb] & Eb & Hb & Hmax).
  { intro H. subst claves. destruct pob; [congruence | discriminate Hm]. }
  apply devuelve_ligar with (P := fun v => v = (ib, fb));
    [eapply devuelve_elevar; [exact Eb | reflexivity]|].
  intros ? ->. cbn [fst].
  pose proof (Hnth ib fb Hb) as Hfb.
  assert (Efb : py_index fs ib = Ok fb) by (unfold py_index; rewrite Hfb; reflexivity).
  apply devuelve_ligar with (P := fun v => v = fb);
    [eapply devuelve_elevar; [exact Efb | reflexivity]|].
  intros ? ->.
  assert (Hfmax : forall f, In f fs -> f <= fb).
  { intros f Hf.
    destruct (valores_en_claves fs (length pob) claves Hl Hm Hnth f Hf)
      as [i Hi].
    apply (Hmax (i, f) Hi). }
  assert (Hib : (ib < length pob)%nat).
  { apply In_indices. rewrite <- Hm.
    change ib with (fst (ib, fb)). apply in_map. assumption. }
  apply devuelve_ligar
    with (P := fun v : Q * Individuo =>
                 (forall f, In f fs -> f <= fst v)
                 /\ best_fit e <= fst v
                 /\ ((fst v = best_fit e /\ snd v = best_ind e)
                     \/ (In (fst v) fs /\ In (snd v) pob))
                 /\ fst v = py_max (best_fit e) fb).
  { unfold py_max.
    destruct (Qltb (best_fit e) fb) eqn:E; casos_Q.
    - destruct (py_index_ok pob ib Hib) as [ind [Hind Hin]].
      apply devuelve_ligar with (P := fun v => v = ind);
        [eapply devuelve_elevar; [exact Hind | reflexivity]|].
      intros ? ->. apply devuelve_ret. cbn [fst snd].
      split; [assumption|]. split; [lra|].
      split; [|reflexivity]. right. split; [|assumption].
      eapply nth_error_In. eassumption.
    - apply devuelve_ret. cbn [fst snd].
      split; [intros f Hf; specialize (Hfmax f Hf); lra|].
      split; [lra|]. split; [|reflexivity]. left. auto. }
  intros [bf bi] (Hbf1 & Hbf2 & Hbf3 & Hbf4). cbn [fst snd] in *.
  apply devuelve_ligar with (P := fun v => v = els);
    [eapply devuelve_elevar; [exact Eel | reflexivity]|].
  intros ? ->.
  eapply devuelve_ligar;
    [apply devuelve_seleccion_torneo; assumption|].
  intros padres [Hlp Hpad].
  eapply devuelve_ligar.
  - apply devuelve_cob_reproducir with (n := n) (U := U).
    + intro HU. specialize (Hlen HU). rewrite Forall_forall in *.
      intros p Hp. apply Hlen, Hpad. assumption.
    + destruct (Z.to_nat (tam_poblacion cfg - Z.of_nat (length els))) eqn:E;
        [left; reflexivity|].
      right. intro H. subst padres. simpl in Hlp. lia.
  - intros nueva [hijos [-> HF]]. apply devuelve_ret.
    unfold tras_generacion. cbn [fst snd poblacion best_fit best_ind].
    fold pob.
    split; [exact Efs|]. split; [exists els, hijos; auto|].
    split; [destruct els; [destruct Hx | discriminate]|].
    split.
    { intro HU. apply Forall_app. split; [|auto].
      specialize (Hlen HU). rewrite Forall_forall in *.
      intros p Hp. apply Hlen, Hincl. assumption. }
    split; [assumption|]. split; [assumption|]. split; [assumption|].
    exists fb. split; [eapply nth_error_In; eassumption|].
    split; assumption.
Qed.

(** What a run of the loop establishes, [hist] being its record. *)
Definition tras_bucle (n : nat) (U : Prop) (gens : nat) (e : Estado)
  (r : Estado * list (list Q * Q)) : Prop :=
  let e' := fst r in
  let hist := snd r in
  length hist = gens
  /\ Sorted Qle (best_fit e :: map snd hist)
  /\ best_fit e' = last (map snd hist) (best_fit e)
  /\ best_fit e <= best_fit e'
  /\ (forall fs bf f,
         In (fs, bf) hist -> In f fs ->
         f <= best_fit e' /\ 0 <= f /\ f <= 100)
  /\ (forall fs bf, In (fs, bf) hist -> fs <> [])
  /\ ((best_fit e' = best_fit e /\ best_ind e' = best_ind e)
      \/ ((exists fs bf, In (fs, bf) hist /\ In (best_fit e') fs)
          /\ (U -> length (best_ind e') = n))).

Lemma devuelve_cob_bucle (cfg : Config) (pe ex : list Punto) (caja : Caja)
  (n : nat) (U : Prop) :
  (1 <= k_torneo cfg)%Z ->
  forall gens e,
    poblacion e <> [] ->
    (U -> Forall (fun ind => length ind = n) (poblacion e)) ->
    devuelve (bucle gens cfg pe ex caja e) (tras_bucle n U gens e).
Proof.
  intro Hk. induction gens as [|gens IH]; intros e Hne Hlen; simpl.
  - apply devuelve_ret. unfold tras_bucle. cbn [fst snd map last length].
    split; [reflexivity|]. split; [repeat constructor|].
    split; [reflexivity|]. split; [lra|].
    split; [intros fs bf f []|]. split; [intros fs bf []|].
    left. auto.
  - eapply devuelve_ligar;
      [apply (devuelve_cob_generacion cfg pe ex caja e n U); assumption|].
    intros [e1 fs] (Efs & _ & Hne1 & Hlen1 & Hmax1 & Hmono1 & Hbest1 & _).
    cbn [fst snd] in *.
    eapply devuelve_ligar; [apply (IH e1); assumption|].
    intros [e2 hist] (Hl & Hs & Hlast & Hmono & Hall & Hnev & Hbest).
    cbn [fst snd] in *.
    apply devuelve_ret. unfold tras_bucle. cbn [fst snd map length].
    split; [lia|].
    split; [constructor; [exact Hs | constructor; exact Hmono1]|].
    split; [rewrite last_cons; exact Hlast|].
    split; [lra|].
    split; [|split].
    + intros fs' bf f [Hin|Hin] Hf.
      * injection Hin as <- <-.
        split; [specialize (Hmax1 f Hf); lra|].
        eapply cob_evaluar_rango; eassumption.
      * eapply Hall; eassumption.
    + intros fs' bf [Hin|Hin]; [|eapply Hnev; eassumption].
      injection Hin as <- <-. intro H. subst fs.
      apply mapear_largo in Efs. destruct (poblacion e); [congruence|].
      discriminate.
    + destruct Hbest as [[Hb1 Hb2]|[(fs' & bf & Hin & Hf) Hn]].
      * destruct Hbest1 as [[Hc1 Hc2]|[Hc1 Hc2]].
        -- left. split; congruence.
        -- right. split.
           ++ exists fs, (best_fit e1). split; [left; reflexivity|].
              rewrite Hb1. assumption.
           ++ intro HU. rewrite Hb2. specialize (Hlen HU).
              rewrite Forall_forall in Hlen. apply Hlen. assumption.
      * right. split; [|assumption].
        exists fs', bf. split; [right|]; assumption.
Qed.

End HechosBucleCobertura.

(* ================================================================== *)
(** ** Elitism and the best individual ever seen (C6)                   *)
(* ================================================================== *)

(** The generations of a run of the coverage search, one after the other:
    [corrida cfg pe ex caja e g hist e' g'] holds when the loop goes from
    the state [e] and generator [g] to [e'] and [g'], and [hist] lists for
    each generation in turn the fitness list that [evaluar] gives for the
    population the generation starts from, with the value of [best_fit] at
    the end of the generation. *)
Inductive corrida {G : Geodesia} {A : Azar} (cfg : Cobertura.Config)
  (pe ex : list Punto) (caja : Caja)
  : Cobertura.Estado -> Rng -> list (list Q * Q) ->
    Cobertura.Estado -> Rng -> Prop :=
| corrida_fin : forall e g, corrida cfg pe ex caja e g [] e g
| corrida_paso : forall e g e1 g1 fs hist e' g',
    Cobertura.generacion cfg pe ex caja e g = Ok ((e1, fs), g1) ->
    Cobertura.evaluar cfg pe ex (Cobertura.poblacion e) = Ok fs ->
    corrida cfg pe ex caja e1 g1 hist e' g' ->
    corrida cfg pe ex caja e g
      ((fs, Cobertura.best_fit e1) :: hist) e' g'.

Lemma py_max_compat (a b b' : Q) : b == b' -> py_max a b == py_max a b'.
Proof.
  intro H. unfold py_max.
  destruct (Qltb a b) eqn:E1, (Qltb a b') eqn:E2; casos_Q; lra.
Qed.

Section HechosCorrida.

Context {G : Geodesia} {A : Azar}.

Import Cobertura.

(** The fitness list a generation returns is the evaluation of the
    population it starts from. *)
Lemma generacion_evalua (cfg : Config) (pe ex : list Punto) (caja : Caja)
  (e : Estado) :
  siempre (generacion cfg pe ex caja e)
    (fun r => evaluar cfg pe ex (poblacion e) = Ok (snd r)).
Proof.
  unfold generacion. cbv zeta.
  apply siempre_ligar
    with (P := fun fs => evaluar cfg pe ex (poblacion e) = Ok fs);
    [apply siempre_elevar; auto|].
  intros fs Efs.
  eapply siempre_ligar; [apply siempre_cierto|]. intros claves _.
  eapply siempre_ligar; [apply siempre_cierto|]. intros mejor _.
  eapply siempre_ligar; [apply siempre_cierto|]. intros fbest _.
  eapply siempre_ligar; [apply siempre_cierto|]. intros [bf bi] _.
  eapply siempre_ligar; [apply siempre_cierto|]. intros els _.
  eapply siempre_ligar; [apply siempre_cierto|]. intros padres _.
  eapply siempre_ligar; [apply siempre_cierto|]. intros nueva _.
  apply siempre_ret. exact Efs.
Qed.

Lemma bucle_corrida (cfg : Config) (pe ex : list Punto) (caja : Caja) :
  forall gens e g e' hist g',
    bucle gens cfg pe ex caja e g = Ok ((e', hist), g') ->
    corrida cfg pe ex caja e g hist e' g'.
Proof.
  induction gens as [|n IH]; intros e g e' hist g' E; cbn [bucle] in E.
  - unfold ret in E. injection E as <- <- <-. constructor.
  - unfold ligarA in E.
    destruct (generacion cfg pe ex caja e g) as [[[e1 fs] g1]|err] eqn:Eg;
      [|discriminate E].
    destruct (bucle n cfg pe ex caja e1 g1) as [[[e2 h] g2]|err] eqn:Eb;
      [|discriminate E].
    unfold ret in E. injection E as <- <- <-.
    apply corrida_paso with (g1 := g1).
    + exact Eg.
    + exact (generacion_evalua cfg pe ex caja e g (e1, fs) g1 Eg).
    + apply IH. exact Eb.
Qed.

End HechosCorrida.

(** C6.  In both searches a generation returns a next population that
    starts with the elites of the current one, copied unchanged, and whose
    elite set has a best fitness at least that of the current elite set,
    which is the best fitness of the current generation (the fitness of an
    individual is a function of the individual).  In the coverage search a
    generation leaves in [best_fit] the larger of its former value and the
    best fitness of the population it evaluated; along a run of any number
    of generations the values taken by [best_fit] never decrease, and the
    final [best_fit] bounds every fitness that [evaluar] gave for the
    population of a generation and is either the initial value or one of
    those fitnesses; from the initial value [-1] of the search, or any
    negative one, it is one of them as soon as one generation runs. *)
Theorem elitismo_y_mejor_global :
  forall (G : Geodesia) (A : Azar)
    (cfg_pc : PuntosCiegos.Config) (camaras : list Punto) (caja_pc : Caja)
    (ind_pc : Punto) (resto_pc : list Punto)
    (cfg : Cobertura.Config) (puntos_eval camaras_existentes : list Punto)
    (caja : Caja) (ind : Cobertura.Individuo)
    (resto : list Cobertura.Individuo)
    (mejor_ind : Cobertura.Individuo) (mejor_fit : Q)
    (gens : nat) (g : Rng),
    (1 <= PuntosCiegos.k_torneo cfg_pc)%Z ->
    (1 <= Cobertura.k_torneo cfg)%Z ->
    let f_pc := PuntosCiegos.fitness_individuo cfg_pc camaras in
    let e_pc := PuntosCiegos.elitismo cfg_pc in
    let f := Cobertura.fitness_individuo cfg puntos_eval camaras_existentes in
    let e := Cobertura.elitismo cfg in
    let estado :=
      {| Cobertura.poblacion := ind :: resto;
         Cobertura.best_ind := mejor_ind;
         Cobertura.best_fit := mejor_fit |} in
    (exists nueva g' m0 m m' fs els hijos,
        PuntosCiegos.generacion cfg_pc camaras caja_pc (ind_pc :: resto_pc) g
        = Ok (nueva, g')
        /\ mejor_observado f_pc (ind_pc :: resto_pc) = Ok m0
        /\ mejor_elite f_pc e_pc (ind_pc :: resto_pc) = Ok m
        /\ mejor_elite f_pc e_pc nueva = Ok m'
        /\ m0 == m /\ m <= m'
        /\ PuntosCiegos.evaluar cfg_pc camaras (ind_pc :: resto_pc) = Ok fs
        /\ elites_de (ind_pc :: resto_pc) fs e_pc = Ok els
        /\ nueva = els ++ hijos)
    /\ (exists estado' fs g' m0 m m' els hijos,
        Cobertura.generacion cfg puntos_eval camaras_existentes caja estado g
        = Ok ((estado', fs), g')
        /\ mejor_observado f (ind :: resto) = Ok m0
        /\ mejor_elite f e (ind :: resto) = Ok m
        /\ mejor_elite f e (Cobertura.poblacion estado') = Ok m'
        /\ m0 == m /\ m <= m'
        /\ Cobertura.evaluar cfg puntos_eval camaras_existentes (ind :: resto)
           = Ok fs
        /\ elites_de (ind :: resto) fs e = Ok els
        /\ Cobertura.poblacion estado' = els ++ hijos
        /\ Cobertura.best_fit estado' == py_max mejor_fit m0)
    /\ (exists estado' hist g',
        Cobertura.bucle gens cfg puntos_eval camaras_existentes caja estado g
        = Ok ((estado', hist), g')
        /\ corrida cfg puntos_eval camaras_existentes caja estado g hist
             estado' g'
        /\ length hist = gens
        /\ Sorted Qle (mejor_fit :: map snd hist)
        /\ Cobertura.best_fit estado' = last (map snd hist) mejor_fit
        /\ (forall fs bf v,
               In (fs, bf) hist -> In v fs ->
               v <= Cobertura.best_fit estado')
        /\ (Cobertura.best_fit estado' = mejor_fit
            \/ exists fs bf,
                In (fs, bf) hist /\ In (Cobertura.best_fit estado') fs)
        /\ (mejor_fit < 0 -> gens <> O ->
            exists fs bf,
              In (fs, bf) hist /\ In (Cobertura.best_fit estado') fs)).
Proof.
  intros G A cfg_pc camaras caja_pc ind_pc resto_pc cfg pe ex caja ind resto
    bi bf gens g Hk_pc Hk f_pc e_pc f e estado.
  split; [|split].
  - destruct (devuelve_pc_generacion cfg_pc camaras caja_pc
                (ind_pc :: resto_pc)) with (g := g)
      as (nueva & g' & Eg & fs & els & hijos & Efs & Eel & Hn);
      [discriminate | assumption |].
    destruct (elitismo_monotono f_pc (pc_fitness_total cfg_pc camaras)
                e_pc (ind_pc :: resto_pc) nueva hijos els fs)
      as (m0 & m & m' & H1 & H2 & H3 & H4 & H5); try assumption;
      [discriminate|].
    exists nueva, g', m0, m, m', fs, els, hijos.
    repeat (split; [assumption|]). assumption.
  - destruct (devuelve_cob_generacion cfg pe ex caja estado O False)
      with (g := g)
      as ([e' fs] & g' & Eg & Efs & (els & hijos & Eel & Hn) & _ & _ & _ & _
          & _ & fb & Hfb & Hfmax & Hpm);
      [discriminate | intros [] | assumption |].
    cbn [fst snd] in *.
    destruct (elitismo_monotono f (cob_fitness_total cfg pe ex)
                e (ind :: resto) (Cobertura.poblacion e') hijos els fs)
      as (m0 & m & m' & H1 & H2 & H3 & H4 & H5); try assumption;
      [discriminate|].
    exists e', fs, g', m0, m, m', els, hijos.
    repeat (split; [assumption|]).
    destruct (mejor_observado_ok f (cob_fitness_total cfg pe ex)
                (ind :: resto)) as (fs0 & m1 & Efs0 & Em1 & Hm1 & Hmax1);
      [discriminate|].
    change (mapear f (ind :: resto) = Ok fs) in Efs.
    rewrite Efs in Efs0. injection Efs0 as <-.
    rewrite H1 in Em1. injection Em1 as <-.
    rewrite Hpm. apply py_max_compat.
    apply Qle_antisym; [apply Hmax1 | apply Hfmax]; assumption.
  - destruct (devuelve_cob_bucle cfg pe ex caja O False Hk gens estado)
      with (g := g)
      as ([e' hist] & g' & Eg & Hl & Hs & Hlast & Hmono & Hall & Hnev & Hb);
      [discriminate | intros [] |].
    cbn [fst snd] in *.
    assert (Hdis : Cobertura.best_fit e' = bf
                   \/ exists fs b,
                       In (fs, b) hist /\ In (Cobertura.best_fit e') fs).
    { destruct Hb as [[Hb _]|[Hb _]]; [left | right]; assumption. }
    exists e', hist, g'.
    split; [exact Eg|].
    split; [apply (bucle_corrida cfg pe ex caja gens); exact Eg|].
    split; [exact Hl|]. split; [exact Hs|].
    split; [exact Hlast|].
    split; [intros fs b v H1 H2; apply (Hall fs b v H1 H2)|].
    split; [exact Hdis|].
    intros Hneg Hg. destruct Hdis as [Hd|Hd]; [|exact Hd].
    exfalso. destruct hist as [|[fs b] hist']; [simpl in Hl; congruence|].
    assert (Hin : In (fs, b) ((fs, b) :: hist')) by (left; reflexivity).
    pose proof (Hnev fs b Hin) as Hfs.
    destruct fs as [|v fs']; [congruence|].
    destruct (Hall (v :: fs') b v Hin (or_introl eq_refl)) as (H1 & H2 & _).
    rewrite Hd in H1. simpl in Hneg. lra.
Qed.

(** A population of one individual, for a run of the statements above. *)
Definition cfg_pc_ejemplo : PuntosCiegos.Config := {|
  PuntosCiegos.tam_poblacion := 2;
  PuntosCiegos.generaciones := 1;
  PuntosCiegos.num_puntos_resultado := 2;
  PuntosCiegos.min_separacion_m := 180;
  PuntosCiegos.radio_cobertura_m := 80;
  PuntosCiegos.max_interes_m := 350;
  PuntosCiegos.max_extrapolacion_m := 900;
  PuntosCiegos.k_vecinos := 4;
  PuntosCiegos.elitismo := 1;
  PuntosCiegos.k_torneo := 2;
  PuntosCiegos.alpha_blx := 1 # 2;
  PuntosCiegos.bbox_margin_factor := 15 # 100
|}.

Definition cfg_cob_ejemplo : Cobertura.Config := {|
  Cobertura.n_camaras_nuevas := 1;
  Cobertura.radio_m := 120;
  Cobertura.puntos_eval := Some [(0, 0); (1 # 1000, 1 # 1000)];
  Cobertura.step_grid_m := 150;
  Cobertura.grid_max_points := 6000;
  Cobertura.tam_poblacion := 2;
  Cobertura.generaciones := 1;
  Cobertura.elitismo := 1;
  Cobertura.k_torneo := 2;
  Cobertura.alpha_blx := 1 # 2;
  Cobertura.bbox_margin_factor := 12 # 100;
  Cobertura.penalizar_sobrecobertura := true;
  Cobertura.penalizar_cercania := true;
  Cobertura.min_dist_entre_nuevas_m := 180;
  Cobertura.min_dist_a_existentes_m := 60;
  Cobertura.peso_cercania := 10;
  Cobertura.puntos_semilla := None;
  Cobertura.prob_usar_semilla := 6 # 10
|}.

Definition caja_ejemplo : Caja :=
  {| min_lat := 0; max_lat := 1 # 100; min_lon := 0; max_lon := 1 # 100 |}.

Lemma elitismo_y_mejor_global_ejemplo :
  let G := geodesia_plana in
  let A := azar_lcg in
  let camaras := [(0, 0); (1 # 100, 1 # 100)] in
  let poblacion_pc := [(1 # 200, 1 # 200); (1 # 1000, 0)] in
  let pe := [(0, 0); (1 # 1000, 1 # 1000)] in
  let ex := [(0, 0)] in
  let poblacion_cob := [[(1 # 200, 1 # 200)]; [(1 # 1000, 0)]] in
  let f_pc := PuntosCiegos.fitness_individuo (G := G) cfg_pc_ejemplo camaras in
  let f := Cobertura.fitness_individuo (G := G) cfg_cob_ejemplo pe ex in
  let estado :=
    {| Cobertura.poblacion := poblacion_cob;
       Cobertura.best_ind := [];
       Cobertura.best_fit := - (1) |} in
  (exists nueva g' m0 m m' fs els hijos,
      PuntosCiegos.generacion (G := G) (A := A) cfg_pc_ejemplo camaras
        caja_ejemplo poblacion_pc 7%Z = Ok (nueva, g')
      /\ mejor_observado f_pc poblacion_pc = Ok m0
      /\ mejor_elite f_pc 1 poblacion_pc = Ok m
      /\ mejor_elite f_pc 1 nueva = Ok m'
      /\ m0 == m /\ m <= m'
      /\ PuntosCiegos.evaluar (G := G) cfg_pc_ejemplo camaras poblacion_pc
         = Ok fs
      /\ elites_de poblacion_pc fs 1 = Ok els
      /\ nueva = els ++ hijos)
  /\ (exists estado' fs g' m0 m m' els hijos,
      Cobertura.generacion (G := G) (A := A) cfg_cob_ejemplo pe ex
        caja_ejemplo estado 7%Z = Ok ((estado', fs), g')
      /\ mejor_observado f poblacion_cob = Ok m0
      /\ mejor_elite f 1 poblacion_cob = Ok m
      /\ mejor_elite f 1 (Cobertura.poblacion estado') = Ok m'
      /\ m0 == m /\ m <= m'
      /\ Cobertura.evaluar (G := G) cfg_cob_ejemplo pe ex poblacion_cob
         = Ok fs
      /\ elites_de poblacion_cob fs 1 = Ok els
      /\ Cobertura.poblacion estado' = els ++ hijos
      /\ Cobertura.best_fit estado' == py_max (- (1)) m0)
  /\ (exists estado' hist g',
      Cobertura.bucle (G := G) (A := A) 2 cfg_cob_ejemplo pe ex
        caja_ejemplo estado 7%Z = Ok ((estado', hist), g')
      /\ corrida (G := G) (A := A) cfg_cob_ejemplo pe ex caja_ejemplo
           estado 7%Z hist estado' g'
      /\ length hist = 2%nat
      /\ Sorted Qle (- (1) :: map snd hist)
      /\ Cobertura.best_fit estado' = last (map snd hist) (- (1))
      /\ (forall fs bf v,
             In (fs, bf) hist -> In v fs ->
             v <= Cobertura.best_fit estado')
      /\ exists fs bf,
          In (fs, bf) hist /\ In (Cobertura.best_fit estado') fs).
Proof.
  intros G A camaras poblacion_pc pe ex poblacion_cob f_pc f estado.
  destruct (elitismo_y_mejor_global G A
              cfg_pc_ejemplo camaras caja_ejemplo
              (1 # 200, 1 # 200) [(1 # 1000, 0)]
              cfg_cob_ejemplo pe ex
              caja_ejemplo [(1 # 200, 1 # 200)] [[(1 # 1000, 0)]]
              [] (- (1)) 2%nat 7%Z)
    as (H1 & H2
        & (e' & hist & g' & E & Hc & Hl & Hs & Hlast & Hall & _ & Hat)).
  - simpl. lia.
  - simpl. lia.
  - split; [exact H1|]. split; [exact H2|].
    exists e', hist, g'. repeat (split; [assumption|]).
    apply Hat; [reflexivity | discriminate].
Defined.

(* ================================================================== *)
(** ** The two entry points                                             *)
(* ================================================================== *)

Lemma caja_ampliada_ok (c : Punto) (cs : list Punto) (margin : Q) :
  exists caja, caja_ampliada (c :: cs) margin = Ok caja.
Proof.
  unfold caja_ampliada.
  destruct (bbox_ok c cs) as (a & b & c' & d & Hb). rewrite Hb.
  cbn [ligar]. eexists. reflexivity.
Qed.

Section HechosEntradaPuntosCiegos.

Context {G : Geodesia} {A : Azar}.

Import PuntosCiegos.

Lemma pc_generacion_vacia (cfg : Config) (camaras : list Punto)
  (caja : Caja) (g : Rng) :
  (tam_poblacion cfg <= 0)%Z ->
  generacion cfg camaras caja [] g = Ok ([], g).
Proof.
  intro Ht. unfold generacion, ligarA, elevar. cbn [evaluar mapear].
  unfold elites_de, orden_por_fitness. cbn [indices length seq con_clave
    mapear ligar sorted_key_reverse fold_right map].
  rewrite firstn_nil. cbn [mapear].
  unfold seleccion_torneo.
  replace (Z.to_nat (tam_poblacion cfg)) with O by lia.
  cbn [repetir ret length].
  replace (Z.to_nat (tam_poblacion cfg - Z.of_nat 0)) with O by lia.
  reflexivity.
Qed.

Lemma pc_bucle_vacio (cfg : Config) (camaras : list Punto) (caja : Caja)
  (g : Rng) :
  (tam_poblacion cfg <= 0)%Z ->
  forall gens, bucle gens cfg camaras caja [] g = Ok ([], g).
Proof.
  intros Ht gens. induction gens as [|gens IH]; [reflexivity|].
  simpl. unfold ligarA. rewrite pc_generacion_vacia by assumption.
  exact IH.
Qed.

Lemma pc_sin_poblacion (c : Punto) (cs : list Punto) (cfg : Config)
  (g : Rng) :
  (tam_poblacion cfg <= 0)%Z ->
  algoritmo_genetico_puntos_ciegos (c :: cs) cfg g = Ok ([], g).
Proof.
  intro Ht. unfold algoritmo_genetico_puntos_ciegos.
  destruct (caja_ampliada_ok c cs (bbox_margin_factor cfg)) as [caja Hc].
  unfold ligarA at 1. unfold elevar at 1. rewrite Hc.
  replace (Z.to_nat (tam_poblacion cfg)) with O by lia.
  unfold ligarA at 1. cbn [repetir ret].
  unfold ligarA at 1. rewrite pc_bucle_vacio by assumption.
  unfold ligarA, elevar, ret.
  cbn [evaluar mapear combine map sorted_key_reverse fold_right].
  unfold seleccionar_espaciados. cbn [pasada_separada rellenar length].
  destruct (_ <? _)%Z; reflexivity.
Qed.

End HechosEntradaPuntosCiegos.

Section HechosEntradaCobertura.

Context {G : Geodesia} {A : Azar}.

Import Cobertura.

Lemma devuelve_mejorar_cobertura (gas : nat) (c : Punto) (cs : list Punto)
  (cfg : Config) :
  (puntos_eval cfg = None ->
   devuelve
     (generar_grid_puntos gas (c :: cs) (step_grid_m cfg) (6 # 100)
        (grid_max_points cfg))
     (fun _ => True)) ->
  ((0 <= n_camaras_nuevas cfg)%Z \/ puntos_semilla cfg = None) ->
  ((generaciones cfg <= 0)%Z
   \/ ((1 <= tam_poblacion cfg)%Z /\ (1 <= k_torneo cfg)%Z)) ->
  devuelve (algoritmo_genetico_mejorar_cobertura gas (c :: cs) cfg)
    (fun r =>
       ((generaciones cfg <= 0)%Z ->
        camaras_nuevas r = [] /\ fitness r = - (1))
       /\ ((1 <= generaciones cfg)%Z ->
           length (camaras_nuevas r) = Z.to_nat (n_camaras_nuevas cfg)
           /\ 0 <= fitness r /\ fitness r <= 100)).
Proof.
  intros Hgrid Hn Hgen. unfold algoritmo_genetico_mejorar_cobertura.
  apply devuelve_ligar with (P := fun _ => True).
  { destruct (puntos_eval cfg) as [pts|].
    - apply devuelve_ret. exact I.
    - apply Hgrid. reflexivity. }
  intros pe0 _.
  apply devuelve_ligar with (P := fun _ => True).
  { destruct pe0 as [|p ps].
    - eapply devuelve_implica; [apply devuelve_sample; lia | auto].
    - apply devuelve_ret. exact I. }
  intros pe _.
  destruct (caja_ampliada_ok c cs (bbox_margin_factor cfg)) as [caja Hc].
  apply devuelve_ligar with (P := fun v => v = caja);
    [eapply devuelve_elevar; [exact Hc | reflexivity]|].
  intros ? ->.
  eapply devuelve_ligar.
  { apply devuelve_repetir. apply devuelve_crear_individuo.
    destruct Hn as [Hn|Hn]; [left; assumption|].
    right. rewrite Hn. reflexivity. }
  intros pob [Hlp Hlen].
  set (e0 := {| poblacion := pob; best_ind := []; best_fit := - (1) |}).
  apply devuelve_ligar
    with (P := fun r : Estado * list (list Q * Q) =>
                 ((generaciones cfg <= 0)%Z ->
                  best_ind (fst r) = [] /\ best_fit (fst r) = - (1))
                 /\ ((1 <= generaciones cfg)%Z ->
                     length (best_ind (fst r))
                     = Z.to_nat (n_camaras_nuevas cfg)
                     /\ 0 <= best_fit (fst r) /\ best_fit (fst r) <= 100)).
  { destruct (Z.to_nat (generaciones cfg)) as [|k] eqn:Eg.
    - apply devuelve_ret. cbn [fst]. split; [auto|]. lia.
    - destruct Hgen as [Hgen|[Ht Hk]]; [lia|].
      rewrite <- Eg.
      eapply devuelve_implica.
      + apply (devuelve_cob_bucle cfg pe (c :: cs) caja
                 (Z.to_nat (n_camaras_nuevas cfg)) True Hk
                 (Z.to_nat (generaciones cfg)) e0).
        * intro H. simpl in H. subst pob. simpl in Hlp. lia.
        * intros _. exact Hlen.
      + intros [e' hist] (Hl & _ & _ & _ & Hall & Hnev & Hb).
        cbn [fst snd] in *. split; [lia|]. intros _.
        destruct Hb as [[Hb _]|[(fs & bf & Hin & Hf) Hn']].
        * exfalso.
          destruct hist as [|[fs b] hist']; [simpl in Hl; lia|].
          assert (Hin : In (fs, b) ((fs, b) :: hist'))
            by (left; reflexivity).
          pose proof (Hnev fs b Hin) as Hfs.
          destruct fs as [|v fs']; [congruence|].
          destruct (Hall (v :: fs') b v Hin (or_introl eq_refl))
            as (H1 & H2 & _).
          rewrite Hb in H1. simpl in H1. lra.
        * split; [apply Hn'; exact I|].
          destruct (Hall fs bf _ Hin Hf) as (_ & H2 & H3). auto. }
  intros [e' hist] Hr. cbn [fst] in Hr.
  destruct (metricas_forma pe ((c :: cs) ++ best_ind e') (radio_m cfg))
    as (ct & sc & n1 & n2 & n3 & Hm).
  apply devuelve_ligar with (P := fun _ => True);
    [eapply devuelve_elevar; [exact Hm | exact I]|].
  intros met _. apply devuelve_ret. exact Hr.
Qed.

End HechosEntradaCobertura.

(* ================================================================== *)
(** ** The result of the coverage search (C3)                           *)
(* ================================================================== *)

Lemma elites_de_incl {X : Type} (pob : list X) (fs : list Q) (e : Z)
  (els : list X) :
  elites_de pob fs e = Ok els -> incl els pob.
Proof.
  unfold elites_de.
  destruct (orden_por_fitness pob fs) as [orden|err]; [|discriminate].
  cbn [ligar]. intro H. apply mapear_Forall2 in H.
  intros x Hx. destruct (Forall2_In_der _ _ _ x H Hx) as [i [_ Hi]].
  apply py_index_In in Hi. tauto.
Qed.

Section HechosValorCobertura.

Context {G : Geodesia} {A : Azar}.

Import Cobertura.

(** Whatever the seeds and the requested count, an individual that
    [_crear_individuo] returns has [max(0, n_camaras_nuevas)] points. *)
Lemma siempre_crear_individuo (cfg : Config) (existentes : list Punto)
  (caja : Caja) (semillas : list Punto) :
  siempre (_crear_individuo cfg existentes caja semillas)
    (fun ind => length ind = Z.to_nat (n_camaras_nuevas cfg)).
Proof.
  unfold _crear_individuo.
  apply siempre_ligar
    with (P := fun ind : Individuo =>
                 (Z.of_nat (length ind) <= Z.max 0 (n_camaras_nuevas cfg))%Z).
  - destruct semillas as [|s ss].
    + apply siempre_ret. simpl. lia.
    + eapply siempre_ligar; [apply siempre_cierto|]. intros u _.
      destruct (Qltb u (prob_usar_semilla cfg)).
      * eapply siempre_implica; [apply siempre_sample|].
        intros xs (H0 & Hl & _). rewrite Hl. lia.
      * apply siempre_ret. simpl. lia.
  - intros ind Hind.
    eapply siempre_ligar; [apply devuelve_siempre, devuelve_completar|].
    intros ind' Hind'.
    eapply siempre_implica; [apply devuelve_siempre, devuelve_reparar|].
    intros o Ho. rewrite Ho, length_map, Hind'. lia.
Qed.

Lemma siempre_cob_reproducir (cfg : Config) (existentes : list Punto)
  (caja : Caja) (padres : list Individuo) (n : nat) :
  Forall (fun p => length p = n) padres ->
  forall faltan nueva,
    siempre (reproducir faltan cfg existentes caja padres nueva)
      (fun r =>
         exists hijos,
           r = nueva ++ hijos /\ Forall (fun h => length h = n) hijos).
Proof.
  intro Hpad. rewrite Forall_forall in Hpad.
  induction faltan as [|k IH]; intro nueva; simpl.
  - apply siempre_ret. exists []. rewrite app_nil_r. auto.
  - eapply siempre_ligar; [apply siempre_choice|]. intros p1 Hp1.
    eapply siempre_ligar; [apply siempre_choice|]. intros p2 Hp2.
    eapply siempre_ligar;
      [apply devuelve_siempre, devuelve_cruzar_individuo|].
    intros h Hh.
    eapply siempre_ligar;
      [apply devuelve_siempre, devuelve_mutar_individuo|].
    intros h' Hh'.
    eapply siempre_ligar; [apply devuelve_siempre, devuelve_reparar|].
    intros h'' Hh''. rewrite length_map in Hh''.
    eapply siempre_implica; [apply IH|].
    intros r [hijos [-> HF]]. exists (h'' :: hijos).
    rewrite <- app_assoc. split; [reflexivity|].
    constructor; [|assumption].
    rewrite Hh'', Hh', Hh, (Hpad _ Hp1), (Hpad _ Hp2). apply Nat.min_id.
Qed.

(** The state after at least one generation: every individual and the
    best one have [n] points and [best_fit] lies in [0, 100]. *)
Definition estado_formado (n : nat) (e : Estado) : Prop :=
  Forall (fun ind => length ind = n) (poblacion e)
  /\ length (best_ind e) = n
  /\ 0 <= best_fit e /\ best_fit e <= 100.

Lemma siempre_cob_generacion (cfg : Config) (pe ex : list Punto)
  (caja : Caja) (e : Estado) (n : nat) :
  Forall (fun ind => length ind = n) (poblacion e) ->
  best_fit e < 0 \/ estado_formado n e ->
  siempre (generacion cfg pe ex caja e)
    (fun r => estado_formado n (fst r)).
Proof.
  intros Hlen Hbest. unfold generacion. cbv zeta.
  set (pob := poblacion e) in *.
  apply siempre_ligar with (P := fun fs => evaluar cfg pe ex pob = Ok fs);
    [apply siempre_elevar; auto|].
  intros fs Efs.
  eapply siempre_ligar; [apply siempre_cierto|]. intros claves _.
  eapply siempre_ligar; [apply siempre_cierto|]. intros mejor _.
  apply siempre_ligar with (P := fun fb => In fb fs).
  { apply siempre_elevar. intros x Hx. apply py_index_In in Hx. tauto. }
  intros fb Hfb.
  destruct (cob_evaluar_rango cfg pe ex pob fs Efs fb Hfb) as [H0 H100].
  apply siempre_ligar
    with (P := fun v : Q * Individuo =>
                 length (snd v) = n /\ 0 <= fst v /\ fst v <= 100).
  { destruct (Qltb (best_fit e) fb) eqn:E; casos_Q.
    - apply siempre_ligar with (P := fun ind => In ind pob).
      { apply siempre_elevar. intros x Hx. apply py_index_In in Hx. tauto. }
      intros ind Hind. apply siempre_ret. cbn [fst snd].
      split; [|split; assumption].
      rewrite Forall_forall in Hlen. apply Hlen. assumption.
    - apply siempre_ret. cbn [fst snd].
      destruct Hbest as [Hneg|(_ & Hb)]; [lra | exact Hb]. }
  intros [bf bi] (Hbi & Hbf0 & Hbf100). cbn [fst snd] in *.
  apply siempre_ligar with (P := fun els => incl els pob).
  { apply siempre_elevar. intros els Eel.
    apply (elites_de_incl _ _ _ _ Eel). }
  intros els Hincl.
  apply siempre_ligar with (P := Forall (fun x => In x pob));
    [apply siempre_seleccion_torneo|].
  intros padres Hpad.
  eapply siempre_ligar.
  - apply siempre_cob_reproducir with (n := n).
    rewrite Forall_forall in *. intros p Hp. apply Hlen, Hpad. assumption.
  - intros nueva [hijos [-> HF]]. apply siempre_ret.
    unfold estado_formado. cbn [fst poblacion best_ind best_fit].
    split; [|auto].
    apply Forall_app. split; [|assumption].
    rewrite Forall_forall in *. intros p Hp. apply Hlen, Hincl. assumption.
Qed.

Lemma siempre_cob_bucle (cfg : Config) (pe ex : list Punto) (caja : Caja)
  (n : nat) :
  forall gens e,
    Forall (fun ind => length ind = n) (poblacion e) ->
    (best_fit e < 0 /\ gens <> O) \/ estado_formado n e ->
    siempre (bucle gens cfg pe ex caja e)
      (fun r => estado_formado n (fst r)).
Proof.
  induction gens as [|gens IH]; intros e Hlen Hbest; cbn [bucle].
  - apply siempre_ret. cbn [fst].
    destruct Hbest as [[_ H]|H]; [congruence | exact H].
  - eapply siempre_ligar.
    + apply (siempre_cob_generacion cfg pe ex caja e n Hlen).
      destruct Hbest as [[H _]|H]; [left | right]; assumption.
    + intros [e1 fs] He1. cbn [fst] in He1.
      eapply siempre_ligar.
      * apply (IH e1); [apply He1 | right; exact He1].
      * intros [e2 hist] He2. cbn [fst] in He2.
        apply siempre_ret. exact He2.
Qed.

(** What the coverage search returns, when it returns. *)
Lemma siempre_mejorar_cobertura (gas : nat) (c : Punto) (cs : list Punto)
  (cfg : Config) :
  siempre (algoritmo_genetico_mejorar_cobertura gas (c :: cs) cfg)
    (fun r =>
       ((generaciones cfg <= 0)%Z ->
        camaras_nuevas r = [] /\ fitness r = - (1))
       /\ ((1 <= generaciones cfg)%Z ->
           length (camaras_nuevas r) = Z.to_nat (n_camaras_nuevas cfg)
           /\ 0 <= fitness r /\ fitness r <= 100)).
Proof.
  unfold algoritmo_genetico_mejorar_cobertura. cbv zeta.
  eapply siempre_ligar; [apply siempre_cierto|]. intros pe0 _.
  eapply siempre_ligar; [apply siempre_cierto|]. intros pe _.
  eapply siempre_ligar; [apply siempre_cierto|]. intros caja _.
  eapply siempre_ligar;
    [apply siempre_repetir, siempre_crear_individuo|].
  intros pob [_ Hlen].
  set (e0 := {| poblacion := pob; best_ind := []; best_fit := - (1) |}).
  apply siempre_ligar
    with (P := fun r : Estado * list (list Q * Q) =>
                 ((generaciones cfg <= 0)%Z ->
                  best_ind (fst r) = [] /\ best_fit (fst r) = - (1))
                 /\ ((1 <= generaciones cfg)%Z ->
                     length (best_ind (fst r))
                     = Z.to_nat (n_camaras_nuevas cfg)
                     /\ 0 <= best_fit (fst r) /\ best_fit (fst r) <= 100)).
  { destruct (Z.to_nat (generaciones cfg)) as [|k] eqn:Eg.
    - apply siempre_ret. cbn [fst]. split; [auto|]. lia.
    - rewrite <- Eg. eapply siempre_implica.
      + apply (siempre_cob_bucle cfg pe (c :: cs) caja
                 (Z.to_nat (n_camaras_nuevas cfg))
                 (Z.to_nat (generaciones cfg)) e0 Hlen).
        left. split; [simpl; lra | lia].
      + intros r (_ & H). split; [lia | intros _; exact H]. }
  intros [e' hist] Hr. cbn [fst] in Hr.
  eapply siempre_ligar; [apply siempre_cierto|]. intros met _.
  apply siempre_ret. exact Hr.
Qed.

End HechosValorCobertura.

(** C3 (amended).  For a non-empty camera input, a requested count
    [n >= 0] and at least one generation, whenever the coverage search
    returns, it returns exactly [n] new cameras and a fitness in
    [0, 100]; crossover of two parents of equal length and mutation return
    an individual of the same length, and so does repair whenever it
    returns. *)
Theorem mejorar_cobertura_devuelve_n :
  forall (G : Geodesia) (A : Azar) (c : Punto) (cs : list Punto)
    (cfg : Cobertura.Config),
    (0 <= Cobertura.n_camaras_nuevas cfg)%Z ->
    (1 <= Cobertura.generaciones cfg)%Z ->
    (forall (gas : nat) (g : Rng) (r : Cobertura.Resultado) (g' : Rng),
        Cobertura.algoritmo_genetico_mejorar_cobertura gas (c :: cs) cfg g
        = Ok (r, g') ->
        Z.of_nat (length (Cobertura.camaras_nuevas r))
        = Cobertura.n_camaras_nuevas cfg
        /\ 0 <= Cobertura.fitness r /\ Cobertura.fitness r <= 100)
    /\ (forall (p1 p2 : Cobertura.Individuo) (caja : Caja) (g0 : Rng),
          length p1 = length p2 ->
          (exists h g1,
              Cobertura._cruzar_individuo_blx p1 p2 (Cobertura.alpha_blx cfg)
                g0
              = Ok (h, g1) /\ length h = length p1)
          /\ (exists h g1,
              Cobertura._mutar_individuo_gauss
                p1 caja (35 # 100) (7 # 10000) (7 # 10000) g0
              = Ok (h, g1) /\ length h = length p1)
          /\ (forall h g1,
              Cobertura._repair_separacion p1 (c :: cs) caja
                (Cobertura.min_dist_entre_nuevas_m cfg)
                (Cobertura.min_dist_a_existentes_m cfg) 35 g0
              = Ok (h, g1) -> length h = length p1)).
Proof.
  intros G A c cs cfg Hn Hg. split.
  - intros gas g r g' E.
    destruct (siempre_mejorar_cobertura gas c cs cfg g r g' E) as [_ H].
    destruct (H Hg) as (Hl & H0 & H100).
    split; [rewrite Hl; lia | split; assumption].
  - intros p1 p2 caja g0 Hl. split; [|split].
    + destruct (devuelve_cruzar_individuo p1 p2 (Cobertura.alpha_blx cfg) g0)
        as (h & g1 & E1 & Hh).
      exists h, g1. split; [exact E1|]. rewrite Hh, <- Hl. apply Nat.min_id.
    + destruct (devuelve_mutar_individuo p1 caja (35 # 100) (7 # 10000)
                  (7 # 10000) g0) as (h & g1 & E1 & Hh).
      exists h, g1. split; assumption.
    + intros h g1 E1.
      exact (devuelve_siempre _ _
               (devuelve_repair_separacion p1 (c :: cs) caja
                  (Cobertura.min_dist_entre_nuevas_m cfg)
                  (Cobertura.min_dist_a_existentes_m cfg) 35)
               g0 h g1 E1).
Qed.

(** The example configuration with no evaluation grid supplied: the
    search builds its own, of spacing 50 m. *)
Definition cfg_cob_rejilla : Cobertura.Config := {|
  Cobertura.n_camaras_nuevas := 1;
  Cobertura.radio_m := 120;
  Cobertura.puntos_eval := None;
  Cobertura.step_grid_m := 50;
  Cobertura.grid_max_points := 6000;
  Cobertura.tam_poblacion := 2;
  Cobertura.generaciones := 1;
  Cobertura.elitismo := 1;
  Cobertura.k_torneo := 2;
  Cobertura.alpha_blx := 1 # 2;
  Cobertura.bbox_margin_factor := 12 # 100;
  Cobertura.penalizar_sobrecobertura := true;
  Cobertura.penalizar_cercania := true;
  Cobertura.min_dist_entre_nuevas_m := 180;
  Cobertura.min_dist_a_existentes_m := 60;
  Cobertura.peso_cercania := 10;
  Cobertura.puntos_semilla := None;
  Cobertura.prob_usar_semilla := 6 # 10
|}.

(** A run that returns: two cameras a thousandth of a degree apart in each
    coordinate, one camera asked for, a population of two, one generation,
    the grid built by the search. *)
Lemma mejorar_cobertura_devuelve_n_ejemplo :
  exists r g',
    Cobertura.algoritmo_genetico_mejorar_cobertura
      (G := geodesia_plana) (A := azar_lcg) 20
      [(0, 0); (1 # 1000, 1 # 1000)] cfg_cob_rejilla 7%Z
    = Ok (r, g')
    /\ Z.of_nat (length (Cobertura.camaras_nuevas r)) = 1%Z
    /\ 0 <= Cobertura.fitness r /\ Cobertura.fitness r <= 100.
Proof.
  destruct (Cobertura.algoritmo_genetico_mejorar_cobertura
              (G := geodesia_plana) (A := azar_lcg) 20
              [(0, 0); (1 # 1000, 1 # 1000)] cfg_cob_rejilla 7%Z)
    as [[r g']|err] eqn:E; [|vm_compute in E; discriminate E].
  exists r, g'. split; [reflexivity|].
  destruct (mejorar_cobertura_devuelve_n geodesia_plana azar_lcg (0, 0)
              [(1 # 1000, 1 # 1000)] cfg_cob_rejilla)
    as [H _].
  - simpl. lia.
  - simpl. lia.
  - exact (H 20%nat 7%Z r g' E).
Defined.

(** The example configuration with no generation to run. *)
Definition cfg_cob_sin_generaciones : Cobertura.Config := {|
  Cobertura.n_camaras_nuevas := 1;
  Cobertura.radio_m := 120;
  Cobertura.puntos_eval := Some [(0, 0); (1 # 1000, 1 # 1000)];
  Cobertura.step_grid_m := 150;
  Cobertura.grid_max_points := 6000;
  Cobertura.tam_poblacion := 2;
  Cobertura.generaciones := 0;
  Cobertura.elitismo := 1;
  Cobertura.k_torneo := 2;
  Cobertura.alpha_blx := 1 # 2;
  Cobertura.bbox_margin_factor := 12 # 100;
  Cobertura.penalizar_sobrecobertura := true;
  Cobertura.penalizar_cercania := true;
  Cobertura.min_dist_entre_nuevas_m := 180;
  Cobertura.min_dist_a_existentes_m := 60;
  Cobertura.peso_cercania := 10;
  Cobertura.puntos_semilla := None;
  Cobertura.prob_usar_semilla := 6 # 10
|}.

(** The example configuration asked for a negative number of cameras. *)
Definition cfg_cob_cuenta_negativa : Cobertura.Config := {|
  Cobertura.n_camaras_nuevas := -1;
  Cobertura.radio_m := 120;
  Cobertura.puntos_eval := Some [(0, 0); (1 # 1000, 1 # 1000)];
  Cobertura.step_grid_m := 150;
  Cobertura.grid_max_points := 6000;
  Cobertura.tam_poblacion := 2;
  Cobertura.generaciones := 1;
  Cobertura.elitismo := 1;
  Cobertura.k_torneo := 2;
  Cobertura.alpha_blx := 1 # 2;
  Cobertura.bbox_margin_factor := 12 # 100;
  Cobertura.penalizar_sobrecobertura := true;
  Cobertura.penalizar_cercania := true;
  Cobertura.min_dist_entre_nuevas_m := 180;
  Cobertura.min_dist_a_existentes_m := 60;
  Cobertura.peso_cercania := 10;
  Cobertura.puntos_semilla := None;
  Cobertura.prob_usar_semilla := 6 # 10
|}.

(** C3, as stated, fails: with [generaciones = 0] the loop never assigns
    [best_ind] and [best_fit], and the search returns no camera, where one
    was requested, and the fitness [-1]; and with a requested count of [-1]
    it returns a list of no camera. *)
Lemma mejorar_cobertura_sin_generaciones :
  (exists r g',
      Cobertura.algoritmo_genetico_mejorar_cobertura
        (G := geodesia_plana) (A := azar_lcg) 0 [(0, 0)]
        cfg_cob_sin_generaciones 7%Z = Ok (r, g')
      /\ Cobertura.n_camaras_nuevas cfg_cob_sin_generaciones = 1%Z
      /\ Cobertura.camaras_nuevas r = []
      /\ Cobertura.fitness r = - (1))
  /\ (exists r g',
      Cobertura.algoritmo_genetico_mejorar_cobertura
        (G := geodesia_plana) (A := azar_lcg) 0 [(0, 0)]
        cfg_cob_cuenta_negativa 7%Z = Ok (r, g')
      /\ Cobertura.n_camaras_nuevas cfg_cob_cuenta_negativa = (-1)%Z
      /\ length (Cobertura.camaras_nuevas r) = O).
Proof.
  split.
  - destruct (devuelve_mejorar_cobertura (G := geodesia_plana)
                (A := azar_lcg) 0 (0, 0) [] cfg_cob_sin_generaciones)
      with (g := 7%Z) as (r & g' & E & H1 & _).
    + discriminate.
    + left. simpl. lia.
    + left. simpl. lia.
    + exists r, g'. split; [exact E|]. split; [reflexivity|].
      apply H1. simpl. lia.
  - destruct (devuelve_mejorar_cobertura (G := geodesia_plana)
                (A := azar_lcg) 0 (0, 0) [] cfg_cob_cuenta_negativa)
      with (g := 7%Z) as (r & g' & E & _ & H2).
    + discriminate.
    + right. reflexivity.
    + right. simpl. lia.
    + exists r, g'. split; [exact E|]. split; [reflexivity|].
      destruct H2 as [H2 _]; [simpl; lia|]. exact H2.
Qed.

(* ================================================================== *)
(** ** Configurations the specification calls invalid (C2)              *)
(* ================================================================== *)

Lemma fold_py_min_cota (xs : list Q) :
  forall x, fold_left py_min xs x <= x.
Proof.
  induction xs as [|y ys IH]; intro x; simpl; [lra|].
  pose proof (IH (py_min x y)) as H.
  pose proof (py_min_cota x y) as [H1 _]. lra.
Qed.

Lemma fold_py_max_cota (xs : list Q) :
  forall x, x <= fold_left py_max xs x.
Proof.
  induction xs as [|y ys IH]; intro x; simpl; [lra|].
  pose proof (IH (py_max x y)) as H.
  pose proof (py_max_cota x y) as [H1 _]. lra.
Qed.

Lemma bbox_ordenada (c : Punto) (cs : list Punto) :
  exists a b c' d,
    _bbox (c :: cs) = Ok (a, b, c', d) /\ a <= b /\ c' <= d.
Proof.
  unfold _bbox. simpl. do 4 eexists. split; [reflexivity|].
  split.
  - pose proof (fold_py_min_cota (map fst cs) (fst c)).
    pose proof (fold_py_max_cota (map fst cs) (fst c)). lra.
  - pose proof (fold_py_min_cota (map snd cs) (snd c)).
    pose proof (fold_py_max_cota (map snd cs) (snd c)). lra.
Qed.

(** C2 (amended).  For a non-empty camera input, a non-positive
    population size is not rejected by the blind-spot search: whatever the
    other parameters are, it returns the empty list and leaves the
    generator as it was; and the coverage search called with a
    non-positive generation count, whatever the other parameters are,
    returns, whenever it returns, no camera and the fitness [-1]. *)
Theorem configuracion_no_validada :
  forall (G : Geodesia) (A : Azar) (c : Punto) (cs : list Punto)
    (cfg_pc : PuntosCiegos.Config) (cfg : Cobertura.Config),
    (PuntosCiegos.tam_poblacion cfg_pc <= 0)%Z ->
    (Cobertura.generaciones cfg <= 0)%Z ->
    (forall g,
        PuntosCiegos.algoritmo_genetico_puntos_ciegos (c :: cs) cfg_pc g
        = Ok ([], g))
    /\ (forall gas g r g',
          Cobertura.algoritmo_genetico_mejorar_cobertura gas (c :: cs) cfg g
          = Ok (r, g') ->
          Cobertura.camaras_nuevas r = [] /\ Cobertura.fitness r = - (1)).
Proof.
  intros G A c cs cfg_pc cfg Ht Hg. split.
  - intro g. apply pc_sin_poblacion. assumption.
  - intros gas g r g' E.
    destruct (siempre_mejorar_cobertura gas c cs cfg g r g' E) as [H _].
    apply H. assumption.
Qed.

(** The default configuration of the blind-spot search with an empty
    population. *)
Definition cfg_pc_sin_poblacion : PuntosCiegos.Config := {|
  PuntosCiegos.tam_poblacion := 0;
  PuntosCiegos.generaciones := 90;
  PuntosCiegos.num_puntos_resultado := 10;
  PuntosCiegos.min_separacion_m := 180;
  PuntosCiegos.radio_cobertura_m := 80;
  PuntosCiegos.max_interes_m := 350;
  PuntosCiegos.max_extrapolacion_m := 900;
  PuntosCiegos.k_vecinos := 4;
  PuntosCiegos.elitismo := 4;
  PuntosCiegos.k_torneo := 4;
  PuntosCiegos.alpha_blx := 1 # 2;
  PuntosCiegos.bbox_margin_factor := 15 # 100
|}.

(** An empty population in the blind-spot search, and a run of the
    coverage search with no generation that returns. *)
Lemma configuracion_no_validada_ejemplo :
  (forall g,
      PuntosCiegos.algoritmo_genetico_puntos_ciegos
        (G := geodesia_plana) (A := azar_lcg) [(0, 0)]
        cfg_pc_sin_poblacion g = Ok ([], g))
  /\ (exists r g',
        Cobertura.algoritmo_genetico_mejorar_cobertura
          (G := geodesia_plana) (A := azar_lcg) 10 [(0, 0)]
          cfg_cob_sin_generaciones 7%Z = Ok (r, g')
        /\ Cobertura.camaras_nuevas r = []
        /\ Cobertura.fitness r = - (1)).
Proof.
  destruct (configuracion_no_validada geodesia_plana azar_lcg (0, 0) []
              cfg_pc_sin_poblacion cfg_cob_sin_generaciones)
    as [H1 H2].
  - simpl. lia.
  - simpl. lia.
  - split; [exact H1|].
    destruct (Cobertura.algoritmo_genetico_mejorar_cobertura
                (G := geodesia_plana) (A := azar_lcg) 10 [(0, 0)]
                cfg_cob_sin_generaciones 7%Z) as [[r g']|err] eqn:E;
      [|vm_compute in E; discriminate E].
    exists r, g'. split; [reflexivity|].
    exact (H2 10%nat 7%Z r g' E).
Defined.

(** C2, as stated, fails: a population size of zero is not rejected; the
    blind-spot search runs its ninety generations on an empty population
    and returns the empty list. *)
Lemma poblacion_cero_aceptada :
  PuntosCiegos.tam_poblacion cfg_pc_sin_poblacion = 0%Z
  /\ PuntosCiegos.algoritmo_genetico_puntos_ciegos
       (G := geodesia_plana) (A := azar_lcg) [(0, 0)]
       cfg_pc_sin_poblacion 7%Z = Ok ([], 7%Z).
Proof. split; [reflexivity | vm_compute; reflexivity]. Qed.

(* ================================================================== *)
(** ** Runs on concrete inputs                                          *)
(* ================================================================== *)

(** Four grid points, two cameras 111 m apart, radius 120 m: two points
    are seen by both cameras, two by none. *)
Example metricas_ejemplo :
  Cobertura.metricas_niveles_cobertura (G := geodesia_plana)
    [(0, 0); (1 # 1000, 0); (1 # 100, 0); (1 # 10, 0)]
    [(0, 0); (1 # 1000, 0)] 120
  = Ok [("cobertura_total"%string, 100 - (200 # 4));
        ("sin_cobertura"%string, 200 # 4);
        ("nivel_1"%string, 0 # 4); ("nivel_2"%string, 200 # 4);
        ("nivel_3_mas"%string, 0 # 4)].
Proof. reflexivity. Qed.

(** The grid over two cameras at opposite corners of a square of a
    hundredth of a degree, spacing 300 m: five rows of five points; with a
    cap of five points, five are kept. *)
Example grid_ejemplo :
  (exists pts g',
      Cobertura.generar_grid_puntos (G := geodesia_plana) (A := azar_lcg)
        100 [(0, 0); (1 # 100, 1 # 100)] 300 (6 # 100) 6000 42%Z
      = Ok (pts, g') /\ length pts = 25%nat)
  /\ (exists pts g',
      Cobertura.generar_grid_puntos (G := geodesia_plana) (A := azar_lcg)
        100 [(0, 0); (1 # 100, 1 # 100)] 300 (6 # 100) 5 42%Z
      = Ok (pts, g') /\ length pts = 5%nat).
Proof.
  split; eexists; eexists; (split; [vm_compute; reflexivity | reflexivity]).
Qed.

(** A whole blind-spot search: two individuals, one generation, two results
    requested.  The child of the generation is a copy of the elite (both
    parents drawn are the same individual and the child is not mutated), so
    the final population holds the same candidate twice and one result
    comes back. *)
Example busqueda_puntos_ciegos_ejemplo :
  exists r g',
    PuntosCiegos.algoritmo_genetico_puntos_ciegos
      (G := geodesia_plana) (A := azar_lcg)
      [(0, 0); (1 # 100, 1 # 100)] cfg_pc_ejemplo 7%Z = Ok (r, g')
    /\ length r = 1%nat.
Proof.
  eexists. eexists. split; [vm_compute; reflexivity | reflexivity].
Qed.

(** A whole coverage search: one camera requested, one returned, with a
    fitness between 0 and 100. *)
Example busqueda_cobertura_ejemplo :
  exists r g',
    Cobertura.algoritmo_genetico_mejorar_cobertura
      (G := geodesia_plana) (A := azar_lcg) 10 [(0, 0)]
      cfg_cob_ejemplo 7%Z = Ok (r, g')
    /\ length (Cobertura.camaras_nuevas r) = 1%nat
    /\ Qle_bool 0 (Cobertura.fitness r) = true
    /\ Qle_bool (Cobertura.fitness r) 100 = true.
Proof.
  eexists. eexists.
  split; [vm_compute; reflexivity | repeat split].
Qed.

(* ================================================================== *)
(** * Further properties of the code                                    *)
(* ================================================================== *)

(* ================================================================== *)
(** ** Clamping, bounding box, nearest distance                        *)
(* ================================================================== *)

Lemma clamp_dentro (v lo hi : Q) :
  lo <= v -> v <= hi -> _clamp v lo hi == v.
Proof.
  intros H1 H2. unfold _clamp, py_max, py_min.
  destruct (Qltb v hi) eqn:E1;
    [destruct (Qltb lo v) eqn:E2 | destruct (Qltb lo hi) eqn:E2];
    casos_Q; lra.
Qed.

Lemma clamp_invertido (v lo hi : Q) : hi < lo -> _clamp v lo hi = lo.
Proof.
  intro H. unfold _clamp, py_max.
  pose proof (py_min_cota hi v) as [H1 _].
  destruct (Qltb lo (py_min hi v)) eqn:E; [|reflexivity].
  casos_Q. lra.
Qed.

Lemma clamp_monotono (v w lo hi : Q) :
  lo <= hi -> v <= w -> _clamp v lo hi <= _clamp w lo hi.
Proof.
  intros Hlh Hvw. unfold _clamp, py_max, py_min.
  destruct (Qltb v hi) eqn:E1; destruct (Qltb w hi) eqn:E2;
    repeat match goal with
    | |- context [Qltb ?a ?b] =>
        let E := fresh "E" in destruct (Qltb a b) eqn:E
    end; casos_Q; lra.
Qed.

(** X1.  [_clamp(v, lo, hi)]: with [lo <= hi] the result lies in
    [lo, hi], a value already inside is returned (up to numeric equality)
    and clamping twice changes nothing more; with an inverted range
    ([hi < lo]) the result is [lo] whatever [v]. *)
Theorem clamp_propiedades :
  forall v lo hi : Q,
    (lo <= hi -> lo <= _clamp v lo hi /\ _clamp v lo hi <= hi)
    /\ (lo <= v -> v <= hi -> _clamp v lo hi == v)
    /\ (lo <= hi -> _clamp (_clamp v lo hi) lo hi == _clamp v lo hi)
    /\ (hi < lo -> _clamp v lo hi = lo).
Proof.
  intros v lo hi. split; [|split; [|split]].
  - apply clamp_entre.
  - apply clamp_dentro.
  - intro H. destruct (clamp_entre v lo hi H). apply clamp_dentro; assumption.
  - apply clamp_invertido.
Qed.

Lemma fold_py_min_es (xs : list Q) :
  forall x,
    let m := fold_left py_min xs x in
    (m = x \/ In m xs) /\ m <= x /\ forall y, In y xs -> m <= y.
Proof.
  induction xs as [|y ys IH]; intro x; simpl.
  - split; [left; reflexivity|]. split; [lra | intros y []].
  - destruct (IH (py_min x y)) as (H1 & H2 & H3).
    pose proof (py_min_cota x y) as [Ha Hb].
    split; [|split].
    + destruct H1 as [H1|H1]; [|right; right; assumption].
      destruct (py_min_es x y) as [E|E];
        [left; rewrite H1; exact E
        | right; left; rewrite H1; symmetry; exact E].
    + lra.
    + intros z [<-|Hz]; [lra | auto].
Qed.

Lemma fold_py_max_es (xs : list Q) :
  forall x,
    let m := fold_left py_max xs x in
    (m = x \/ In m xs) /\ x <= m /\ forall y, In y xs -> y <= m.
Proof.
  induction xs as [|y ys IH]; intro x; simpl.
  - split; [left; reflexivity|]. split; [lra | intros y []].
  - destruct (IH (py_max x y)) as (H1 & H2 & H3).
    pose proof (py_max_cota x y) as [Ha Hb].
    split; [|split].
    + destruct H1 as [H1|H1]; [|right; right; assumption].
      destruct (py_max_es x y) as [E|E];
        [left; rewrite H1; exact E
        | right; left; rewrite H1; symmetry; exact E].
    + lra.
    + intros z [<-|Hz]; [lra | auto].
Qed.

Lemma py_min_lista_es (x : Q) (xs : list Q) :
  exists m,
    py_min_lista (x :: xs) = Ok m /\ In m (x :: xs)
    /\ forall y, In y (x :: xs) -> m <= y.
Proof.
  destruct (fold_py_min_es xs x) as (H1 & H2 & H3).
  eexists. split; [reflexivity|]. split.
  - destruct H1 as [->|H1]; [left; reflexivity | right; assumption].
  - intros y [<-|Hy]; auto.
Qed.

Lemma py_max_lista_es (x : Q) (xs : list Q) :
  exists m,
    py_max_lista (x :: xs) = Ok m /\ In m (x :: xs)
    /\ forall y, In y (x :: xs) -> y <= m.
Proof.
  destruct (fold_py_max_es xs x) as (H1 & H2 & H3).
  eexists. split; [reflexivity|]. split.
  - destruct H1 as [->|H1]; [left; reflexivity | right; assumption].
  - intros y [<-|Hy]; auto.
Qed.

Lemma bbox_es (c : Punto) (cs : list Punto) :
  exists a b c' d,
    _bbox (c :: cs) = Ok (a, b, c', d)
    /\ In a (map fst (c :: cs)) /\ In b (map fst (c :: cs))
    /\ In c' (map snd (c :: cs)) /\ In d (map snd (c :: cs))
    /\ forall p, In p (c :: cs) ->
         a <= fst p /\ fst p <= b /\ c' <= snd p /\ snd p <= d.
Proof.
  unfold _bbox. cbn [map].
  destruct (py_min_lista_es (fst c) (map fst cs)) as (a & Ea & Ha & Hamin).
  destruct (py_max_lista_es (fst c) (map fst cs)) as (b & Eb & Hb & Hbmax).
  destruct (py_min_lista_es (snd c) (map snd cs)) as (c' & Ec & Hc & Hcmin).
  destruct (py_max_lista_es (snd c) (map snd cs)) as (d & Ed & Hd & Hdmax).
  rewrite Ea, Eb, Ec, Ed. cbn [ligar].
  exists a, b, c', d. split; [reflexivity|].
  repeat (split; [assumption|]).
  intros p Hp.
  assert (H1 : In (fst p) (fst c :: map fst cs))
    by (change (In (fst p) (map fst (c :: cs))); apply in_map; assumption).
  assert (H2 : In (snd p) (snd c :: map snd cs))
    by (change (In (snd p) (map snd (c :: cs))); apply in_map; assumption).
  auto.
Qed.

(** X2.  [_bbox]: on an empty sequence it raises [ValueError] (the [min]
    of an empty list); otherwise every camera lies inside the box it
    returns and each of the four bounds is the coordinate of some
    camera. *)
Theorem bbox_contiene_las_camaras :
  forall (c : Punto) (cs : list Punto),
    _bbox [] = Raise ValueError
    /\ exists a b c' d,
        _bbox (c :: cs) = Ok (a, b, c', d)
        /\ In a (map fst (c :: cs)) /\ In b (map fst (c :: cs))
        /\ In c' (map snd (c :: cs)) /\ In d (map snd (c :: cs))
        /\ forall p, In p (c :: cs) ->
             a <= fst p /\ fst p <= b /\ c' <= snd p /\ snd p <= d.
Proof.
  intros c cs. split; [reflexivity | apply bbox_es].
Qed.

(** X4.  [_dist_min_a_camaras] raises [ValueError] without cameras; a
    value it returns is the distance to one of the cameras and is no
    larger than the distance to any of them. *)
Theorem distancia_minima_es_cota :
  forall (G : Geodesia) (lat lon : Q),
    PuntosCiegos._dist_min_a_camaras lat lon [] = Raise ValueError
    /\ forall (camaras : list Punto) (dmin : Q),
         PuntosCiegos._dist_min_a_camaras lat lon camaras = Ok dmin ->
         (exists cam,
             In cam camaras
             /\ dmin = haversine_m lat lon (fst cam) (snd cam))
         /\ (forall cam,
                In cam camaras ->
                dmin <= haversine_m lat lon (fst cam) (snd cam)).
Proof.
  intros G lat lon. split; [reflexivity|]. intros camaras dmin E.
  destruct camaras as [|c cs]; [discriminate E|].
  unfold PuntosCiegos._dist_min_a_camaras in E.
  destruct (py_min_lista_es (haversine_m lat lon (fst c) (snd c))
              (PuntosCiegos.distancias lat lon cs))
    as (d & Ed & Hin & Hmin).
  change (haversine_m lat lon (fst c) (snd c)
          :: PuntosCiegos.distancias lat lon cs)
    with (PuntosCiegos.distancias lat lon (c :: cs)) in *.
  rewrite Ed in E. injection E as <-. split.
  - unfold PuntosCiegos.distancias in Hin. apply in_map_iff in Hin.
    destruct Hin as [cam [E Hc]]. exists cam. split; [assumption|].
    symmetry. assumption.
  - intros cam Hc. apply Hmin. unfold PuntosCiegos.distancias.
    apply (in_map (fun c0 : Punto => haversine_m lat lon (fst c0) (snd c0))).
    assumption.
Qed.

(** Three cameras, the nearest 111 m away. *)
Lemma distancia_minima_es_cota_ejemplo :
  exists dmin,
    PuntosCiegos._dist_min_a_camaras (G := geodesia_plana) (1 # 1000) 0
      [(1 # 100, 0); (0, 0); (0, 1 # 100)] = Ok dmin
    /\ PuntosCiegos._dist_min_a_camaras (G := geodesia_plana) (1 # 1000) 0 []
       = Raise ValueError
    /\ (exists cam,
           In cam [(1 # 100, 0); (0, 0); (0, 1 # 100)]
           /\ dmin = haversine_m (Geodesia := geodesia_plana)
                       (1 # 1000) 0 (fst cam) (snd cam))
    /\ (forall cam,
           In cam [(1 # 100, 0); (0, 0); (0, 1 # 100)] ->
           dmin <= haversine_m (Geodesia := geodesia_plana)
                     (1 # 1000) 0 (fst cam) (snd cam)).
Proof.
  destruct (PuntosCiegos._dist_min_a_camaras (G := geodesia_plana)
              (1 # 1000) 0 [(1 # 100, 0); (0, 0); (0, 1 # 100)])
    as [dmin|err] eqn:E; [|vm_compute in E; discriminate E].
  exists dmin. split; [reflexivity|].
  destruct (distancia_minima_es_cota geodesia_plana (1 # 1000) 0)
    as [H1 H2].
  split; [exact H1|].
  exact (H2 [(1 # 100, 0); (0, 0); (0, 1 # 100)] dmin E).
Defined.

(* ================================================================== *)
(** ** Coverage counts, metrics and penalties                           *)
(* ================================================================== *)

Section HechosConteo.

Context {G : Geodesia}.

Import Cobertura.

Lemma contar_desde (lat lon r : Q) (cams : list Punto) :
  forall acc,
    fold_left
      (fun count (c : Punto) =>
         if Qle_bool (haversine_m lat lon (fst c) (snd c)) r
         then S count else count)
      cams acc
    = (acc
       + fold_left
           (fun count (c : Punto) =>
              if Qle_bool (haversine_m lat lon (fst c) (snd c)) r
              then S count else count)
           cams O)%nat.
Proof.
  induction cams as [|c cs IH]; intro acc; simpl; [lia|].
  destruct (Qle_bool _ r).
  - rewrite (IH (S acc)), (IH 1%nat). lia.
  - apply IH.
Qed.

Lemma contar_app (p : Punto) (a b : list Punto) (r : Q) :
  contar_cobertura_en_punto p (a ++ b) r
  = (contar_cobertura_en_punto p a r
     + contar_cobertura_en_punto p b r)%nat.
Proof.
  destruct p as [lat lon]. unfold contar_cobertura_en_punto.
  rewrite fold_left_app. apply contar_desde.
Qed.

Lemma contar_cota (p : Punto) (cams : list Punto) (r : Q) :
  (contar_cobertura_en_punto p cams r <= length cams)%nat.
Proof.
  induction cams as [|c cs IH]; [destruct p; simpl; lia|].
  change (c :: cs) with ([c] ++ cs). rewrite contar_app.
  assert (contar_cobertura_en_punto p [c] r <= 1)%nat
    by (destruct p; simpl; destruct (Qle_bool _ r); lia).
  simpl length. lia.
Qed.

(** The number of grid points no camera reaches. *)
Definition sin_cubrir (pe cams : list Punto) (r : Q) : nat :=
  length
    (filter (fun p => (contar_cobertura_en_punto p cams r =? 0)%nat) pe).

Lemma clasificar_c0_desde (cams : list Punto) (r : Q) (pe : list Punto) :
  forall acc,
    fst (fst (fst
      (fold_left
         (fun '(c0, c1, c2, c3) p =>
            let k := contar_cobertura_en_punto p cams r in
            if (k <=? 0)%nat then (S c0, c1, c2, c3)
            else if (k =? 1)%nat then (c0, S c1, c2, c3)
            else if (k =? 2)%nat then (c0, c1, S c2, c3)
            else (c0, c1, c2, S c3))
         pe acc)))
    = (fst (fst (fst acc)) + sin_cubrir pe cams r)%nat.
Proof.
  unfold sin_cubrir.
  induction pe as [|p ps IH]; intro acc; simpl; [lia|].
  rewrite IH. destruct acc as [[[a b] c] d].
  destruct (contar_cobertura_en_punto p cams r) as [|[|[|k]]]; simpl; lia.
Qed.

Lemma clasificar_c0 (pe cams : list Punto) (r : Q) :
  fst (fst (fst (clasificar pe cams r))) = sin_cubrir pe cams r.
Proof. unfold clasificar. rewrite clasificar_c0_desde. reflexivity. Qed.

Lemma sin_cubrir_monotono (pe cams extra : list Punto) (r : Q) :
  (sin_cubrir pe (cams ++ extra) r <= sin_cubrir pe cams r)%nat.
Proof.
  unfold sin_cubrir. induction pe as [|p ps IH]; simpl; [lia|].
  rewrite contar_app.
  destruct (contar_cobertura_en_punto p cams r) as [|k]; simpl.
  - destruct (contar_cobertura_en_punto p extra r); simpl; lia.
  - lia.
Qed.

Lemma pct_rango (c n : nat) :
  (c <= S n)%nat -> 0 <= pct c (S n) /\ pct c (S n) <= 100.
Proof.
  intro H. unfold pct, de_nat.
  assert (Hn : 0 < inject_Z (Z.of_nat (S n)))
    by (change 0 with (inject_Z 0); rewrite <- Zlt_Qlt; lia).
  assert (Hc0 : 0 <= inject_Z (Z.of_nat c))
    by (change 0 with (inject_Z 0); rewrite <- Zle_Qle; lia).
  assert (Hc1 : inject_Z (Z.of_nat c) <= inject_Z (Z.of_nat (S n)))
    by (rewrite <- Zle_Qle; lia).
  assert (H0 : 0 <= inject_Z (Z.of_nat c) / inject_Z (Z.of_nat (S n)))
    by (apply Qle_shift_div_l; [exact Hn | lra]).
  assert (H1 : inject_Z (Z.of_nat c) / inject_Z (Z.of_nat (S n)) <= 1)
    by (apply Qle_shift_div_r; [exact Hn | lra]).
  split; lra.
Qed.

Lemma pct_monotono (c c' n : nat) :
  (c <= c')%nat -> pct c (S n) <= pct c' (S n).
Proof.
  intro H. unfold pct, de_nat.
  assert (Hn : 0 < inject_Z (Z.of_nat (S n)))
    by (change 0 with (inject_Z 0); rewrite <- Zlt_Qlt; lia).
  assert (Hc : inject_Z (Z.of_nat c) <= inject_Z (Z.of_nat c'))
    by (rewrite <- Zle_Qle; lia).
  assert (inject_Z (Z.of_nat c) / inject_Z (Z.of_nat (S n))
          <= inject_Z (Z.of_nat c') / inject_Z (Z.of_nat (S n))).
  { apply Qle_shift_div_l; [exact Hn|].
    setoid_replace
      (inject_Z (Z.of_nat c) / inject_Z (Z.of_nat (S n))
       * inject_Z (Z.of_nat (S n)))
      with (inject_Z (Z.of_nat c)) by (field; lra).
    exact Hc. }
  lra.
Qed.

(** The metrics of a non-empty grid, with the ranges of their values. *)
Lemma metricas_rango (p : Punto) (ps cams : list Punto) (r : Q) :
  exists ct sc n1 n2 n3,
    metricas_niveles_cobertura (p :: ps) cams r
    = Ok (dict_metricas ct sc n1 n2 n3)
    /\ sc = pct (sin_cubrir (p :: ps) cams r) (S (length ps))
    /\ ct = 100 - sc
    /\ (0 <= ct /\ ct <= 100) /\ (0 <= sc /\ sc <= 100)
    /\ (0 <= n1 /\ n1 <= 100) /\ (0 <= n2 /\ n2 <= 100)
    /\ (0 <= n3 /\ n3 <= 100).
Proof.
  pose proof (metricas_no_vacio p ps cams r) as H. cbv zeta in H.
  pose proof (clasificar_total (p :: ps) cams r) as Hs.
  pose proof (clasificar_c0 (p :: ps) cams r) as H0.
  destruct (clasificar (p :: ps) cams r) as [[[c0 c1] c2] c3].
  simpl in Hs, H0. subst c0.
  set (c0 := sin_cubrir (p :: ps) cams r) in *.
  destruct (pct_rango c0 (length ps)) as [? ?]; [lia|].
  destruct (pct_rango c1 (length ps)) as [? ?]; [lia|].
  destruct (pct_rango c2 (length ps)) as [? ?]; [lia|].
  destruct (pct_rango c3 (length ps)) as [? ?]; [lia|].
  do 5 eexists. split; [exact H|].
  split; [reflexivity|]. split; [reflexivity|].
  repeat split; try assumption; lra.
Qed.

End HechosConteo.

(** X5.  [contar_cobertura_en_punto] never exceeds the number of cameras,
    and over two camera lists put together it is the sum of the counts
    over each: adding cameras can only raise the count of a point. *)
Theorem contar_es_aditivo :
  forall (G : Geodesia) (p : Punto) (camaras otras : list Punto)
    (radio_m : Q),
    (Cobertura.contar_cobertura_en_punto p camaras radio_m
     <= length camaras)%nat
    /\ Cobertura.contar_cobertura_en_punto p (camaras ++ otras) radio_m
       = (Cobertura.contar_cobertura_en_punto p camaras radio_m
          + Cobertura.contar_cobertura_en_punto p otras radio_m)%nat.
Proof.
  intros. split; [apply contar_cota | apply contar_app].
Qed.

(** X6.  Every value of [metricas_niveles_cobertura] lies in [0, 100],
    and adding cameras never lowers [cobertura_total] (nor raises
    [sin_cobertura]) over the same grid and radius. *)
Theorem metricas_en_rango_y_monotonas :
  forall (G : Geodesia) (puntos_eval camaras otras : list Punto)
    (radio_m : Q),
    exists d d' ct ct' sc sc',
      Cobertura.metricas_niveles_cobertura puntos_eval camaras radio_m = Ok d
      /\ Cobertura.metricas_niveles_cobertura puntos_eval
           (camaras ++ otras) radio_m = Ok d'
      /\ (forall k v,
             Cobertura.dict_get d k = Some v -> 0 <= v /\ v <= 100)
      /\ Cobertura.dict_get d "cobertura_total" = Some ct
      /\ Cobertura.dict_get d' "cobertura_total" = Some ct'
      /\ Cobertura.dict_get d "sin_cobertura" = Some sc
      /\ Cobertura.dict_get d' "sin_cobertura" = Some sc'
      /\ ct <= ct' /\ sc' <= sc.
Proof.
  intros G pe cams otras r. destruct pe as [|p ps].
  - do 2 eexists. exists 0, 0, 100, 100.
    split; [reflexivity|]. split; [reflexivity|].
    split.
    + intros k v H. simpl in H.
      repeat match type of H with
      | (if ?b then _ else _) = _ => destruct b
      end; try discriminate; injection H as <-; split; lra.
    + repeat (split; [reflexivity|]). split; lra.
  - destruct (metricas_rango p ps cams r)
      as (ct & sc & n1 & n2 & n3 & E & Hsc & Hct & R1 & R2 & R3 & R4 & R5).
    destruct (metricas_rango p ps (cams ++ otras) r)
      as (ct' & sc' & n1' & n2' & n3' & E' & Hsc' & Hct' & _).
    exists (dict_metricas ct sc n1 n2 n3),
      (dict_metricas ct' sc' n1' n2' n3'), ct, ct', sc, sc'.
    split; [exact E|]. split; [exact E'|]. split.
    + intros k v H. unfold dict_metricas in H. simpl in H.
      repeat match type of H with
      | (if ?b then _ else _) = _ => destruct b
      end; try discriminate; injection H as <-; assumption.
    + repeat (split; [reflexivity|]).
      assert (Hm : sc' <= sc).
      { rewrite Hsc, Hsc'. apply pct_monotono. apply sin_cubrir_monotono. }
      split; [rewrite Hct, Hct'; lra | exact Hm].
Qed.

(** No two points of the list are closer than [mn] (each point against
    the later ones, as the loops compare them), and, when [me] is
    positive, no point is closer than [me] to a camera of [existentes]. *)
Fixpoint pares_separados {G : Geodesia} (mn : Q) (l : list Punto) : bool :=
  match l with
  | [] => true
  | x :: resto =>
      forallb
        (fun y : Punto =>
           negb (Qltb (haversine_m (fst x) (snd x) (fst y) (snd y)) mn))
        resto
      && pares_separados mn resto
  end.

Definition sin_violaciones {G : Geodesia} (nuevas existentes : list Punto)
  (mn me : Q) : bool :=
  pares_separados mn nuevas
  && (negb (Qltb 0 me)
      || forallb
           (fun p => negb (Cobertura.demasiado_cerca p existentes me))
           nuevas).

Lemma plegar_fijo {X S : Type} (f : S -> X -> resultado S) (l : list X)
  (s : S) :
  (forall x, In x l -> f s x = Ok s) -> plegar f l s = Ok s.
Proof.
  induction l as [|x xs IH]; intro H; simpl; [reflexivity|].
  rewrite (H x (or_introl eq_refl)). simpl.
  apply IH. intros; apply H; right; assumption.
Qed.

Lemma plegar_invariante {X S : Type} (f : S -> X -> resultado S)
  (I : S -> Prop) (l : list X) :
  (forall s x s', In x l -> I s -> f s x = Ok s' -> I s') ->
  forall s s', I s -> plegar f l s = Ok s' -> I s'.
Proof.
  induction l as [|x xs IH]; intros H s s' Hs E; simpl in E.
  - injection E as <-. assumption.
  - destruct (f s x) as [s1|] eqn:E1; simpl in E; [|discriminate].
    apply (IH (fun s0 y s0' Hy => H s0 y s0' (or_intror Hy)) s1 s');
      [|assumption].
    apply (H s x s1 (or_introl eq_refl) Hs E1).
Qed.

Section HechosPenalizacion.

Context {G : Geodesia}.

Import Cobertura.

Lemma pares_separados_nth (mn : Q) (l : list Punto) :
  pares_separados mn l = true ->
  forall i j ci cj,
    (i < j)%nat ->
    nth_error l i = Some ci -> nth_error l j = Some cj ->
    Qltb (haversine_m (fst ci) (snd ci) (fst cj) (snd cj)) mn = false.
Proof.
  induction l as [|x xs IH]; intros H i j ci cj Hij Hi Hj.
  - destruct i; discriminate.
  - simpl in H. apply andb_true_iff in H. destruct H as [H1 H2].
    destruct j as [|j]; [lia|]. simpl in Hj.
    destruct i as [|i]; simpl in Hi.
    + injection Hi as <-. rewrite forallb_forall in H1.
      apply negb_true_iff. apply H1. eapply nth_error_In. eassumption.
    + apply (IH H2 i j); [lia | assumption | assumption].
Qed.

Lemma dmin_existentes_es (lat lon : Q) (existentes : list Punto) :
  forall acc m,
    fold_left
      (fun (dmin : option Q) (e : Punto) =>
         let d := haversine_m lat lon (fst e) (snd e) in
         match dmin with
         | None => Some d
         | Some m => if Qltb d m then Some d else Some m
         end)
      existentes acc = Some m ->
    acc = Some m
    \/ exists e, In e existentes
                 /\ m = haversine_m lat lon (fst e) (snd e).
Proof.
  induction existentes as [|e es IH]; intros acc m H; simpl in H.
  - left. assumption.
  - apply IH in H. destruct H as [H|[e' [He' Hm]]].
    + destruct acc as [m0|].
      * destruct (Qltb _ m0); injection H as <-.
        -- right. exists e. split; [left|]; reflexivity.
        -- left. reflexivity.
      * injection H as <-. right. exists e. split; [left|]; reflexivity.
    + right. exists e'. split; [right|]; assumption.
Qed.

Lemma termino_no_negativo (peso d limite : Q) :
  0 <= peso -> d < limite ->
  0 <= peso * (1 - d / py_max limite eps6).
Proof.
  intros Hp Hd.
  pose proof (py_max_cota limite eps6) as [H1 H2].
  pose proof eps6_pos.
  assert (Hr : d / py_max limite eps6 <= 1)
    by (apply Qle_shift_div_r; lra).
  apply Qmult_le_0_compat; lra.
Qed.

Lemma penalizar_valor (nuevas existentes : list Punto) (mn me peso : Q) :
  exists pen,
    _penalizar_camaras_muy_cercanas nuevas existentes mn me peso = Ok pen
    /\ (0 <= peso -> 0 <= pen)
    /\ (sin_violaciones nuevas existentes mn me = true -> pen = 0).
Proof.
  destruct (penalizar_ok nuevas existentes mn me peso) as [pen E].
  exists pen. split; [exact E|].
  unfold _penalizar_camaras_muy_cercanas in E.
  match type of E with
  | context [plegar ?f (pares ?n) 0] =>
      set (f1 := f) in *; destruct (plegar f1 (pares n) 0) as [p1|] eqn:E1
  end; [|discriminate].
  cbn [ligar] in E.
  split.
  - intro Hp.
    assert (H1 : 0 <= p1).
    { apply (plegar_invariante f1 (fun q => 0 <= q)
               (pares (length nuevas))) with (s := 0) (s' := p1);
        [|lra | exact E1].
      intros s [i j] s' _ Hs Hf. unfold f1 in Hf.
      destruct (py_index nuevas i) as [ci|]; [|discriminate].
      destruct (py_index nuevas j) as [cj|]; [|discriminate].
      cbn [ligar] in Hf.
      destruct (Qltb _ mn) eqn:Ed; [|injection Hf as <-; assumption].
      rewrite py_div_ok in Hf by (apply py_max_eps_no_nulo, eps6_pos).
      injection Hf as <-. casos_Q.
      pose proof (termino_no_negativo peso _ mn Hp Ed). lra. }
    destruct (Qltb 0 me); [|injection E as <-; assumption].
    match type of E with
    | plegar ?f nuevas p1 = _ =>
        apply (plegar_invariante f (fun q => 0 <= q) nuevas) with (s := p1)
          (s' := pen); [|assumption | exact E]
    end.
    intros s [lat lon] s' _ Hs Hf.
    destruct (dmin_existentes lat lon existentes) as [dmin|];
      [|injection Hf as <-; assumption].
    destruct (Qltb dmin me) eqn:Ed; [|injection Hf as <-; assumption].
    rewrite py_div_ok in Hf by (apply py_max_eps_no_nulo, eps6_pos).
    injection Hf as <-. casos_Q.
    assert (Hp' : 0 <= peso * (75 # 100)) by (apply Qmult_le_0_compat; lra).
    pose proof (termino_no_negativo (peso * (75 # 100)) _ me Hp' Ed). lra.
  - intro Hv. unfold sin_violaciones in Hv.
    apply andb_true_iff in Hv. destruct Hv as [Hv1 Hv2].
    assert (H1 : p1 = 0).
    { assert (E0 : plegar f1 (pares (length nuevas)) 0 = Ok 0).
      { apply plegar_fijo. intros [i j] Hij. apply pares_cota in Hij.
        unfold f1. unfold py_index.
        destruct (nth_error nuevas i) as [ci|] eqn:Ei;
          [|apply nth_error_None in Ei; lia].
        destruct (nth_error nuevas j) as [cj|] eqn:Ej;
          [|apply nth_error_None in Ej; lia].
        cbn [ligar].
        rewrite (pares_separados_nth mn nuevas Hv1 i j ci cj);
          [reflexivity | lia | assumption | assumption]. }
      rewrite E0 in E1. injection E1 as <-. reflexivity. }
    subst p1.
    destruct (Qltb 0 me) eqn:Eme; [|injection E as <-; reflexivity].
    simpl in Hv2. rewrite forallb_forall in Hv2.
    match type of E with
    | plegar ?f nuevas 0 = _ =>
        assert (E0 : plegar f nuevas 0 = Ok 0)
    end.
    { apply plegar_fijo. intros [lat lon] Hp.
      specialize (Hv2 _ Hp). apply negb_true_iff in Hv2.
      unfold demasiado_cerca in Hv2. cbn [fst snd] in Hv2.
      destruct (dmin_existentes lat lon existentes) as [dmin|] eqn:Edm;
        [|reflexivity].
      unfold dmin_existentes in Edm.
      apply dmin_existentes_es in Edm.
      destruct Edm as [Edm|[e [He Hm]]]; [discriminate|].
      assert (Hq : Qltb dmin me = false).
      { rewrite Hm.
        destruct (Qltb (haversine_m lat lon (fst e) (snd e)) me) eqn:Eq;
          [|reflexivity].
        exfalso.
        assert (Hex : existsb
                        (fun e0 : Punto =>
                           Qltb (haversine_m lat lon (fst e0) (snd e0)) me)
                        existentes = true)
          by (apply existsb_exists; exists e; auto).
        congruence. }
      rewrite Hq. reflexivity. }
    rewrite E0 in E. injection E as <-. reflexivity.
Qed.

End HechosPenalizacion.

(** X7.  [_penalizar_camaras_muy_cercanas] with a non-negative weight: a
    penalty it returns is not negative, and it is exactly [0] when no two
    new cameras are closer than the first minimum and (for a positive
    second minimum) no new camera is closer than it to an existing one. *)
Theorem penalizacion_no_negativa :
  forall (G : Geodesia) (camaras_nuevas camaras_existentes : list Punto)
    (min_dist_entre_nuevas_m min_dist_a_existentes_m peso_penalizacion : Q)
    (pen : Q),
    0 <= peso_penalizacion ->
    Cobertura._penalizar_camaras_muy_cercanas camaras_nuevas
      camaras_existentes min_dist_entre_nuevas_m min_dist_a_existentes_m
      peso_penalizacion = Ok pen ->
    0 <= pen
    /\ (sin_violaciones camaras_nuevas camaras_existentes
          min_dist_entre_nuevas_m min_dist_a_existentes_m = true ->
        pen = 0).
Proof.
  intros G nuevas existentes mn me peso pen Hp E.
  destruct (penalizar_valor nuevas existentes mn me peso)
    as (pen' & E' & H1 & H2).
  rewrite E in E'. injection E' as <-. auto.
Qed.

(** Two new cameras 1113 m apart and as far or farther from the only
    existing one: no minimum distance is violated and the penalty is 0. *)
Lemma penalizacion_no_negativa_ejemplo :
  exists pen,
    Cobertura._penalizar_camaras_muy_cercanas (G := geodesia_plana)
      [(1 # 100, 0); (2 # 100, 0)] [(0, 0)] 180 60 10 = Ok pen
    /\ 0 <= pen
    /\ sin_violaciones (G := geodesia_plana)
         [(1 # 100, 0); (2 # 100, 0)] [(0, 0)] 180 60 = true
    /\ pen = 0.
Proof.
  destruct (Cobertura._penalizar_camaras_muy_cercanas (G := geodesia_plana)
              [(1 # 100, 0); (2 # 100, 0)] [(0, 0)] 180 60 10)
    as [pen|err] eqn:E; [|vm_compute in E; discriminate E].
  exists pen. split; [reflexivity|].
  destruct (penalizacion_no_negativa geodesia_plana
              [(1 # 100, 0); (2 # 100, 0)] [(0, 0)] 180 60 10 pen)
    as [H1 H2]; [lra | exact E |].
  split; [exact H1|]. split; [reflexivity|]. apply H2. reflexivity.
Defined.

(** Two new cameras 111 m apart, closer than the 180 m minimum: the
    penalty is positive. *)
Example penalizacion_positiva :
  exists pen,
    Cobertura._penalizar_camaras_muy_cercanas (G := geodesia_plana)
      [(1 # 100, 0); (1 # 100, 1 # 1000)] [(0, 0)] 180 60 10 = Ok pen
    /\ 0 < pen.
Proof. eexists. split; [vm_compute; reflexivity | reflexivity]. Qed.

Lemma metricas_forma_rango (G : Geodesia) (pe cams : list Punto) (r : Q) :
  exists ct sc n1 n2 n3,
    Cobertura.metricas_niveles_cobertura pe cams r
    = Ok (dict_metricas ct sc n1 n2 n3)
    /\ 0 <= ct /\ ct <= 100 /\ 0 <= n3.
Proof.
  destruct pe as [|p ps].
  - exists 0, 100, 0, 0, 0. split; [reflexivity|]. repeat split; lra.
  - destruct (metricas_rango p ps cams r)
      as (ct & sc & n1 & n2 & n3 & E & _ & _ & [? ?] & _ & _ & _ & [? _]).
    exists ct, sc, n1, n2, n3. auto.
Qed.

(** X8.  [fitness_cobertura] with both penalties switched off is the
    [cobertura_total] of the existing and new cameras together; with
    non-negative weights, switching penalties on can only lower it. *)
Theorem penalizaciones_solo_restan :
  forall (G : Geodesia)
    (puntos_eval camaras_existentes camaras_nuevas : list Punto)
    (radio_m : Q) (penalizar_sobrecobertura : bool)
    (peso_sobrecobertura : Q) (penalizar_cercania : bool)
    (min_dist_entre_nuevas_m min_dist_a_existentes_m peso_cercania : Q),
    0 <= peso_sobrecobertura -> 0 <= peso_cercania ->
    exists f f0 d ct,
      Cobertura.fitness_cobertura puntos_eval camaras_existentes
        camaras_nuevas radio_m penalizar_sobrecobertura peso_sobrecobertura
        penalizar_cercania min_dist_entre_nuevas_m min_dist_a_existentes_m
        peso_cercania = Ok f
      /\ Cobertura.fitness_cobertura puntos_eval camaras_existentes
           camaras_nuevas radio_m false peso_sobrecobertura
           false min_dist_entre_nuevas_m min_dist_a_existentes_m
           peso_cercania = Ok f0
      /\ Cobertura.metricas_niveles_cobertura puntos_eval
           (camaras_existentes ++ camaras_nuevas) radio_m = Ok d
      /\ Cobertura.dict_get d "cobertura_total" = Some ct
      /\ f0 == ct /\ f <= f0.
Proof.
  intros G pe ex nu r ps peso_s pc mn me peso_c Hs Hc.
  destruct (metricas_forma_rango G pe (ex ++ nu) r)
    as (ct & sc & n1 & n2 & n3 & Hm & H0 & H100 & Hn3).
  destruct (penalizar_valor nu ex mn me peso_c) as (pen & Ep & Hpen & _).
  specialize (Hpen Hc).
  assert (Hprod : 0 <= peso_s * n3) by (apply Qmult_le_0_compat; assumption).
  unfold Cobertura.fitness_cobertura. rewrite Hm. cbn [ligar].
  change (Cobertura.leer (dict_metricas ct sc n1 n2 n3) "cobertura_total")
    with (Ok ct).
  change (Cobertura.leer (dict_metricas ct sc n1 n2 n3) "nivel_3_mas")
    with (Ok n3).
  cbn [ligar andb].
  destruct ps; cbn [ligar];
    (destruct (pc && _); [rewrite Ep|]; cbn [ligar];
     do 2 eexists; exists (dict_metricas ct sc n1 n2 n3), ct;
     (split; [reflexivity|]); (split; [reflexivity|]);
     (split; [reflexivity|]); (split; [reflexivity|]);
     (split; [apply clamp_dentro; assumption
             | apply clamp_monotono; lra])).
Qed.

Lemma penalizaciones_solo_restan_ejemplo :
  exists f f0 d ct,
    Cobertura.fitness_cobertura (G := geodesia_plana)
      [(0, 0); (1 # 100, 0)] [(0, 0)] [(1 # 100, 0); (1 # 100, 1 # 1000)]
      120 true (15 # 100) true 180 60 10 = Ok f
    /\ Cobertura.fitness_cobertura (G := geodesia_plana)
         [(0, 0); (1 # 100, 0)] [(0, 0)] [(1 # 100, 0); (1 # 100, 1 # 1000)]
         120 false (15 # 100) false 180 60 10 = Ok f0
    /\ Cobertura.metricas_niveles_cobertura (G := geodesia_plana)
         [(0, 0); (1 # 100, 0)]
         ([(0, 0)] ++ [(1 # 100, 0); (1 # 100, 1 # 1000)]) 120 = Ok d
    /\ Cobertura.dict_get d "cobertura_total" = Some ct
    /\ f0 == ct /\ f <= f0.
Proof.
  apply (penalizaciones_solo_restan geodesia_plana
           [(0, 0); (1 # 100, 0)] [(0, 0)]
           [(1 # 100, 0); (1 # 100, 1 # 1000)]
           120 true (15 # 100) true 180 60 10); lra.
Defined.

(* ================================================================== *)
(** ** Selection, crossover, mutation and repair                        *)
(* ================================================================== *)

(** The contract of [random.random()]: a number of the unit interval. *)
Definition azar_unitario (A : Azar) : Prop :=
  forall g, 0 <= fst (rnd_random g) /\ fst (rnd_random g) <= 1.

Lemma azar_lcg_unitario : azar_unitario azar_lcg.
Proof.
  intro g. simpl.
  assert (H : (0 <= lcg g < 2147483648)%Z)
    by (unfold lcg; apply Z.mod_pos_bound; lia).
  unfold Qle. simpl. lia.
Qed.

(** A point inside a box, and a box whose bounds are in order. *)
Definition en_caja (caja : Caja) (p : Punto) : Prop :=
  min_lat caja <= fst p /\ fst p <= max_lat caja
  /\ min_lon caja <= snd p /\ snd p <= max_lon caja.

Definition caja_ordenada (caja : Caja) : Prop :=
  min_lat caja <= max_lat caja /\ min_lon caja <= max_lon caja.

Lemma clamp_punto_en_caja (caja : Caja) (p : Punto) :
  caja_ordenada caja -> en_caja caja (clamp_punto caja p).
Proof.
  intros [H1 H2]. unfold en_caja, clamp_punto. cbn [fst snd].
  destruct (clamp_entre (fst p) _ _ H1).
  destruct (clamp_entre (snd p) _ _ H2). auto.
Qed.

Lemma devuelve_inv {A : Azar} {X : Type} (m : Aleatorio X) (P : X -> Prop)
  (g g' : Rng) (x : X) :
  devuelve m P -> m g = Ok (x, g') -> P x.
Proof.
  intros H E. destruct (H g) as (x' & g'' & E' & Hx).
  rewrite E in E'. injection E' as <- <-. assumption.
Qed.

Section HechosSeleccion.

Context {A : Azar}.

Lemma torneo_error {X : Type} (pob : list X) (fs : list Q) (k : Z)
  (g : Rng) :
  (k <= 0)%Z \/ pob = [] ->
  torneo pob fs k g = Raise ValueError.
Proof.
  intro H. unfold torneo.
  set (kk := Z.min k (Z.of_nat (length (indices pob)))).
  assert (Hkk : (kk <= 0)%Z).
  { unfold kk. destruct H as [H| ->]; [lia|]. simpl. lia. }
  unfold ligarA at 1. unfold random_sample.
  destruct (0 <=? kk)%Z eqn:E0.
  - apply Z.leb_le in E0. assert (kk = 0%Z) by lia.
    replace (kk <=? Z.of_nat (length (indices pob)))%Z with true
      by (symmetry; apply Z.leb_le; lia).
    replace (Z.to_nat kk) with O by lia. reflexivity.
  - reflexivity.
Qed.

Lemma seleccion_torneo_error {X : Type} (pob : list X) (fs : list Q)
  (k n : Z) (g : Rng) :
  (k <= 0)%Z \/ pob = [] -> (1 <= n)%Z ->
  seleccion_torneo pob fs k (Some n) g = Raise ValueError.
Proof.
  intros H Hn. unfold seleccion_torneo.
  destruct (Z.to_nat n) as [|m] eqn:E; [lia|].
  simpl. unfold ligarA at 1. rewrite torneo_error by assumption.
  reflexivity.
Qed.

End HechosSeleccion.

(** X9.  [seleccion_torneo] (and [_seleccion_torneo], the same code): on a
    non-empty population with one fitness per individual and a tournament
    size of at least 1 it returns exactly [n] parents, each a member of the
    population ([len(poblacion)] of them when [n] is [None]); asked for at
    least one parent it raises [ValueError] when the tournament size is
    not positive or the population is empty. *)
Theorem torneo_devuelve_miembros :
  forall (A : Azar) (X : Type) (x : X) (xs : list X) (fitnesses : list Q)
    (k_torneo n : Z) (g : Rng),
    length fitnesses = length (x :: xs) ->
    ((1 <= k_torneo)%Z ->
     (exists padres g',
         seleccion_torneo (x :: xs) fitnesses k_torneo (Some n) g
         = Ok (padres, g')
         /\ length padres = Z.to_nat n
         /\ forall p, In p padres -> In p (x :: xs))
     /\ (exists padres g',
         seleccion_torneo (x :: xs) fitnesses k_torneo None g
         = Ok (padres, g')
         /\ length padres = length (x :: xs)))
    /\ ((k_torneo <= 0)%Z -> (1 <= n)%Z ->
        seleccion_torneo (x :: xs) fitnesses k_torneo (Some n) g
        = Raise ValueError)
    /\ ((1 <= n)%Z ->
        seleccion_torneo (@nil X) [] k_torneo (Some n) g
        = Raise ValueError).
Proof.
  intros A X x xs fs k n g Hl. split; [|split].
  - intro Hk. split.
    + destruct (devuelve_seleccion_torneo (x :: xs) fs k n) with (g := g)
        as (padres & g' & E & Hlen & HF); try assumption; [discriminate|].
      exists padres, g'. split; [exact E|]. split; [exact Hlen|].
      rewrite Forall_forall in HF. exact HF.
    + destruct (devuelve_seleccion_torneo (x :: xs) fs k
                  (Z.of_nat (length (x :: xs)))) with (g := g)
        as (padres & g' & E & Hlen & _); try assumption; [discriminate|].
      exists padres, g'. split; [exact E|]. rewrite Hlen. lia.
  - intros Hk Hn. apply seleccion_torneo_error; [left|]; assumption.
  - intro Hn. apply seleccion_torneo_error; [right; reflexivity | assumption].
Qed.

Lemma torneo_devuelve_miembros_ejemplo :
  ((1 <= 2)%Z ->
   (exists padres g',
       seleccion_torneo (A := azar_lcg) [(0, 0); (1, 1); (2, 2)]
         [1 # 2; 1 # 3; 1 # 4] 2 (Some 4%Z) 7%Z = Ok (padres, g')
       /\ length padres = Z.to_nat 4
       /\ forall p, In p padres -> In p [(0, 0); (1, 1); (2, 2)])
   /\ (exists padres g',
       seleccion_torneo (A := azar_lcg) [(0, 0); (1, 1); (2, 2)]
         [1 # 2; 1 # 3; 1 # 4] 2 None 7%Z = Ok (padres, g')
       /\ length padres = length [(0, 0); (1, 1); (2, 2)]))
  /\ ((2 <= 0)%Z -> (1 <= 4)%Z ->
      seleccion_torneo (A := azar_lcg) [(0, 0); (1, 1); (2, 2)]
        [1 # 2; 1 # 3; 1 # 4] 2 (Some 4%Z) 7%Z = Raise ValueError)
  /\ ((1 <= 4)%Z ->
      seleccion_torneo (A := azar_lcg) (@nil Punto) [] 2 (Some 4%Z) 7%Z
      = Raise ValueError).
Proof.
  apply (torneo_devuelve_miembros azar_lcg Punto (0, 0) [(1, 1); (2, 2)]
           [1 # 2; 1 # 3; 1 # 4] 2 4 7%Z).
  reflexivity.
Defined.

Lemma mezcla_en_intervalo (lo hi u : Q) :
  lo <= hi -> 0 <= u -> u <= 1 ->
  lo <= lo + (hi - lo) * u /\ lo + (hi - lo) * u <= hi.
Proof.
  intros H H0 H1.
  assert (Ha : 0 <= (hi - lo) * u) by (apply Qmult_le_0_compat; lra).
  assert (Hb : 0 <= (hi - lo) * (1 - u)) by (apply Qmult_le_0_compat; lra).
  assert (E : (hi - lo) * (1 - u) == (hi - lo) - (hi - lo) * u) by ring.
  rewrite E in Hb. split; lra.
Qed.

Section HechosCruza.

Context {A : Azar}.

Lemma blx_valor (a b alpha : Q) (g : Rng) :
  let lo := py_min a b in
  let hi := py_max a b in
  let d := hi - lo in
  _blx a b alpha g
  = Ok (lo - alpha * d
        + (hi + alpha * d - (lo - alpha * d)) * fst (rnd_random g),
        snd (rnd_random g)).
Proof.
  cbv zeta. unfold _blx, random_uniform, ligarA, random_random, ret.
  destruct (rnd_random g) as [u g']. reflexivity.
Qed.

Lemma blx_rango (a b alpha : Q) (g : Rng) :
  0 <= alpha -> 0 <= fst (rnd_random g) -> fst (rnd_random g) <= 1 ->
  exists v,
    _blx a b alpha g = Ok (v, snd (rnd_random g))
    /\ py_min a b - alpha * (py_max a b - py_min a b) <= v
    /\ v <= py_max a b + alpha * (py_max a b - py_min a b).
Proof.
  intros Ha H0 H1. rewrite blx_valor. eexists. split; [reflexivity|].
  assert (Hd : 0 <= py_max a b - py_min a b).
  { pose proof (py_max_cota a b) as [? ?].
    pose proof (py_min_cota a b) as [? ?]. lra. }
  assert (Hp : 0 <= alpha * (py_max a b - py_min a b))
    by (apply Qmult_le_0_compat; assumption).
  apply mezcla_en_intervalo; [lra | assumption | assumption].
Qed.

Lemma blx_mismo (a alpha : Q) (g : Rng) :
  exists v, _blx a a alpha g = Ok (v, snd (rnd_random g)) /\ v == a.
Proof.
  rewrite blx_valor. eexists. split; [reflexivity|].
  assert (E1 : py_min a a = a) by (destruct (py_min_es a a); assumption).
  assert (E2 : py_max a a = a) by (destruct (py_max_es a a); assumption).
  rewrite E1, E2. ring.
Qed.

End HechosCruza.

(** X10.  [cruzar_blx_alpha]: when [random()] stays in the unit interval
    and [alpha] is not negative, each coordinate of the child lies in the
    parents' interval widened by [alpha] times its width on both sides;
    and crossing a point with itself returns that point, whatever the
    random draws. *)
Theorem cruza_en_intervalo :
  forall (A : Azar) (x1 y1 x2 y2 alpha : Q) (g : Rng),
    azar_unitario A -> 0 <= alpha ->
    (exists x y g',
        cruzar_blx_alpha (x1, y1) (x2, y2) alpha g = Ok ((x, y), g')
        /\ py_min x1 x2 - alpha * (py_max x1 x2 - py_min x1 x2) <= x
        /\ x <= py_max x1 x2 + alpha * (py_max x1 x2 - py_min x1 x2)
        /\ py_min y1 y2 - alpha * (py_max y1 y2 - py_min y1 y2) <= y
        /\ y <= py_max y1 y2 + alpha * (py_max y1 y2 - py_min y1 y2))
    /\ (exists x y g',
        cruzar_blx_alpha (x1, y1) (x1, y1) alpha g = Ok ((x, y), g')
        /\ x == x1 /\ y == y1).
Proof.
  intros A x1 y1 x2 y2 alpha g HU Ha. split.
  - destruct (HU g) as [H0 H1].
    destruct (blx_rango x1 x2 alpha g Ha H0 H1) as (x & Ex & Hx1 & Hx2).
    destruct (HU (snd (rnd_random g))) as [H0' H1'].
    destruct (blx_rango y1 y2 alpha (snd (rnd_random g)) Ha H0' H1')
      as (y & Ey & Hy1 & Hy2).
    exists x, y, (snd (rnd_random (snd (rnd_random g)))).
    split; [|auto].
    unfold cruzar_blx_alpha, ligarA. rewrite Ex, Ey. reflexivity.
  - destruct (blx_mismo x1 alpha g) as (x & Ex & Hx).
    destruct (blx_mismo y1 alpha (snd (rnd_random g))) as (y & Ey & Hy).
    exists x, y, (snd (rnd_random (snd (rnd_random g)))).
    split; [|auto].
    unfold cruzar_blx_alpha, ligarA. rewrite Ex, Ey. reflexivity.
Qed.

Lemma cruza_en_intervalo_ejemplo :
  (exists x y g',
      cruzar_blx_alpha (A := azar_lcg) (0, 1) (2, 5) (1 # 2) 7%Z
      = Ok ((x, y), g')
      /\ py_min 0 2 - (1 # 2) * (py_max 0 2 - py_min 0 2) <= x
      /\ x <= py_max 0 2 + (1 # 2) * (py_max 0 2 - py_min 0 2)
      /\ py_min 1 5 - (1 # 2) * (py_max 1 5 - py_min 1 5) <= y
      /\ y <= py_max 1 5 + (1 # 2) * (py_max 1 5 - py_min 1 5))
  /\ (exists x y g',
      cruzar_blx_alpha (A := azar_lcg) (0, 1) (0, 1) (1 # 2) 7%Z
      = Ok ((x, y), g')
      /\ x == 0 /\ y == 1).
Proof.
  apply (cruza_en_intervalo azar_lcg 0 1 2 5 (1 # 2) 7%Z).
  - exact azar_lcg_unitario.
  - lra.
Defined.

Section HechosMutacion.

Context {A : Azar}.

Lemma mutar_en_caja (ind : Punto) (caja : Caja) (sl sn pm : Q) :
  caja_ordenada caja ->
  devuelve (mutar_gauss ind caja sl sn pm) (en_caja caja).
Proof.
  intro Hc. destruct ind as [lat lon]. unfold mutar_gauss.
  eapply devuelve_ligar; [apply devuelve_random|]. intros u _.
  eapply devuelve_ligar with (P := fun _ => True).
  - destruct (Qltb u pm).
    + eapply devuelve_ligar; [apply devuelve_gauss|]. intros a _.
      eapply devuelve_ligar; [apply devuelve_gauss|]. intros b _.
      apply devuelve_ret. exact I.
    + apply devuelve_ret. exact I.
  - intros [lat' lon'] _. apply devuelve_ret.
    apply clamp_punto_en_caja. assumption.
Qed.

Lemma mutar_sin_mutacion (ind : Punto) (caja : Caja) (sl sn pm : Q)
  (g : Rng) :
  pm <= fst (rnd_random g) ->
  mutar_gauss ind caja sl sn pm g
  = Ok (clamp_punto caja ind, snd (rnd_random g)).
Proof.
  intro H. destruct ind as [lat lon].
  unfold mutar_gauss, ligarA, random_random.
  destruct (rnd_random g) as [u g']. cbn [fst snd] in *.
  replace (Qltb u pm) with false
    by (symmetry; apply Qltb_ge; assumption).
  reflexivity.
Qed.

End HechosMutacion.

(** X11.  [mutar_gauss] and [_mutar_individuo_gauss]: when the box bounds
    are in order the mutated point, and every point of the mutated
    individual, lies inside the box, and the individual keeps its length;
    when the probability draw is not below [prob_mut] nothing is added,
    no Gaussian number is drawn and the point is just clamped. *)
Theorem mutacion_dentro_de_la_caja :
  forall (A : Azar) (ind : Punto) (individuo : list Punto) (caja : Caja)
    (sigma_lat sigma_lon prob_mut : Q) (g : Rng),
    caja_ordenada caja ->
    (exists p g',
        mutar_gauss ind caja sigma_lat sigma_lon prob_mut g = Ok (p, g')
        /\ en_caja caja p)
    /\ (prob_mut <= fst (rnd_random g) ->
        mutar_gauss ind caja sigma_lat sigma_lon prob_mut g
        = Ok (clamp_punto caja ind, snd (rnd_random g)))
    /\ (exists h g',
        Cobertura._mutar_individuo_gauss individuo caja prob_mut
          sigma_lat sigma_lon g = Ok (h, g')
        /\ length h = length individuo
        /\ forall p, In p h -> en_caja caja p).
Proof.
  intros A ind individuo caja sl sn pm g Hc. split; [|split].
  - apply (mutar_en_caja ind caja sl sn pm Hc g).
  - apply mutar_sin_mutacion.
  - unfold Cobertura._mutar_individuo_gauss.
    destruct (devuelve_mapearA
                (fun p => mutar_gauss p caja sl sn pm) individuo
                (en_caja caja)) with (g := g)
      as (h & g' & E & Hl & HF).
    { intros p _. apply mutar_en_caja. assumption. }
    exists h, g'. split; [exact E|]. split; [exact Hl|].
    rewrite Forall_forall in HF. exact HF.
Qed.

Lemma mutacion_dentro_de_la_caja_ejemplo :
  (exists p g',
      mutar_gauss (A := azar_lcg) (2, 2) caja_ejemplo (7 # 10000)
        (7 # 10000) (25 # 100) 7%Z = Ok (p, g')
      /\ en_caja caja_ejemplo p)
  /\ (25 # 100 <= fst (rnd_random (Azar := azar_lcg) 7%Z) ->
      mutar_gauss (A := azar_lcg) (2, 2) caja_ejemplo (7 # 10000)
        (7 # 10000) (25 # 100) 7%Z
      = Ok (clamp_punto caja_ejemplo (2, 2),
            snd (rnd_random (Azar := azar_lcg) 7%Z)))
  /\ (exists h g',
      Cobertura._mutar_individuo_gauss (A := azar_lcg)
        [(2, 2); (0, 0)] caja_ejemplo (35 # 100) (7 # 10000) (7 # 10000) 7%Z
      = Ok (h, g')
      /\ length h = length [(2, 2); (0, 0)]
      /\ forall p, In p h -> en_caja caja_ejemplo p).
Proof.
  assert (H : caja_ordenada caja_ejemplo) by (split; simpl; lra).
  destruct (mutacion_dentro_de_la_caja azar_lcg (2, 2) [(2, 2); (0, 0)]
              caja_ejemplo (7 # 10000) (7 # 10000) (25 # 100) 7%Z H)
    as (H1 & H2 & _).
  destruct (mutacion_dentro_de_la_caja azar_lcg (2, 2) [(2, 2); (0, 0)]
              caja_ejemplo (7 # 10000) (7 # 10000) (35 # 100) 7%Z H)
    as (_ & _ & H3).
  split; [exact H1 | split; [exact H2 | exact H3]].
Defined.

Lemma plegarA_fijo {A : Azar} {X S : Type} (f : S -> X -> Aleatorio S)
  (l : list X) (s : S) (g : Rng) :
  (forall x, In x l -> f s x g = Ok (s, g)) ->
  plegarA f l s g = Ok (s, g).
Proof.
  induction l as [|x xs IH]; intro H; simpl; [reflexivity|].
  unfold ligarA. rewrite (H x (or_introl eq_refl)).
  apply IH. intros; apply H; right; assumption.
Qed.

Section HechosRepair.

Context {G : Geodesia} {A : Azar}.

Import Cobertura.

Lemma reparar_existentes_sin_cambio (caja : Caja)
  (existentes : list Punto) (me : Q) (out : list Punto) (g : Rng) :
  forallb (fun p => negb (demasiado_cerca p existentes me)) out = true ->
  reparar_existentes caja existentes me out g = Ok ((out, false), g).
Proof.
  intro H. rewrite forallb_forall in H. unfold reparar_existentes.
  apply plegarA_fijo. intros i Hi. apply In_indices in Hi.
  destruct (py_index_ok out i Hi) as [p [Ep Hp]].
  unfold ligarA, elevar. rewrite Ep.
  specialize (H p Hp). apply negb_true_iff in H. rewrite H.
  reflexivity.
Qed.

Lemma reparar_pares_sin_cambio (caja : Caja) (mn : Q) (out : list Punto)
  (g : Rng) :
  pares_separados mn out = true ->
  reparar_pares caja mn (out, false) g = Ok ((out, false), g).
Proof.
  intro H. unfold reparar_pares. cbn [fst].
  apply plegarA_fijo. intros [i j] Hij. apply pares_cota in Hij.
  unfold ligarA, elevar, py_index. cbv beta iota.
  match goal with
  | |- context [@nth_error ?T ?l i] =>
      destruct (@nth_error T l i) as [ci|] eqn:Ei;
        [|apply nth_error_None in Ei; unfold Punto in *; lia]
  end.
  match goal with
  | |- context [@nth_error ?T ?l j] =>
      destruct (@nth_error T l j) as [cj|] eqn:Ej;
        [|apply nth_error_None in Ej; unfold Punto in *; lia]
  end.
  cbv beta iota.
  rewrite (pares_separados_nth mn out H i j ci cj);
    [reflexivity | lia | assumption | assumption].
Qed.

Lemma repair_sin_cambio (ind existentes : list Punto) (caja : Caja)
  (mn me : Q) (max_iters : Z) (g : Rng) :
  sin_violaciones ind existentes mn me = true ->
  _repair_separacion ind existentes caja mn me max_iters g
  = Ok (map (clamp_punto caja) ind, g).
Proof.
  intro H. unfold sin_violaciones in H.
  apply andb_true_iff in H. destruct H as [H1 H2].
  assert (Hp : pasada_repair caja existentes mn me ind g
               = Ok ((ind, false), g)).
  { unfold pasada_repair, ligarA at 1.
    destruct (Qltb 0 me).
    - simpl in H2. rewrite reparar_existentes_sin_cambio by assumption.
      apply reparar_pares_sin_cambio. assumption.
    - cbn [ret]. apply reparar_pares_sin_cambio. assumption. }
  unfold _repair_separacion, ligarA at 1.
  destruct (Z.to_nat max_iters) as [|k]; [reflexivity|].
  cbn [iterar_repair]. unfold ligarA at 1. rewrite Hp. reflexivity.
Qed.

Lemma devuelve_repair_en_caja (ind existentes : list Punto) (caja : Caja)
  (mn me : Q) (max_iters : Z) :
  caja_ordenada caja ->
  devuelve (_repair_separacion ind existentes caja mn me max_iters)
    (fun o => length o = length ind /\ Forall (en_caja caja) o).
Proof.
  intro Hc. unfold _repair_separacion.
  eapply devuelve_ligar; [apply devuelve_iterar_repair|].
  intros o Ho. apply devuelve_ret. split.
  - rewrite length_map. assumption.
  - apply Forall_forall. intros p Hp. apply in_map_iff in Hp.
    destruct Hp as [q [<- _]]. apply clamp_punto_en_caja. assumption.
Qed.

End HechosRepair.

(** X12.  [_repair_separacion] with the box bounds in order: an
    individual it returns has the length of the one given and all its
    points inside the box; and when the individual given violates no
    minimum distance, what comes back is that individual clamped, with no
    random number drawn. *)
Theorem repair_deja_en_caja :
  forall (G : Geodesia) (A : Azar) (ind camaras_existentes : list Punto)
    (caja : Caja) (min_dist_entre_nuevas_m min_dist_a_existentes_m : Q)
    (max_iters : Z) (g : Rng) (out : list Punto) (g' : Rng),
    caja_ordenada caja ->
    Cobertura._repair_separacion ind camaras_existentes caja
      min_dist_entre_nuevas_m min_dist_a_existentes_m max_iters g
    = Ok (out, g') ->
    length out = length ind
    /\ (forall p, In p out -> en_caja caja p)
    /\ (sin_violaciones ind camaras_existentes
          min_dist_entre_nuevas_m min_dist_a_existentes_m = true ->
        out = map (clamp_punto caja) ind /\ g' = g).
Proof.
  intros G A ind ex caja mn me mi g out g' Hc E.
  destruct (devuelve_inv _ _ g g' out
              (devuelve_repair_en_caja ind ex caja mn me mi Hc) E)
    as [Hl HF].
  split; [exact Hl|]. split; [rewrite Forall_forall in HF; exact HF|].
  intro Hs. rewrite (repair_sin_cambio ind ex caja mn me mi g Hs) in E.
  injection E as <- <-. auto.
Qed.

(** Two points 779 m apart, 334 m and 1113 m from the only camera: no
    minimum distance is violated. *)
Lemma repair_deja_en_caja_ejemplo :
  exists out g',
    Cobertura._repair_separacion (G := geodesia_plana) (A := azar_lcg)
      [(3 # 1000, 0); (1 # 100, 0)] [(0, 0)] caja_ejemplo 180 60 35 7%Z
    = Ok (out, g')
    /\ length out = length [(3 # 1000, 0); (1 # 100, 0)]
    /\ (forall p, In p out -> en_caja caja_ejemplo p)
    /\ sin_violaciones (G := geodesia_plana)
         [(3 # 1000, 0); (1 # 100, 0)] [(0, 0)] 180 60 = true
    /\ out = map (clamp_punto caja_ejemplo) [(3 # 1000, 0); (1 # 100, 0)]
    /\ g' = 7%Z.
Proof.
  destruct (Cobertura._repair_separacion (G := geodesia_plana)
              (A := azar_lcg) [(3 # 1000, 0); (1 # 100, 0)] [(0, 0)]
              caja_ejemplo 180 60 35 7%Z) as [[out g']|err] eqn:E;
    [|vm_compute in E; discriminate E].
  exists out, g'. split; [reflexivity|].
  destruct (repair_deja_en_caja geodesia_plana azar_lcg
              [(3 # 1000, 0); (1 # 100, 0)] [(0, 0)] caja_ejemplo 180 60 35
              7%Z out g') as (H1 & H2 & H3).
  - split; simpl; lra.
  - exact E.
  - split; [exact H1|]. split; [exact H2|]. split; [reflexivity|].
    apply H3. reflexivity.
Defined.

(** Two points 111 m apart, closer than the 180 m minimum: the repair
    moves a point, and what comes back still lies inside the box. *)
Example repair_con_violacion :
  exists out g',
    Cobertura._repair_separacion (G := geodesia_plana) (A := azar_lcg)
      [(5 # 1000, 0); (5 # 1000, 1 # 1000)] [(0, 0)] caja_ejemplo 180 60 35
      7%Z
    = Ok (out, g')
    /\ sin_violaciones (G := geodesia_plana)
         [(5 # 1000, 0); (5 # 1000, 1 # 1000)] [(0, 0)] 180 60 = false
    /\ g' <> 7%Z.
Proof.
  eexists. eexists. split; [vm_compute; reflexivity|].
  split; [reflexivity | discriminate].
Qed.

(* ================================================================== *)
(** ** The evaluation grid                                              *)
(* ================================================================== *)

Section HechosGridPuntos.

Context {G : Geodesia} {A : Azar}.

Import Cobertura.

Lemma fila_grid_puntos (lat max_lon step_lon : Q) :
  0 <= step_lon ->
  forall gas lon pts pts',
    fila_grid gas lat lon max_lon step_lon pts = Ok pts' ->
    exists nuevos,
      pts' = pts ++ nuevos
      /\ (forall q, In q nuevos ->
            fst q = lat /\ lon <= snd q /\ snd q <= max_lon)
      /\ (lon <= max_lon -> nuevos <> []).
Proof.
  intro Hs. induction gas as [|gas IH]; intros lon pts pts' E; simpl in E;
    [discriminate|].
  destruct (Qle_bool lon max_lon) eqn:El.
  - apply IH in E. destruct E as (nuevos & -> & Hq & _).
    exists ((lat, lon) :: nuevos). rewrite <- app_assoc.
    split; [reflexivity|]. casos_Q. split; [|discriminate].
    intros q [<-|Hin]; [simpl; repeat split; lra|].
    destruct (Hq q Hin) as (? & ? & ?). repeat split; try assumption. lra.
  - injection E as <-. exists []. rewrite app_nil_r.
    split; [reflexivity|]. split; [intros q []|].
    casos_Q. intro. lra.
Qed.

Lemma filas_grid_puntos (gas : nat)
  (max_lat min_lon max_lon step_lat step_lon : Q) :
  0 <= step_lat -> 0 <= step_lon ->
  forall n lat pts pts',
    filas_grid gas n lat max_lat min_lon max_lon step_lat step_lon pts
    = Ok pts' ->
    exists nuevos,
      pts' = pts ++ nuevos
      /\ (forall q, In q nuevos ->
            lat <= fst q /\ fst q <= max_lat
            /\ min_lon <= snd q /\ snd q <= max_lon)
      /\ (lat <= max_lat -> min_lon <= max_lon -> nuevos <> []).
Proof.
  intros Hs1 Hs2. induction n as [|n IH]; intros lat pts pts' E; simpl in E;
    [discriminate|].
  destruct (Qle_bool lat max_lat) eqn:El.
  - destruct (fila_grid gas lat min_lon max_lon step_lon pts)
      as [pts1|] eqn:E1; simpl in E; [|discriminate].
    apply (fila_grid_puntos lat max_lon step_lon Hs2) in E1.
    destruct E1 as (fila & -> & Hf & Hne).
    apply IH in E. destruct E as (resto & -> & Hr & _).
    exists (fila ++ resto). rewrite <- app_assoc.
    split; [reflexivity|]. casos_Q. split.
    + intros q Hq. apply in_app_or in Hq. destruct Hq as [Hq|Hq].
      * destruct (Hf q Hq) as (E & ? & ?). rewrite E.
        repeat split; try assumption; lra.
      * destruct (Hr q Hq) as (? & ? & ? & ?).
        repeat split; try assumption; lra.
    + intros _ Hl H. apply app_eq_nil in H. destruct H as [H _].
      apply (Hne Hl H).
  - injection E as <-. exists []. rewrite app_nil_r.
    split; [reflexivity|]. split; [intros q []|].
    casos_Q. intros. lra.
Qed.

Lemma generar_grid_propiedades (c : Punto) (cs : list Punto)
  (step_m margin_factor : Q) (max_points : Z) (gas : nat) (g g' : Rng)
  (pts : list Punto) :
  0 < step_m -> 0 <= margin_factor -> (0 <= max_points)%Z ->
  generar_grid_puntos gas (c :: cs) step_m margin_factor max_points g
  = Ok (pts, g') ->
  exists caja,
    caja_ampliada (c :: cs) margin_factor = Ok caja
    /\ caja_ordenada caja
    /\ pts <> []
    /\ (forall p, In p pts -> en_caja caja p)
    /\ (max_points <> 0%Z -> (Z.of_nat (length pts) <= max_points)%Z).
Proof.
  intros Hs Hm Hmax E.
  destruct (bbox_ordenada c cs) as (a & b & c' & d & Hb & Hab & Hcd).
  unfold caja_ampliada. rewrite Hb. cbn [ligar].
  unfold generar_grid_puntos in E.
  unfold ligarA at 1 in E. unfold elevar at 1 in E. rewrite Hb in E.
  cbv zeta in E.
  set (lat_span := py_max (b - a) eps9) in *.
  set (lon_span := py_max (d - c') eps9) in *.
  set (lat0 := a - lat_span * margin_factor) in *.
  set (lat1 := b + lat_span * margin_factor) in *.
  set (lon0 := c' - lon_span * margin_factor) in *.
  set (lon1 := d + lon_span * margin_factor) in *.
  set (mpl := py_max (111320 * cos_radians ((lat0 + lat1) / 2)) eps6) in *.
  assert (Hmpl : 0 < mpl)
    by (pose proof (py_max_cota (111320 * cos_radians ((lat0 + lat1) / 2))
                      eps6) as [_ H]; pose proof eps6_pos; unfold mpl; lra).
  assert (Hlat : 0 <= lat_span)
    by (pose proof (py_max_cota (b - a) eps9) as [_ H];
        pose proof eps9_pos; unfold lat_span; lra).
  assert (Hlon : 0 <= lon_span)
    by (pose proof (py_max_cota (d - c') eps9) as [_ H];
        pose proof eps9_pos; unfold lon_span; lra).
  assert (H0 : lat0 <= lat1).
  { pose proof (Qmult_le_0_compat _ _ Hlat Hm). unfold lat0, lat1. lra. }
  assert (H1 : lon0 <= lon1).
  { pose proof (Qmult_le_0_compat _ _ Hlon Hm). unfold lon0, lon1. lra. }
  assert (Hslat : 0 <= step_m / 111320)
    by (apply Qle_shift_div_l; [reflexivity | lra]).
  assert (Hslon : 0 <= step_m / mpl)
    by (apply Qle_shift_div_l; [exact Hmpl | lra]).
  unfold ligarA at 1 in E. unfold elevar at 1 in E.
  rewrite py_div_ok in E by discriminate.
  unfold ligarA at 1 in E. unfold elevar at 1 in E.
  rewrite py_div_ok in E by discriminate.
  unfold ligarA at 1 in E. unfold elevar at 1 in E. fold mpl in E.
  rewrite py_div_ok in E by lra.
  unfold ligarA at 1 in E. unfold elevar at 1 in E.
  destruct (filas_grid gas gas lat0 lat1 lon0 lon1 (step_m / 111320)
              (step_m / mpl) []) as [pts0|] eqn:Ef; [|discriminate].
  apply (filas_grid_puntos gas lat1 lon0 lon1 _ _ Hslat Hslon) in Ef.
  destruct Ef as (nuevos & Ep & Hq & Hne). simpl in Ep. subst pts0.
  specialize (Hne H0 H1).
  eexists. split; [reflexivity|].
  split; [split; assumption|].
  destruct (negb (max_points =? 0)%Z
            && (max_points <? Z.of_nat (length nuevos))%Z) eqn:Ec.
  - apply andb_true_iff in Ec. destruct Ec as [Ec1 Ec2].
    apply negb_true_iff, Z.eqb_neq in Ec1. apply Z.ltb_lt in Ec2.
    destruct (devuelve_inv _ _ g g' pts
                (devuelve_sample nuevos max_points
                   (conj Hmax (Z.lt_le_incl _ _ Ec2))) E) as [Hl Hi].
    split; [|split].
    + intro H. subst pts. simpl in Hl. lia.
    + intros p Hp. apply Hi in Hp. apply (Hq p Hp).
    + intros _. lia.
  - injection E as <- <-. split; [assumption|]. split.
    + intros p Hp. apply (Hq p Hp).
    + intro Hnz. apply andb_false_iff in Ec. destruct Ec as [Ec|Ec].
      * apply negb_false_iff, Z.eqb_eq in Ec. contradiction.
      * apply Z.ltb_ge in Ec. assumption.
Qed.

End HechosGridPuntos.

(** X13.  [generar_grid_puntos] for at least one camera, a positive
    spacing, a non-negative margin factor and a non-negative cap: a grid
    it returns is not empty, every one of its points lies inside the
    camera bounding box widened by the margin, and, when the cap is not 0,
    it holds at most [max_points] points. *)
Theorem grid_dentro_de_la_caja :
  forall (G : Geodesia) (A : Azar) (c : Punto) (cs : list Punto)
    (step_m margin_factor : Q) (max_points : Z) (gas : nat) (g : Rng)
    (pts : list Punto) (g' : Rng),
    0 < step_m -> 0 <= margin_factor -> (0 <= max_points)%Z ->
    Cobertura.generar_grid_puntos gas (c :: cs) step_m margin_factor
      max_points g = Ok (pts, g') ->
    exists caja,
      caja_ampliada (c :: cs) margin_factor = Ok caja
      /\ pts <> []
      /\ (forall p, In p pts -> en_caja caja p)
      /\ (max_points <> 0%Z -> (Z.of_nat (length pts) <= max_points)%Z).
Proof.
  intros G A c cs step_m margin max_points gas g pts g' Hs Hm Hmax E.
  destruct (generar_grid_propiedades c cs step_m margin max_points gas g g'
              pts Hs Hm Hmax E) as (caja & Hc & _ & Hne & Hin & Hl).
  exists caja. auto.
Qed.

(** Two cameras at opposite corners of a square of a hundredth of a
    degree, spacing 400 m and a cap of five points: the sixteen points of
    the grid are sampled down to five. *)
Lemma grid_dentro_de_la_caja_ejemplo :
  exists pts g' caja,
    Cobertura.generar_grid_puntos (G := geodesia_plana) (A := azar_lcg)
      100 [(0, 0); (1 # 100, 1 # 100)] 400 (6 # 100) 5 42%Z = Ok (pts, g')
    /\ caja_ampliada [(0, 0); (1 # 100, 1 # 100)] (6 # 100) = Ok caja
    /\ pts <> []
    /\ (forall p, In p pts -> en_caja caja p)
    /\ (5%Z <> 0%Z -> (Z.of_nat (length pts) <= 5)%Z).
Proof.
  destruct (Cobertura.generar_grid_puntos (G := geodesia_plana)
              (A := azar_lcg) 100 [(0, 0); (1 # 100, 1 # 100)] 400 (6 # 100)
              5 42%Z) as [[pts g']|err] eqn:E;
    [|vm_compute in E; discriminate E].
  destruct (grid_dentro_de_la_caja geodesia_plana azar_lcg (0, 0)
              [(1 # 100, 1 # 100)] 400 (6 # 100) 5 100 42%Z pts g')
    as (caja & H); [lra | lra | lia | exact E |].
  exists pts, g', caja. split; [reflexivity | exact H].
Defined.

(* ================================================================== *)
(** ** The shape of the diversity selection                             *)
(* ================================================================== *)

(** Every candidate of the list is at least [min_sep_m] away from each
    candidate before it (the distance taken from the later one, as the
    greedy pass computes it). *)
Definition bien_separados {G : Geodesia} (min_sep_m : Q)
  (l : list PuntosCiegos.Candidato) : Prop :=
  forall i j ci cj,
    (i < j)%nat -> nth_error l i = Some ci -> nth_error l j = Some cj ->
    min_sep_m
    <= haversine_m (fst (fst cj)) (snd (fst cj))
         (fst (fst ci)) (snd (fst ci)).

Section HechosSeleccionDiversa.

Context {G : Geodesia}.

Import PuntosCiegos.

Lemma separado_spec (min_sep : Q) (c : Candidato) (sel : list Candidato) :
  separado min_sep c sel = true ->
  forall s, In s sel ->
    min_sep <= haversine_m (fst (fst c)) (snd (fst c))
                 (fst (fst s)) (snd (fst s)).
Proof.
  intros H s Hs. destruct c as [[lat lon] fit]. unfold separado in H.
  rewrite forallb_forall in H. specialize (H s Hs).
  destruct s as [[slat slon] sfit]. apply negb_true_iff in H.
  casos_Q. exact H.
Qed.

Lemma bien_separados_snoc (min_sep : Q) (sel : list Candidato)
  (c : Candidato) :
  bien_separados min_sep sel -> separado min_sep c sel = true ->
  bien_separados min_sep (sel ++ [c]).
Proof.
  intros Hs Hc i j ci cj Hij Hi Hj.
  assert (Hjl : (j < length (sel ++ [c]))%nat)
    by (apply nth_error_Some; congruence).
  rewrite length_app in Hjl. simpl in Hjl.
  assert (Hi' : nth_error sel i = Some ci)
    by (rewrite nth_error_app1 in Hi by lia; assumption).
  destruct (Nat.eq_dec j (length sel)) as [->|Hne].
  - rewrite nth_error_app2 in Hj by lia.
    rewrite Nat.sub_diag in Hj. injection Hj as <-.
    apply (separado_spec min_sep c sel Hc).
    eapply nth_error_In. eassumption.
  - rewrite nth_error_app1 in Hj by lia.
    apply (Hs i j ci cj Hij Hi' Hj).
Qed.

Lemma pasada_separada_forma (min_sep : Q) (cap : Z) :
  forall cands acc,
    bien_separados min_sep acc ->
    exists extra,
      pasada_separada min_sep cap cands acc = acc ++ extra
      /\ bien_separados min_sep (acc ++ extra)
      /\ incl extra cands
      /\ (Z.of_nat (length (acc ++ extra))
          <= Z.max cap (Z.of_nat (length acc)))%Z.
Proof.
  induction cands as [|c rest IH]; intros acc Ha; simpl.
  - exists []. rewrite app_nil_r. split; [reflexivity|].
    split; [assumption|]. split; [intros x []|lia].
  - destruct (cap <=? Z.of_nat (length acc))%Z eqn:E.
    + exists []. rewrite app_nil_r. split; [reflexivity|].
      split; [assumption|]. split; [intros x []|lia].
    + apply Z.leb_gt in E. destruct (separado min_sep c acc) eqn:Es.
      * destruct (IH (acc ++ [c]) (bien_separados_snoc _ _ _ Ha Es))
          as (extra & E1 & E2 & E3 & E4).
        exists (c :: extra). rewrite <- app_assoc in E1, E2, E4.
        simpl in E1, E2, E4. split; [exact E1|]. split; [exact E2|].
        split.
        -- intros x [<-|Hx]; [left; reflexivity | right; apply E3; exact Hx].
        -- rewrite !length_app in *. cbn [length] in *. lia.
      * destruct (IH acc Ha) as (extra & E1 & E2 & E3 & E4).
        exists extra. split; [exact E1|]. split; [exact E2|].
        split; [|exact E4].
        intros x Hx. right. apply E3. exact Hx.
Qed.

Lemma rellenar_forma (cap : Z) :
  forall cands sel,
    exists relleno,
      rellenar cap cands sel = sel ++ relleno
      /\ incl relleno cands
      /\ (forall c, In c relleno -> pertenece c sel = false)
      /\ (Z.of_nat (length (sel ++ relleno))
          <= Z.max cap (Z.of_nat (length sel)))%Z.
Proof.
  induction cands as [|c rest IH]; intro sel; simpl.
  - exists []. rewrite app_nil_r. split; [reflexivity|].
    split; [intros x []|]. split; [intros x []|lia].
  - destruct (cap <=? Z.of_nat (length sel))%Z eqn:E.
    + exists []. rewrite app_nil_r. split; [reflexivity|].
      split; [intros x []|]. split; [intros x []|lia].
    + apply Z.leb_gt in E. destruct (pertenece c sel) eqn:Ep.
      * destruct (IH sel) as (relleno & E1 & E2 & E3 & E4).
        exists relleno. split; [exact E1|].
        split; [intros x Hx; right; apply E2; exact Hx|].
        split; assumption.
      * destruct (IH (sel ++ [c])) as (relleno & E1 & E2 & E3 & E4).
        exists (c :: relleno). rewrite <- app_assoc in E1, E4.
        simpl in E1, E4. split; [exact E1|]. split.
        -- intros x [<-|Hx]; [left; reflexivity | right; apply E2; exact Hx].
        -- split.
           ++ intros x [<-|Hx]; [exact Ep|].
              specialize (E3 x Hx). unfold pertenece in *.
              rewrite existsb_app in E3.
              apply orb_false_iff in E3. tauto.
           ++ rewrite !length_app in *. cbn [length] in *. lia.
Qed.

Lemma pasada_separada_extiende (min_sep : Q) (cap : Z) :
  forall cands acc,
    exists extra, pasada_separada min_sep cap cands acc = acc ++ extra.
Proof.
  induction cands as [|c rest IH]; intro acc; simpl.
  - exists []. rewrite app_nil_r. reflexivity.
  - destruct (cap <=? Z.of_nat (length acc))%Z.
    + exists []. rewrite app_nil_r. reflexivity.
    + destruct (separado min_sep c acc).
      * destruct (IH (acc ++ [c])) as [extra E]. exists (c :: extra).
        rewrite E, <- app_assoc. reflexivity.
      * apply IH.
Qed.

Lemma separado_falso (min_sep : Q) (c : Candidato) (sel : list Candidato) :
  separado min_sep c sel = false ->
  exists s,
    In s sel
    /\ haversine_m (fst (fst c)) (snd (fst c)) (fst (fst s)) (snd (fst s))
       < min_sep.
Proof.
  destruct c as [[lat lon] fit]. unfold separado. cbn [fst snd].
  induction sel as [|s sel IH]; simpl; [discriminate|].
  destruct s as [[slat slon] sfit].
  destruct (Qltb (haversine_m lat lon slat slon) min_sep) eqn:E; simpl.
  - intros _. exists (slat, slon, sfit). split; [left; reflexivity|].
    apply Qltb_lt. exact E.
  - intro H. destruct (IH H) as [s [Hs Hd]]. exists s.
    split; [right; exact Hs | exact Hd].
Qed.

(** The greedy pass leaves a candidate out only when the cap is reached
    or the candidate is too close to a selected one. *)
Lemma pasada_separada_maximal (min_sep : Q) (cap : Z) :
  forall cands acc c,
    In c cands ->
    In c (pasada_separada min_sep cap cands acc)
    \/ (cap <= Z.of_nat (length (pasada_separada min_sep cap cands acc)))%Z
    \/ exists s,
         In s (pasada_separada min_sep cap cands acc)
         /\ haversine_m (fst (fst c)) (snd (fst c))
              (fst (fst s)) (snd (fst s))
            < min_sep.
Proof.
  induction cands as [|c0 rest IH]; intros acc c Hc; [destruct Hc|].
  simpl. destruct (cap <=? Z.of_nat (length acc))%Z eqn:E.
  - apply Z.leb_le in E. right. left. exact E.
  - destruct (separado min_sep c0 acc) eqn:Es.
    + destruct Hc as [<-|Hc]; [|apply IH; exact Hc].
      left. destruct (pasada_separada_extiende min_sep cap rest (acc ++ [c0]))
        as [extra ->].
      apply in_or_app. left. apply in_or_app. right. left. reflexivity.
    + destruct Hc as [<-|Hc]; [|apply IH; exact Hc].
      right. right. destruct (separado_falso min_sep c0 acc Es) as [s [Hs Hd]].
      exists s. split; [|exact Hd].
      destruct (pasada_separada_extiende min_sep cap rest acc) as [extra ->].
      apply in_or_app. left. exact Hs.
Qed.

End HechosSeleccionDiversa.

(** X14.  [seleccionar_espaciados] returns the selection of its greedy
    pass followed by a backfill.  The greedy selection holds candidates of
    the list, pairwise at least [min_sep_m] apart and at most
    [max(0, max_puntos)] of them, and it leaves a candidate out only when
    the cap is reached or the candidate is closer than [min_sep_m] to a
    selected one.  The backfill is only there when the greedy selection is
    shorter than the cap; it holds candidates of the list, none equal to a
    greedy one, and the whole result has at most [max(0, max_puntos)]
    candidates. *)
Theorem espaciados_voraz_y_relleno :
  forall (G : Geodesia) (candidatos : list PuntosCiegos.Candidato)
    (min_sep_m : Q) (max_puntos : Z),
    let voraz :=
      PuntosCiegos.pasada_separada min_sep_m max_puntos candidatos [] in
    bien_separados min_sep_m voraz
    /\ incl voraz candidatos
    /\ (Z.of_nat (length voraz) <= Z.max 0 max_puntos)%Z
    /\ (forall c,
           In c candidatos ->
           In c voraz
           \/ (max_puntos <= Z.of_nat (length voraz))%Z
           \/ exists s,
                In s voraz
                /\ haversine_m (fst (fst c)) (snd (fst c))
                     (fst (fst s)) (snd (fst s))
                   < min_sep_m)
    /\ exists relleno,
         PuntosCiegos.seleccionar_espaciados candidatos min_sep_m max_puntos
         = voraz ++ relleno
         /\ (relleno <> [] -> (Z.of_nat (length voraz) < max_puntos)%Z)
         /\ (forall c,
                In c relleno ->
                In c candidatos /\ PuntosCiegos.pertenece c voraz = false)
         /\ (Z.of_nat (length (voraz ++ relleno)) <= Z.max 0 max_puntos)%Z.
Proof.
  intros G cands min_sep cap voraz.
  destruct (pasada_separada_forma min_sep cap cands [])
    as (extra & E1 & E2 & E3 & E4).
  { intros i j ci cj _ Hi. destruct i; discriminate. }
  simpl in E1, E2, E4. fold voraz in E1. rewrite <- E1 in E2, E3, E4.
  split; [exact E2|]. split; [exact E3|]. split; [lia|].
  split; [intros c Hc; apply pasada_separada_maximal; exact Hc|].
  unfold PuntosCiegos.seleccionar_espaciados. fold voraz.
  destruct (Z.of_nat (length voraz) <? cap)%Z eqn:E.
  - apply Z.ltb_lt in E.
    destruct (rellenar_forma cap cands voraz) as (relleno & R1 & R2 & R3 & R4).
    exists relleno. split; [exact R1|]. split; [intros _; exact E|].
    split; [|lia]. intros c Hc. split; [apply R2 | apply R3]; exact Hc.
  - exists []. rewrite app_nil_r. split; [reflexivity|].
    split; [congruence|]. split; [intros c []|lia].
Qed.

(* ================================================================== *)
(** ** What the coverage search returns                                 *)
(* ================================================================== *)

Lemma caja_ampliada_ordenada (c : Punto) (cs : list Punto) (margin : Q) :
  0 <= margin ->
  exists caja,
    caja_ampliada (c :: cs) margin = Ok caja /\ caja_ordenada caja.
Proof.
  intro Hm.
  destruct (bbox_ordenada c cs) as (a & b & c' & d & Hb & Hab & Hcd).
  unfold caja_ampliada. rewrite Hb. cbn [ligar].
  eexists. split; [reflexivity|].
  assert (H1 : 0 <= py_max (b - a) eps9 * margin).
  { apply Qmult_le_0_compat; [|assumption].
    pose proof (py_max_cota (b - a) eps9) as [? _]. lra. }
  assert (H2 : 0 <= py_max (d - c') eps9 * margin).
  { apply Qmult_le_0_compat; [|assumption].
    pose proof (py_max_cota (d - c') eps9) as [? _]. lra. }
  unfold caja_ordenada. cbn [min_lat max_lat min_lon max_lon]. split; lra.
Qed.

Lemma map_clamp_en_caja (caja : Caja) (l : list Punto) :
  caja_ordenada caja -> Forall (en_caja caja) (map (clamp_punto caja) l).
Proof.
  intro Hc. apply Forall_forall. intros p Hp. apply in_map_iff in Hp.
  destruct Hp as [q [<- _]]. apply clamp_punto_en_caja. assumption.
Qed.

(** The best individual recorded so far lies inside the box and
    [best_fit] is its fitness; the population is not empty and lies
    inside the box. *)
Definition mejor_coherente {G : Geodesia} (cfg : Cobertura.Config)
  (pe ex : list Punto) (caja : Caja) (e : Cobertura.Estado) : Prop :=
  Forall (en_caja caja) (Cobertura.best_ind e)
  /\ Cobertura.fitness_individuo cfg pe ex (Cobertura.best_ind e)
     = Ok (Cobertura.best_fit e).

Definition poblacion_en_caja (caja : Caja) (e : Cobertura.Estado) : Prop :=
  Cobertura.poblacion e <> []
  /\ Forall (Forall (en_caja caja)) (Cobertura.poblacion e).

Section ResultadoCobertura.

Context {G : Geodesia} {A : Azar}.

Import Cobertura.

Lemma devuelve_reparar_en_caja (cfg : Config) (existentes : list Punto)
  (caja : Caja) (ind : Individuo) :
  caja_ordenada caja -> Forall (en_caja caja) ind ->
  devuelve (reparar cfg existentes caja ind) (Forall (en_caja caja)).
Proof.
  intros Hc Hi. unfold reparar. destruct (penalizar_cercania cfg).
  - eapply devuelve_implica; [apply devuelve_repair_en_caja; assumption|].
    intros o [_ Ho]. exact Ho.
  - apply devuelve_ret. assumption.
Qed.

Lemma devuelve_crear_en_caja (cfg : Config) (existentes : list Punto)
  (caja : Caja) (semillas : list Punto) :
  (0 <= n_camaras_nuevas cfg)%Z \/ semillas = [] ->
  caja_ordenada caja ->
  devuelve (_crear_individuo cfg existentes caja semillas)
    (Forall (en_caja caja)).
Proof.
  intros Hn Hc. unfold _crear_individuo.
  apply devuelve_ligar with (P := fun _ : Individuo => True).
  - destruct semillas as [|s ss].
    + apply devuelve_ret. exact I.
    + destruct Hn as [Hn|Hn]; [|discriminate].
      eapply devuelve_ligar; [apply devuelve_random|]. intros u _.
      destruct (Qltb u (prob_usar_semilla cfg)).
      * eapply devuelve_implica; [apply devuelve_sample; lia | auto].
      * apply devuelve_ret. exact I.
  - intros ind _.
    eapply devuelve_ligar; [apply devuelve_completar|].
    intros ind' _.
    apply devuelve_reparar_en_caja;
      [assumption | apply map_clamp_en_caja; assumption].
Qed.

Lemma devuelve_cob_reproducir_en_caja (cfg : Config)
  (existentes : list Punto) (caja : Caja) (padres : list Individuo) :
  caja_ordenada caja ->
  forall faltan nueva,
    (faltan = O \/ padres <> []) ->
    devuelve (reproducir faltan cfg existentes caja padres nueva)
      (fun r =>
         exists hijos,
           r = nueva ++ hijos /\ Forall (Forall (en_caja caja)) hijos).
Proof.
  intro Hc.
  induction faltan as [|k IH]; intros nueva Hp; simpl.
  - apply devuelve_ret. exists []. rewrite app_nil_r. auto.
  - destruct Hp as [Hp|Hp]; [discriminate|].
    eapply devuelve_ligar; [apply devuelve_choice; assumption|].
    intros p1 _.
    eapply devuelve_ligar; [apply devuelve_choice; assumption|].
    intros p2 _.
    eapply devuelve_ligar; [apply devuelve_cruzar_individuo|].
    intros h _.
    eapply devuelve_ligar; [apply devuelve_mutar_individuo|].
    intros h' _.
    eapply devuelve_ligar;
      [apply devuelve_reparar_en_caja;
         [assumption | apply map_clamp_en_caja; assumption]|].
    intros h'' Hh''.
    eapply devuelve_implica; [apply IH; right; assumption|].
    intros r [hijos [-> HF]]. exists (h'' :: hijos).
    rewrite <- app_assoc. split; [reflexivity|].
    constructor; assumption.
Qed.

Lemma devuelve_cob_generacion_coherente (cfg : Config) (pe ex : list Punto)
  (caja : Caja) (e : Estado) :
  caja_ordenada caja -> (1 <= k_torneo cfg)%Z ->
  poblacion_en_caja caja e ->
  best_fit e < 0 \/ mejor_coherente cfg pe ex caja e ->
  devuelve (generacion cfg pe ex caja e)
    (fun r =>
       poblacion_en_caja caja (fst r)
       /\ mejor_coherente cfg pe ex caja (fst r)).
Proof.
  intros Hc Hk [Hne Hcaja] Hbest. unfold generacion.
  set (pob := poblacion e) in *.
  destruct (mejor_elite_es_mejor (fitness_individuo cfg pe ex)
              (cob_fitness_total cfg pe ex) (elitismo cfg) pob Hne)
    as (fs & els & m & Efs & Eel & Hincl & _ & _ & _ & x & Hx & _).
  pose proof (mapear_largo _ _ _ Efs) as Hl.
  pose proof (mapear_Forall2 _ _ _ Efs) as HF2.
  apply devuelve_ligar with (P := fun v => v = fs);
    [eapply devuelve_elevar; [exact Efs | reflexivity]|].
  intros ? ->.
  destruct (con_clave_ok fs (indices pob)) as (claves & Ec & Hm & Hnth).
  { intros i Hi. apply In_indices in Hi. lia. }
  apply devuelve_ligar with (P := fun v => v = claves);
    [eapply devuelve_elevar; [exact Ec | reflexivity]|].
  intros ? ->.
  destruct (py_max_key_ok (@snd nat Q) claves) as ([ib fb] & Eb & Hb & Hmax).
  { intro H. subst claves. destruct pob; [congruence | discriminate Hm]. }
  apply devuelve_ligar with (P := fun v => v = (ib, fb));
    [eapply devuelve_elevar; [exact Eb | reflexivity]|].
  intros ? ->. cbn [fst].
  pose proof (Hnth ib fb Hb) as Hfb.
  assert (Efb : py_index fs ib = Ok fb)
    by (unfold py_index; rewrite Hfb; reflexivity).
  apply devuelve_ligar with (P := fun v => v = fb);
    [eapply devuelve_elevar; [exact Efb | reflexivity]|].
  intros ? ->.
  assert (Hib : (ib < length pob)%nat).
  { apply In_indices. rewrite <- Hm.
    change ib with (fst (ib, fb)). apply in_map. assumption. }
  apply devuelve_ligar
    with (P := fun v : Q * Individuo =>
                 Forall (en_caja caja) (snd v)
                 /\ fitness_individuo cfg pe ex (snd v) = Ok (fst v)).
  { destruct (Qltb (best_fit e) fb) eqn:E; casos_Q.
    - destruct (nth_error pob ib) as [ind|] eqn:Eind;
        [|apply nth_error_None in Eind; lia].
      assert (Hind : py_index pob ib = Ok ind)
        by (unfold py_index; rewrite Eind; reflexivity).
      apply devuelve_ligar with (P := fun v => v = ind);
        [eapply devuelve_elevar; [exact Hind | reflexivity]|].
      intros ? ->. apply devuelve_ret. cbn [fst snd]. split.
      + rewrite Forall_forall in Hcaja. apply Hcaja.
        eapply nth_error_In. eassumption.
      + apply (Forall2_nth_error _ _ _ _ _ _ HF2 Eind Hfb).
    - apply devuelve_ret. cbn [fst snd].
      destruct Hbest as [Hneg|Hco]; [|exact Hco].
      exfalso.
      destruct (cob_evaluar_rango cfg pe ex pob fs Efs fb) as [H0 _];
        [eapply nth_error_In; eassumption | lra]. }
  intros [bf bi] Hco. cbn [fst snd] in Hco.
  apply devuelve_ligar with (P := fun v => v = els);
    [eapply devuelve_elevar; [exact Eel | reflexivity]|].
  intros ? ->.
  eapply devuelve_ligar;
    [apply devuelve_seleccion_torneo; assumption|].
  intros padres [Hlp Hpad].
  eapply devuelve_ligar.
  - apply devuelve_cob_reproducir_en_caja; [assumption|].
    destruct (Z.to_nat (tam_poblacion cfg - Z.of_nat (length els))) eqn:E;
      [left; reflexivity|].
    right. intro H. subst padres. simpl in Hlp. lia.
  - intros nueva [hijos [-> HF]]. apply devuelve_ret.
    unfold poblacion_en_caja, mejor_coherente.
    cbn [fst snd poblacion best_fit best_ind].
    split; [|exact Hco]. split.
    + destruct els; [destruct Hx | discriminate].
    + apply Forall_app. split; [|assumption].
      rewrite Forall_forall in *. intros p Hp. apply Hcaja, Hincl.
      assumption.
Qed.

Lemma devuelve_cob_bucle_coherente (cfg : Config) (pe ex : list Punto)
  (caja : Caja) :
  caja_ordenada caja -> (1 <= k_torneo cfg)%Z ->
  forall gens e,
    poblacion_en_caja caja e ->
    (best_fit e < 0 /\ gens <> O) \/ mejor_coherente cfg pe ex caja e ->
    devuelve (bucle gens cfg pe ex caja e)
      (fun r => mejor_coherente cfg pe ex caja (fst r)).
Proof.
  intros Hc Hk. induction gens as [|gens IH]; intros e Hpob Hbest; simpl.
  - apply devuelve_ret. cbn [fst].
    destruct Hbest as [[_ H]|H]; [congruence | exact H].
  - eapply devuelve_ligar.
    + apply (devuelve_cob_generacion_coherente cfg pe ex caja e Hc Hk Hpob).
      destruct Hbest as [[H _]|H]; [left | right]; assumption.
    + intros [e1 fs] [Hpob1 Hco1]. cbn [fst] in *.
      eapply devuelve_ligar; [apply (IH e1 Hpob1); right; exact Hco1|].
      intros [e2 hist] Hco2. cbn [fst] in *.
      apply devuelve_ret. exact Hco2.
Qed.

Lemma devuelve_mejorar_cobertura_coherente (gas : nat) (c p : Punto)
  (cs ps : list Punto) (cfg : Config) :
  puntos_eval cfg = Some (p :: ps) ->
  ((0 <= n_camaras_nuevas cfg)%Z \/ puntos_semilla cfg = None) ->
  (1 <= tam_poblacion cfg)%Z -> (1 <= generaciones cfg)%Z ->
  (1 <= k_torneo cfg)%Z -> 0 <= bbox_margin_factor cfg ->
  devuelve (algoritmo_genetico_mejorar_cobertura gas (c :: cs) cfg)
    (fun r =>
       exists caja,
         caja_ampliada (c :: cs) (bbox_margin_factor cfg) = Ok caja
         /\ Forall (en_caja caja) (camaras_nuevas r)
         /\ fitness_individuo cfg (p :: ps) (c :: cs) (camaras_nuevas r)
            = Ok (fitness r)
         /\ metricas_niveles_cobertura (p :: ps)
              ((c :: cs) ++ camaras_nuevas r) (radio_m cfg)
            = Ok (metricas r)).
Proof.
  intros Hpe Hn Ht Hg Hk Hm. unfold algoritmo_genetico_mejorar_cobertura.
  rewrite Hpe.
  apply devuelve_ligar with (P := fun v => v = p :: ps);
    [apply devuelve_ret; reflexivity|].
  intros ? ->.
  apply devuelve_ligar with (P := fun v => v = p :: ps);
    [apply devuelve_ret; reflexivity|].
  intros ? ->.
  destruct (caja_ampliada_ordenada c cs (bbox_margin_factor cfg) Hm)
    as [caja [Hc Hord]].
  apply devuelve_ligar with (P := fun v => v = caja);
    [eapply devuelve_elevar; [exact Hc | reflexivity]|].
  intros ? ->.
  eapply devuelve_ligar.
  { apply devuelve_repetir. apply devuelve_crear_en_caja; [|exact Hord].
    destruct Hn as [Hn|Hn]; [left; assumption|].
    right. rewrite Hn. reflexivity. }
  intros pob [Hlp Hcaja].
  set (e0 := {| poblacion := pob; best_ind := []; best_fit := - (1) |}).
  eapply devuelve_ligar.
  { apply (devuelve_cob_bucle_coherente cfg (p :: ps) (c :: cs) caja Hord Hk
             (Z.to_nat (generaciones cfg)) e0).
    - split; [|exact Hcaja].
      simpl. intro H. subst pob. simpl in Hlp. lia.
    - left. split; [simpl; lra | lia]. }
  intros [e' hist] [Hb1 Hb2]. cbn [fst] in *.
  destruct (metricas_forma (p :: ps) ((c :: cs) ++ best_ind e') (radio_m cfg))
    as (ct & sc & n1 & n2 & n3 & Hmet).
  apply devuelve_ligar with (P := fun v => v = dict_metricas ct sc n1 n2 n3);
    [eapply devuelve_elevar; [exact Hmet | reflexivity]|].
  intros ? ->. apply devuelve_ret.
  cbn [camaras_nuevas fitness metricas].
  exists caja. auto.
Qed.

End ResultadoCobertura.

(** X15.  [algoritmo_genetico_mejorar_cobertura], on a non-empty camera
    list with a caller-supplied non-empty evaluation grid, at least one
    individual, one generation and a tournament of at least one, and a
    non-negative box margin: every returned camera lies inside the widened
    bounding box, the returned [fitness] is the loop's fitness of exactly
    the returned cameras, and the returned [metricas] are the coverage
    metrics of the existing cameras together with the returned ones. *)
Theorem mejorar_cobertura_resultado_coherente :
  forall (G : Geodesia) (A : Azar) (c p : Punto) (cs ps : list Punto)
    (cfg : Cobertura.Config) (gas : nat) (g : Rng),
    Cobertura.puntos_eval cfg = Some (p :: ps) ->
    (0 <= Cobertura.n_camaras_nuevas cfg)%Z ->
    (1 <= Cobertura.tam_poblacion cfg)%Z ->
    (1 <= Cobertura.generaciones cfg)%Z ->
    (1 <= Cobertura.k_torneo cfg)%Z ->
    0 <= Cobertura.bbox_margin_factor cfg ->
    exists r g' caja,
      Cobertura.algoritmo_genetico_mejorar_cobertura gas (c :: cs) cfg g
      = Ok (r, g')
      /\ caja_ampliada (c :: cs) (Cobertura.bbox_margin_factor cfg) = Ok caja
      /\ (forall q, In q (Cobertura.camaras_nuevas r) -> en_caja caja q)
      /\ Cobertura.fitness_individuo cfg (p :: ps) (c :: cs)
           (Cobertura.camaras_nuevas r)
         = Ok (Cobertura.fitness r)
      /\ Cobertura.metricas_niveles_cobertura (p :: ps)
           ((c :: cs) ++ Cobertura.camaras_nuevas r) (Cobertura.radio_m cfg)
         = Ok (Cobertura.metricas r).
Proof.
  intros G A c p cs ps cfg gas g Hpe Hn Ht Hg Hk Hm.
  destruct (devuelve_mejorar_cobertura_coherente gas c p cs ps cfg Hpe
              (or_introl Hn) Ht Hg Hk Hm g)
    as (r & g' & E & caja & Hc & HF & Hfit & Hmet).
  exists r, g', caja. split; [exact E|]. split; [exact Hc|].
  split; [rewrite Forall_forall in HF; exact HF|]. split; assumption.
Qed.

Lemma mejorar_cobertura_resultado_coherente_ejemplo :
  exists r g' caja,
    Cobertura.algoritmo_genetico_mejorar_cobertura
      (G := geodesia_plana) (A := azar_lcg) 0 [(0, 0)] cfg_cob_ejemplo 7%Z
    = Ok (r, g')
    /\ caja_ampliada [(0, 0)] (Cobertura.bbox_margin_factor cfg_cob_ejemplo)
       = Ok caja
    /\ (forall q, In q (Cobertura.camaras_nuevas r) -> en_caja caja q)
    /\ Cobertura.fitness_individuo (G := geodesia_plana) cfg_cob_ejemplo
         [(0, 0); (1 # 1000, 1 # 1000)] [(0, 0)]
         (Cobertura.camaras_nuevas r)
       = Ok (Cobertura.fitness r)
    /\ Cobertura.metricas_niveles_cobertura (G := geodesia_plana)
         [(0, 0); (1 # 1000, 1 # 1000)]
         ([(0, 0)] ++ Cobertura.camaras_nuevas r)
         (Cobertura.radio_m cfg_cob_ejemplo)
       = Ok (Cobertura.metricas r).
Proof.
  apply (mejorar_cobertura_resultado_coherente geodesia_plana azar_lcg
           (0, 0) (0, 0) [] [(1 # 1000, 1 # 1000)] cfg_cob_ejemplo 0 7%Z);
    simpl; first [reflexivity | lia | lra].
Defined.

(* ================================================================== *)
(** ** What the blind-spot search returns                               *)
(* ================================================================== *)

Lemma Forall2_combine {X Y : Type} (R : X -> Y -> Prop) (l : list X)
  (l' : list Y) (x : X) (y : Y) :
  Forall2 R l l' -> In (x, y) (combine l l') -> R x y /\ In x l.
Proof.
  induction 1 as [|x' y' l l' Hr HF IH]; intro Hin; [destruct Hin|].
  destruct Hin as [Hin|Hin].
  - injection Hin as <- <-. split; [assumption | left; reflexivity].
  - destruct (IH Hin) as [H1 H2]. split; [assumption | right; assumption].
Qed.

Lemma seleccionar_espaciados_incl {G : Geodesia}
  (candidatos : list PuntosCiegos.Candidato) (min_sep_m : Q)
  (max_puntos : Z) :
  incl (PuntosCiegos.seleccionar_espaciados candidatos min_sep_m max_puntos)
    candidatos
  /\ (Z.of_nat
        (length
           (PuntosCiegos.seleccionar_espaciados candidatos min_sep_m
              max_puntos))
      <= Z.max 0 max_puntos)%Z.
Proof.
  destruct (pasada_separada_forma min_sep_m max_puntos candidatos [])
    as (voraz & E1 & _ & E3 & E4).
  { intros i j ci cj _ Hi. destruct i; discriminate. }
  simpl in E1, E4.
  unfold PuntosCiegos.seleccionar_espaciados. rewrite E1.
  destruct (Z.of_nat (length voraz) <? max_puntos)%Z eqn:E.
  - apply Z.ltb_lt in E.
    destruct (rellenar_forma max_puntos candidatos voraz)
      as (relleno & R1 & R2 & _ & R4).
    rewrite R1. split; [apply incl_app; assumption | lia].
  - split; [exact E3 | lia].
Qed.

Section ResultadoPuntosCiegos.

Context {G : Geodesia} {A : Azar}.

Import PuntosCiegos.

Lemma uniform_en_intervalo (a b : Q) :
  azar_unitario A -> a <= b ->
  devuelve (random_uniform a b) (fun v => a <= v /\ v <= b).
Proof.
  intros Hu Hab g. unfold random_uniform, ligarA, random_random, ret.
  destruct (Hu g) as [H0 H1].
  destruct (rnd_random g) as [u g']. cbn [fst] in *.
  do 2 eexists. split; [reflexivity|].
  apply mezcla_en_intervalo; assumption.
Qed.

Lemma punto_aleatorio_en_caja (caja : Caja) :
  azar_unitario A -> caja_ordenada caja ->
  devuelve (punto_aleatorio caja) (en_caja caja).
Proof.
  intros Hu [H1 H2]. unfold punto_aleatorio.
  eapply devuelve_ligar; [apply uniform_en_intervalo; assumption|].
  intros a Ha.
  eapply devuelve_ligar; [apply uniform_en_intervalo; assumption|].
  intros b Hb. apply devuelve_ret. unfold en_caja. cbn [fst snd].
  destruct Ha, Hb. repeat split; assumption.
Qed.

Lemma siempre_pc_reproducir (cfg : Config) (caja : Caja)
  (padres : list Punto) :
  caja_ordenada caja ->
  forall faltan nueva,
    siempre (reproducir faltan cfg caja padres nueva)
      (fun r =>
         exists hijos, r = nueva ++ hijos /\ Forall (en_caja caja) hijos).
Proof.
  intro Hc. induction faltan as [|n IH]; intro nueva; simpl.
  - apply siempre_ret. exists []. rewrite app_nil_r. auto.
  - eapply siempre_ligar; [apply siempre_cierto|]. intros p1 _.
    eapply siempre_ligar; [apply siempre_cierto|]. intros p2 _.
    eapply siempre_ligar; [apply siempre_cierto|]. intros h _.
    eapply siempre_ligar;
      [apply devuelve_siempre, mutar_en_caja; assumption|].
    intros h' Hh'.
    eapply siempre_implica; [apply IH|].
    intros r [hijos [-> HF]]. exists (h' :: hijos).
    rewrite <- app_assoc. split; [reflexivity | constructor; assumption].
Qed.

Lemma siempre_pc_generacion (cfg : Config) (camaras : list Punto)
  (caja : Caja) (pob : list Punto) :
  caja_ordenada caja -> Forall (en_caja caja) pob ->
  siempre (generacion cfg camaras caja pob) (Forall (en_caja caja)).
Proof.
  intros Hc Hcaja. unfold generacion.
  eapply siempre_ligar; [apply siempre_cierto|]. intros fs _.
  apply siempre_ligar with (P := fun els => incl els pob).
  { apply siempre_elevar. intros els Eel.
    apply (elites_de_incl _ _ _ _ Eel). }
  intros els Hincl.
  eapply siempre_ligar; [apply siempre_cierto|]. intros padres _.
  eapply siempre_implica; [apply siempre_pc_reproducir; assumption|].
  intros r [hijos [-> HF]]. apply Forall_app. split; [|assumption].
  rewrite Forall_forall in *. intros p Hp. apply Hcaja, Hincl. assumption.
Qed.

Lemma siempre_pc_bucle (cfg : Config) (camaras : list Punto)
  (caja : Caja) :
  caja_ordenada caja ->
  forall gens pob,
    Forall (en_caja caja) pob ->
    siempre (bucle gens cfg camaras caja pob) (Forall (en_caja caja)).
Proof.
  intro Hc. induction gens as [|gens IH]; intros pob Hcaja; simpl.
  - apply siempre_ret. assumption.
  - eapply siempre_ligar; [apply siempre_pc_generacion; assumption|].
    intros nueva H. apply IH. assumption.
Qed.

(** What the blind-spot search returns, when it returns. *)
Lemma siempre_puntos_ciegos (c : Punto) (cs : list Punto) (cfg : Config)
  (caja : Caja) :
  azar_unitario A ->
  caja_ampliada (c :: cs) (bbox_margin_factor cfg) = Ok caja ->
  caja_ordenada caja ->
  siempre (algoritmo_genetico_puntos_ciegos (c :: cs) cfg)
    (fun r =>
       (Z.of_nat (length r) <= Z.max 0 (num_puntos_resultado cfg))%Z
       /\ forall lat lon fit,
            In (lat, lon, fit) r ->
            en_caja caja (lat, lon)
            /\ fitness_individuo cfg (c :: cs) (lat, lon) = Ok fit
            /\ 0 <= fit /\ fit <= 1).
Proof.
  intros Hu Hc Hord. unfold algoritmo_genetico_puntos_ciegos.
  apply siempre_ligar with (P := fun v => v = caja).
  { apply siempre_elevar. intros x Hx. congruence. }
  intros ? ->.
  eapply siempre_ligar;
    [apply devuelve_siempre, devuelve_repetir, punto_aleatorio_en_caja;
     assumption|].
  intros pob0 [_ Hcaja0].
  eapply siempre_ligar; [apply siempre_pc_bucle; eassumption|].
  intros pob Hcaja.
  apply siempre_ligar
    with (P := fun fs => evaluar cfg (c :: cs) pob = Ok fs);
    [apply siempre_elevar; auto|].
  intros fs Efs. pose proof (mapear_Forall2 _ _ _ Efs) as HF2.
  apply siempre_ret. cbv zeta.
  match goal with
  | |- context [seleccionar_espaciados ?cands ?ms ?cap] =>
      destruct (seleccionar_espaciados_incl cands ms cap) as [Hin Hlen];
      set (candidatos := cands) in *
  end.
  split; [exact Hlen|].
  intros lat lon fit Hr. apply Hin in Hr.
  apply (Permutation_in _
           (Permutation_sym (sorted_key_reverse_perm _ _))) in Hr.
  apply in_map_iff in Hr. destruct Hr as [[[a b] f] [Epf Hpf]].
  cbn [fst snd] in Epf. injection Epf as -> -> ->.
  destruct (Forall2_combine _ _ _ _ _ HF2 Hpf) as [Hfit Hp].
  rewrite Forall_forall in Hcaja.
  split; [apply Hcaja; exact Hp|]. split; [exact Hfit|].
  unfold fitness_individuo in Hfit.
  destruct (fitness_punto_total (lat, lon) (c :: cs) (radio_cobertura_m cfg)
              (max_interes_m cfg) (max_extrapolacion_m cfg) (k_vecinos cfg)
              (1 # 10)) as (v & Hv & Hr).
  rewrite Hv in Hfit. injection Hfit as <-. exact Hr.
Qed.

End ResultadoPuntosCiegos.

(** X16.  [algoritmo_genetico_puntos_ciegos] on a non-empty camera list,
    with a non-negative box margin and [random.random()] in the unit
    interval: what it returns holds at most [max(0, num_puntos_resultado)]
    triples, and each returned [(lat, lon, fit)] is a point of the widened
    bounding box together with its own [fitness_punto_completo] value,
    which lies in [0, 1]. *)
Theorem puntos_ciegos_resultado_coherente :
  forall (G : Geodesia) (A : Azar) (c : Punto) (cs : list Punto)
    (cfg : PuntosCiegos.Config) (g : Rng)
    (r : list PuntosCiegos.Candidato) (g' : Rng),
    azar_unitario A ->
    0 <= PuntosCiegos.bbox_margin_factor cfg ->
    PuntosCiegos.algoritmo_genetico_puntos_ciegos (c :: cs) cfg g
    = Ok (r, g') ->
    exists caja,
      caja_ampliada (c :: cs) (PuntosCiegos.bbox_margin_factor cfg)
      = Ok caja
      /\ (Z.of_nat (length r)
          <= Z.max 0 (PuntosCiegos.num_puntos_resultado cfg))%Z
      /\ forall lat lon fit,
           In (lat, lon, fit) r ->
           en_caja caja (lat, lon)
           /\ PuntosCiegos.fitness_punto_completo (lat, lon) (c :: cs)
                (PuntosCiegos.radio_cobertura_m cfg)
                (PuntosCiegos.max_interes_m cfg)
                (PuntosCiegos.max_extrapolacion_m cfg)
                (PuntosCiegos.k_vecinos cfg) (1 # 10)
              = Ok fit
           /\ 0 <= fit /\ fit <= 1.
Proof.
  intros G A c cs cfg g r g' Hu Hm E.
  destruct (caja_ampliada_ordenada c cs (PuntosCiegos.bbox_margin_factor cfg)
              Hm) as [caja [Hc Hord]].
  exists caja. split; [exact Hc|].
  exact (siempre_puntos_ciegos c cs cfg caja Hu Hc Hord g r g' E).
Qed.

(** A run that returns: two cameras, a population of two, one generation,
    two results asked for. *)
Lemma puntos_ciegos_resultado_coherente_ejemplo :
  exists r g' caja,
    PuntosCiegos.algoritmo_genetico_puntos_ciegos
      (G := geodesia_plana) (A := azar_lcg)
      [(0, 0); (1 # 100, 1 # 100)] cfg_pc_ejemplo 7%Z
    = Ok (r, g')
    /\ caja_ampliada [(0, 0); (1 # 100, 1 # 100)]
         (PuntosCiegos.bbox_margin_factor cfg_pc_ejemplo)
       = Ok caja
    /\ (Z.of_nat (length r)
        <= Z.max 0 (PuntosCiegos.num_puntos_resultado cfg_pc_ejemplo))%Z
    /\ forall lat lon fit,
         In (lat, lon, fit) r ->
         en_caja caja (lat, lon)
         /\ PuntosCiegos.fitness_punto_completo (G := geodesia_plana)
              (lat, lon) [(0, 0); (1 # 100, 1 # 100)]
              (PuntosCiegos.radio_cobertura_m cfg_pc_ejemplo)
              (PuntosCiegos.max_interes_m cfg_pc_ejemplo)
              (PuntosCiegos.max_extrapolacion_m cfg_pc_ejemplo)
              (PuntosCiegos.k_vecinos cfg_pc_ejemplo) (1 # 10)
            = Ok fit
         /\ 0 <= fit /\ fit <= 1.
Proof.
  destruct (PuntosCiegos.algoritmo_genetico_puntos_ciegos
              (G := geodesia_plana) (A := azar_lcg)
              [(0, 0); (1 # 100, 1 # 100)] cfg_pc_ejemplo 7%Z)
    as [[r g']|err] eqn:E; [|vm_compute in E; discriminate E].
  destruct (puntos_ciegos_resultado_coherente geodesia_plana azar_lcg
              (0, 0) [(1 # 100, 1 # 100)] cfg_pc_ejemplo 7%Z r g')
    as (caja & H).
  - exact azar_lcg_unitario.
  - simpl. lra.
  - exact E.
  - exists r, g', caja. split; [reflexivity | exact H].
Defined.

(* ================================================================== *)
(** ** The what-if endpoint of [main.py]                                *)
(* ================================================================== *)

(** [round(y)] on an exact number: the nearest integer, a tie going to the
    even one; and [round(x, 2)], the nearest multiple of [1/100]. *)
Definition redondear_par (y : Q) : Z :=
  let f := Qfloor y in
  let r := y - inject_Z f in
  if Qltb r (1 # 2) then f
  else if Qltb (1 # 2) r then (f + 1)%Z
  else if Z.even f then f else (f + 1)%Z.

Definition py_round2 (x : Q) : Q := inject_Z (redondear_par (x * 100)) / 100.

Module Api.

Section Definiciones.

Context {G : Geodesia} {A : Azar}.

(** [evaluar_camara_simulada] as a function of the stored cameras
    ([db.query(Camara).all()], already as coordinate pairs) and of the
    proposed camera; the answer [{"coverage": _, "delta": _}] is the pair
    of its two values. *)
Definition evaluar_camara_simulada (gas : nat) (camaras_db : list Punto)
  (datos : Punto) : Aleatorio (Q * Q) :=
  match camaras_db with
  | [] => ret (0, 0)
  | _ :: _ =>
      let camaras_existentes := camaras_db in
      let! puntos_eval :=
        Cobertura.generar_grid_puntos gas camaras_existentes 250 (5 # 100)
          1500 in
      let cam_propuesta := datos in
      let! met_before :=
        elevar (Cobertura.metricas_niveles_cobertura puntos_eval
                  camaras_existentes 120) in
      let! met_after :=
        elevar (Cobertura.metricas_niveles_cobertura puntos_eval
                  (camaras_existentes ++ [cam_propuesta]) 120) in
      let before :=
        match Cobertura.dict_get met_before "cobertura_total" with
        | Some v => v
        | None => 0
        end in
      let after :=
        match Cobertura.dict_get met_after "cobertura_total" with
        | Some v => v
        | None => 0
        end in
      let delta := after - before in
      ret (py_round2 after, py_round2 delta)
  end.

End Definiciones.

End Api.

Lemma redondear_par_cotas (y : Q) (k : Z) :
  (inject_Z k <= y -> (k <= redondear_par y)%Z)
  /\ (y <= inject_Z k -> (redondear_par y <= k)%Z).
Proof.
  unfold redondear_par.
  pose proof (Qfloor_le y) as H1. pose proof (Qlt_floor y) as H2.
  set (f := Qfloor y) in *.
  rewrite inject_Z_plus in H2. change (inject_Z 1) with 1 in H2.
  split; intro H.
  - assert (Hk : (k < f + 1)%Z).
    { rewrite Zlt_Qlt, inject_Z_plus. change (inject_Z 1) with 1. lra. }
    destruct (Qltb _ _); [lia|]. destruct (Qltb _ _); [lia|].
    destruct (Z.even f); lia.
  - assert (Hk : (f <= k)%Z) by (rewrite Zle_Qle; lra).
    destruct (Qltb (y - inject_Z f) (1 # 2)) eqn:E; [lia|].
    apply Qltb_ge in E.
    assert (Hk' : (f < k)%Z) by (rewrite Zlt_Qlt; lra).
    destruct (Qltb _ _); [lia|]. destruct (Z.even f); lia.
Qed.

Lemma py_round2_rango (x : Q) :
  (0 <= x -> 0 <= py_round2 x) /\ (x <= 100 -> py_round2 x <= 100).
Proof.
  unfold py_round2. split; intro H.
  - destruct (redondear_par_cotas (x * 100) 0) as [Hk _].
    assert (Hn : (0 <= redondear_par (x * 100))%Z)
      by (apply Hk; change (inject_Z 0) with 0; lra).
    rewrite Zle_Qle in Hn. change (inject_Z 0) with 0 in Hn.
    apply Qle_shift_div_l; lra.
  - destruct (redondear_par_cotas (x * 100) 10000) as [_ Hk].
    assert (Hn : (redondear_par (x * 100) <= 10000)%Z)
      by (apply Hk; change (inject_Z 10000) with 10000; lra).
    rewrite Zle_Qle in Hn. change (inject_Z 10000) with 10000 in Hn.
    apply Qle_shift_div_r; lra.
Qed.

Lemma cobertura_total_monotona (G : Geodesia) (pe cams otras : list Punto)
  (r : Q) :
  exists ct sc n1 n2 n3 ct' sc' n1' n2' n3',
    Cobertura.metricas_niveles_cobertura pe cams r
    = Ok (dict_metricas ct sc n1 n2 n3)
    /\ Cobertura.metricas_niveles_cobertura pe (cams ++ otras) r
       = Ok (dict_metricas ct' sc' n1' n2' n3')
    /\ 0 <= ct /\ ct <= ct' /\ ct' <= 100.
Proof.
  destruct pe as [|p ps].
  - exists 0, 100, 0, 0, 0, 0, 100, 0, 0, 0.
    split; [reflexivity|]. split; [reflexivity|]. repeat split; lra.
  - destruct (metricas_rango p ps cams r)
      as (ct & sc & n1 & n2 & n3 & E & Hsc & Hct & [R1 _] & _).
    destruct (metricas_rango p ps (cams ++ otras) r)
      as (ct' & sc' & n1' & n2' & n3' & E' & Hsc' & Hct' & [_ R2] & _).
    exists ct, sc, n1, n2, n3, ct', sc', n1', n2', n3'.
    split; [exact E|]. split; [exact E'|].
    assert (Hm : sc' <= sc).
    { rewrite Hsc, Hsc'. apply pct_monotono. apply sin_cubrir_monotono. }
    repeat split; [exact R1 | rewrite Hct, Hct'; lra | exact R2].
Qed.

(** X17.  [evaluar_camara_simulada] ([main.py]): with no stored camera it
    answers coverage 0 and delta 0 without drawing a random number; with
    stored cameras, a coverage it answers lies in [0, 100] and a delta it
    answers lies in [0, 100]: a proposed camera never lowers the coverage
    the endpoint reports. *)
Theorem camara_simulada_no_empeora :
  forall (G : Geodesia) (A : Azar) (datos : Punto),
    (forall gas g,
        Api.evaluar_camara_simulada gas [] datos g = Ok ((0, 0), g))
    /\ forall (c : Punto) (cs : list Punto) (gas : nat) (g : Rng)
         (coverage delta : Q) (g' : Rng),
         Api.evaluar_camara_simulada gas (c :: cs) datos g
         = Ok ((coverage, delta), g') ->
         0 <= coverage /\ coverage <= 100 /\ 0 <= delta /\ delta <= 100.
Proof.
  intros G A datos. split; [reflexivity|].
  intros c cs gas g coverage delta g'.
  assert (H : siempre (Api.evaluar_camara_simulada gas (c :: cs) datos)
                (fun r => 0 <= fst r /\ fst r <= 100
                          /\ 0 <= snd r /\ snd r <= 100)).
  { unfold Api.evaluar_camara_simulada. cbv zeta.
    eapply siempre_ligar; [apply siempre_cierto|]. intros pe _.
    destruct (cobertura_total_monotona G pe (c :: cs) [datos] 120)
      as (ct & sc & n1 & n2 & n3 & ct' & sc' & n1' & n2' & n3'
          & E & E' & H0 & Hm & H100).
    apply siempre_ligar
      with (P := fun d => d = dict_metricas ct sc n1 n2 n3).
    { apply siempre_elevar. intros d Hd. congruence. }
    intros ? ->.
    apply siempre_ligar
      with (P := fun d => d = dict_metricas ct' sc' n1' n2' n3').
    { apply siempre_elevar. intros d Hd. congruence. }
    intros ? ->.
    change (Cobertura.dict_get (dict_metricas ct sc n1 n2 n3)
              "cobertura_total") with (Some ct).
    change (Cobertura.dict_get (dict_metricas ct' sc' n1' n2' n3')
              "cobertura_total") with (Some ct').
    apply siempre_ret. cbn [fst snd].
    destruct (py_round2_rango ct') as [Ha Hb].
    destruct (py_round2_rango (ct' - ct)) as [Hc Hd].
    split; [apply Ha; lra|]. split; [apply Hb; lra|].
    split; [apply Hc; lra | apply Hd; lra]. }
  intro E. exact (H g (coverage, delta) g' E).
Qed.

(** Two stored cameras 1.4 km apart and a proposed one between them: the
    endpoint answers, with a coverage and a delta in range. *)
Lemma camara_simulada_no_empeora_ejemplo :
  exists coverage delta g',
    Api.evaluar_camara_simulada (G := geodesia_plana) (A := azar_lcg) 100
      [(0, 0); (1 # 100, 3 # 1000)] (5 # 1000, 1 # 1000) 7%Z
    = Ok ((coverage, delta), g')
    /\ 0 <= coverage /\ coverage <= 100 /\ 0 <= delta /\ delta <= 100.
Proof.
  destruct (Api.evaluar_camara_simulada (G := geodesia_plana)
              (A := azar_lcg) 100 [(0, 0); (1 # 100, 3 # 1000)]
              (5 # 1000, 1 # 1000) 7%Z)
    as [[[coverage delta] g']|err] eqn:E;
    [|vm_compute in E; discriminate E].
  exists coverage, delta, g'. split; [reflexivity|].
  destruct (camara_simulada_no_empeora geodesia_plana azar_lcg
              (5 # 1000, 1 # 1000)) as [_ H].
  exact (H (0, 0) [(1 # 100, 3 # 1000)] 100%nat 7%Z coverage delta g' E).
Defined.

(* ================================================================== *)
(** ** The border penalty of the point fitness                          *)
(* ================================================================== *)

Lemma clamp_cota_superior (v lo hi m : Q) :
  v <= m -> lo <= m -> _clamp v lo hi <= m.
Proof.
  intros Hv Hlo. unfold _clamp.
  pose proof (py_min_cota hi v) as [_ H1].
  destruct (py_max_es lo (py_min hi v)) as [E|E]; rewrite E; lra.
Qed.

Section HechosBorde.

Context {G : Geodesia}.

Import PuntosCiegos.

(** The test [cerca_borde] of [fitness_punto_completo]. *)
Definition cerca_borde (a b c' d borde lat lon : Q) : bool :=
  Qltb lat (a + py_max (b - a) eps9 * borde)
  || Qltb (b - py_max (b - a) eps9 * borde) lat
  || Qltb lon (c' + py_max (d - c') eps9 * borde)
  || Qltb (d - py_max (d - c') eps9 * borde) lon.

Lemma fitness_cerca_borde (lat lon : Q) (c : Punto) (cs : list Punto)
  (radio interes extrap : Q) (k : Z) (borde a b c' d : Q) :
  _bbox (c :: cs) = Ok (a, b, c', d) ->
  cerca_borde a b c' d borde lat lon = true ->
  exists v,
    fitness_punto_completo (lat, lon) (c :: cs) radio interes extrap k borde
    = Ok v
    /\ v <= 85 # 100.
Proof.
  intros Hb Hcb. unfold cerca_borde in Hcb.
  destruct (dist_min_ok lat lon c cs) as [dmin Hd].
  destruct (Qle_bool dmin radio) eqn:Hle.
  - rewrite (fitness_punto_rama_cubierta _ _ _ _ _ _ _ _ _ _ Hd Hle).
    eexists. split; [reflexivity|].
    unfold score_cubierto.
    destruct (clamp_entre ((5 # 100) * (dmin / py_max radio eps9))
                0 (5 # 100)) as [_ H2]; lra.
  - unfold fitness_punto_completo.
    rewrite Hd. cbn [ligar]. rewrite Hle.
    rewrite !py_div_ok by (apply py_max_eps_no_nulo, eps9_pos).
    cbn [ligar].
    destruct (dist_prom_ok lat lon (c :: cs) k) as [dk Hk]. rewrite Hk.
    cbn [ligar].
    rewrite py_div_ok by (apply py_max_eps_no_nulo, eps9_pos).
    cbn [ligar].
    destruct (centroide_ok c cs) as [[clat clon] Hc]. rewrite Hc.
    cbn [ligar].
    match goal with
    | |- context [_clamp (py_min dmin interes / ?z) 0 1] =>
        destruct (clamp_entre (py_min dmin interes / z) 0 1) as [_ Hh];
        [lra|]
    end.
    match goal with
    | |- context [_clamp (1 - ?z) 0 1] =>
        destruct (clamp_entre (1 - z) 0 1) as [_ Hi]; [lra|]
    end.
    destruct (Qltb interes (haversine_m lat lon clat clon)).
    + rewrite py_div_ok by (apply py_max_eps_no_nulo, eps9_pos).
      cbn [ligar]. rewrite Hb. cbn [ligar]. cbv zeta. rewrite Hcb.
      eexists. split; [reflexivity|].
      match goal with
      | |- context [_clamp ?z 0 1 * (1 # 2)] =>
          destruct (clamp_entre z 0 1) as [Hp _]; [lra|]
      end.
      apply clamp_cota_superior; lra.
    + cbn [ligar]. rewrite Hb. cbn [ligar]. cbv zeta. rewrite Hcb.
      eexists. split; [reflexivity|].
      apply clamp_cota_superior; lra.
Qed.

Lemma fuera_de_bbox_cerca_borde (a b c' d borde lat lon : Q) :
  0 <= borde ->
  lat < a \/ b < lat \/ lon < c' \/ d < lon ->
  cerca_borde a b c' d borde lat lon = true.
Proof.
  intros Hb H. unfold cerca_borde.
  assert (H1 : 0 <= py_max (b - a) eps9 * borde).
  { apply Qmult_le_0_compat; [|assumption].
    pose proof (py_max_cota (b - a) eps9) as [_ ?].
    pose proof eps9_pos. lra. }
  assert (H2 : 0 <= py_max (d - c') eps9 * borde).
  { apply Qmult_le_0_compat; [|assumption].
    pose proof (py_max_cota (d - c') eps9) as [_ ?].
    pose proof eps9_pos. lra. }
  rewrite !orb_true_iff, !Qltb_lt.
  destruct H as [H|[H|[H|H]]]; [left; left; left | left; left; right
                                | left; right | right]; lra.
Qed.

Lemma caja_degenerada_cerca_borde (a c' d borde lat lon : Q) :
  0 < borde -> cerca_borde a a c' d borde lat lon = true.
Proof.
  intro Hb. unfold cerca_borde.
  assert (H1 : 0 < py_max (a - a) eps9 * borde).
  { apply Qmult_lt_0_compat; [|assumption].
    pose proof (py_max_cota (a - a) eps9) as [_ ?].
    pose proof eps9_pos. lra. }
  rewrite !orb_true_iff, !Qltb_lt.
  destruct (Qlt_le_dec lat (a + py_max (a - a) eps9 * borde)) as [H|H];
    [left; left; left | left; left; right]; lra.
Qed.

End HechosBorde.

(** X18.  [fitness_punto_completo] with a non-negative border fraction: a
    point outside the bounding box of the cameras never scores above 0.85
    (it is always taken as close to the border), and with a positive border
    fraction and a single camera no point at all scores above 0.85. *)
Theorem penalizacion_de_borde :
  forall (G : Geodesia) (lat lon : Q) (c : Punto) (cs : list Punto)
    (radio_cobertura_m max_interes_m max_extrapolacion_m : Q)
    (k_vecinos : Z) (borde_frac_penal : Q),
    0 <= borde_frac_penal ->
    exists min_lat max_lat min_lon max_lon v,
      _bbox (c :: cs) = Ok (min_lat, max_lat, min_lon, max_lon)
      /\ PuntosCiegos.fitness_punto_completo (lat, lon) (c :: cs)
           radio_cobertura_m max_interes_m max_extrapolacion_m k_vecinos
           borde_frac_penal
         = Ok v
      /\ (lat < min_lat \/ max_lat < lat \/ lon < min_lon \/ max_lon < lon ->
          v <= 85 # 100)
      /\ (cs = [] -> 0 < borde_frac_penal -> v <= 85 # 100).
Proof.
  intros G lat lon c cs radio interes extrap k borde Hb.
  destruct (bbox_ok c cs) as (a & b & c' & d & Ebox).
  destruct (fitness_punto_total (lat, lon) (c :: cs) radio interes extrap k
              borde) as (v & Ev & _).
  exists a, b, c', d, v. split; [exact Ebox|]. split; [exact Ev|]. split.
  - intro H.
    destruct (fitness_cerca_borde lat lon c cs radio interes extrap k borde
                a b c' d Ebox
                (fuera_de_bbox_cerca_borde a b c' d borde lat lon Hb H))
      as (v' & Ev' & Hv').
    rewrite Ev in Ev'. injection Ev' as <-. exact Hv'.
  - intros -> Hpos.
    assert (E1 : _bbox [c] = Ok (fst c, fst c, snd c, snd c))
      by reflexivity.
    rewrite E1 in Ebox. injection Ebox as <- <- <- <-.
    destruct (fitness_cerca_borde lat lon c [] radio interes extrap k borde
                (fst c) (fst c) (snd c) (snd c) E1
                (caja_degenerada_cerca_borde (fst c) (snd c) (snd c) borde
                   lat lon Hpos))
      as (v' & Ev' & Hv').
    rewrite Ev in Ev'. injection Ev' as <-. exact Hv'.
Qed.

Lemma penalizacion_de_borde_ejemplo :
  exists min_lat max_lat min_lon max_lon v,
    _bbox [(0, 0); (1 # 100, 1 # 100)]
    = Ok (min_lat, max_lat, min_lon, max_lon)
    /\ PuntosCiegos.fitness_punto_completo (G := geodesia_plana)
         (2 # 100, 0) [(0, 0); (1 # 100, 1 # 100)] 80 350 900 4 (1 # 10)
       = Ok v
    /\ (2 # 100 < min_lat \/ max_lat < 2 # 100 \/ 0 < min_lon \/ max_lon < 0
        -> v <= 85 # 100)
    /\ ([(1 # 100, 1 # 100)] = [] -> 0 < 1 # 10 -> v <= 85 # 100).
Proof.
  apply (penalizacion_de_borde geodesia_plana (2 # 100) 0 (0, 0)
           [(1 # 100, 1 # 100)] 80 350 900 4 (1 # 10)).
  lra.
Defined.

(* ================================================================== *)
(** ** The best candidate comes first                                   *)
(* ================================================================== *)

Lemma espaciados_cabeza {G : Geodesia} (h : PuntosCiegos.Candidato)
  (t : list PuntosCiegos.Candidato) (min_sep_m : Q) (max_puntos : Z) :
  (1 <= max_puntos)%Z ->
  exists resto,
    PuntosCiegos.seleccionar_espaciados (h :: t) min_sep_m max_puntos
    = h :: resto.
Proof.
  intro Hcap. unfold PuntosCiegos.seleccionar_espaciados.
  cbn [PuntosCiegos.pasada_separada length Z.of_nat].
  replace (max_puntos <=? 0)%Z with false by (symmetry; apply Z.leb_gt; lia).
  assert (Es : PuntosCiegos.separado min_sep_m h [] = true)
    by (destruct h as [[lat lon] fit]; reflexivity).
  rewrite Es. cbn [app].
  destruct (pasada_separada_forma min_sep_m max_puntos t [h])
    as (extra & E1 & _).
  { intros i j ci cj Hij Hi Hj.
    assert (j < length [h])%nat by (apply nth_error_Some; congruence).
    simpl in *. lia. }
  rewrite E1.
  destruct (_ <? _)%Z.
  - destruct (rellenar_forma max_puntos (h :: t) ([h] ++ extra))
      as (relleno & R1 & _).
    rewrite R1. eexists. reflexivity.
  - eexists. reflexivity.
Qed.

(** X19.  The last two steps of [algoritmo_genetico_puntos_ciegos], the
    descending sort by fitness and [seleccionar_espaciados]: when at least
    one result is asked for and there is a candidate, the first result is
    a candidate of the highest fitness, so no returned fitness exceeds the
    first one. *)
Theorem mejor_candidato_primero :
  forall (G : Geodesia) (c : PuntosCiegos.Candidato)
    (cs : list PuntosCiegos.Candidato) (min_sep_m : Q) (max_puntos : Z),
    (1 <= max_puntos)%Z ->
    exists c0 resto,
      PuntosCiegos.seleccionar_espaciados
        (sorted_key_reverse (fun x : PuntosCiegos.Candidato => snd x)
           (c :: cs))
        min_sep_m max_puntos
      = c0 :: resto
      /\ In c0 (c :: cs)
      /\ (forall x, In x (c :: cs) -> snd x <= snd c0)
      /\ (forall x, In x resto -> snd x <= snd c0).
Proof.
  intros G c cs ms cap Hcap.
  set (key := fun x : PuntosCiegos.Candidato => snd x).
  pose proof (sorted_key_reverse_perm key (c :: cs)) as Hperm.
  destruct (sorted_key_reverse key (c :: cs)) as [|h t] eqn:Es.
  { apply Permutation_sym, Permutation_nil in Hperm. discriminate. }
  destruct (espaciados_cabeza h t ms cap Hcap) as [resto Er].
  exists h, resto. split; [exact Er|].
  assert (Hmax : forall x, In x (c :: cs) -> snd x <= snd h)
    by (intros x Hx; apply (sorted_reverse_cabeza key (c :: cs) h t Es x Hx)).
  split.
  - apply (Permutation_in _ (Permutation_sym Hperm)). left. reflexivity.
  - split; [exact Hmax|].
    intros x Hx. apply Hmax.
    apply (Permutation_in _ (Permutation_sym Hperm)).
    destruct (seleccionar_espaciados_incl (h :: t) ms cap) as [Hin _].
    apply Hin. rewrite Er. right. exact Hx.
Qed.

Lemma mejor_candidato_primero_ejemplo :
  exists c0 resto,
    PuntosCiegos.seleccionar_espaciados (G := geodesia_plana)
      (sorted_key_reverse (fun x : PuntosCiegos.Candidato => snd x)
         ((0, 0, 1 # 4) :: [(1 # 100, 0, 3 # 4); (0, 1 # 100, 1 # 2)]))
      180 2
    = c0 :: resto
    /\ In c0 ((0, 0, 1 # 4) :: [(1 # 100, 0, 3 # 4); (0, 1 # 100, 1 # 2)])
    /\ (forall x,
           In x ((0, 0, 1 # 4) :: [(1 # 100, 0, 3 # 4); (0, 1 # 100, 1 # 2)])
           -> snd x <= snd c0)
    /\ (forall x, In x resto -> snd x <= snd c0).
Proof.
  apply (mejor_candidato_primero geodesia_plana (0, 0, 1 # 4)
           [(1 # 100, 0, 3 # 4); (0, 1 # 100, 1 # 2)] 180 2).
  lia.
Defined.

(* ================================================================== *)
(** ** Individuals of the coverage search                               *)
(* ================================================================== *)

(** X20.  [_crear_individuo] and [_cruzar_individuo_blx]: with the box
    bounds in order and a non-negative number of new cameras, a created
    individual has exactly [n_camaras_nuevas] points, all inside the box,
    whatever the seeds; a crossed individual has as many points as the
    shorter parent. *)
Theorem individuos_bien_formados :
  forall (G : Geodesia) (A : Azar) (cfg : Cobertura.Config)
    (camaras_existentes semillas : list Punto) (caja : Caja)
    (p1 p2 : Cobertura.Individuo) (alpha : Q) (g : Rng),
    caja_ordenada caja ->
    (0 <= Cobertura.n_camaras_nuevas cfg)%Z ->
    (exists ind g',
        Cobertura._crear_individuo cfg camaras_existentes caja semillas g
        = Ok (ind, g')
        /\ length ind = Z.to_nat (Cobertura.n_camaras_nuevas cfg)
        /\ forall p, In p ind -> en_caja caja p)
    /\ (exists hijo g',
           Cobertura._cruzar_individuo_blx p1 p2 alpha g = Ok (hijo, g')
           /\ length hijo = Nat.min (length p1) (length p2)).
Proof.
  intros G A cfg ex semillas caja p1 p2 alpha g Hc Hn. split.
  - destruct (devuelve_crear_individuo cfg ex caja semillas
                (or_introl Hn) g) as (ind & g' & E & Hl).
    exists ind, g'. split; [exact E|]. split; [exact Hl|].
    pose proof (devuelve_inv _ _ g g' ind
                  (devuelve_crear_en_caja cfg ex caja semillas
                     (or_introl Hn) Hc) E) as HF.
    rewrite Forall_forall in HF. exact HF.
  - destruct (devuelve_cruzar_individuo p1 p2 alpha g)
      as (h & g' & E & Hl).
    exists h, g'. auto.
Qed.

Lemma individuos_bien_formados_ejemplo :
  (exists ind g',
      Cobertura._crear_individuo (G := geodesia_plana) (A := azar_lcg)
        cfg_cob_ejemplo [(0, 0)] caja_ejemplo [(1 # 200, 1 # 200)] 7%Z
      = Ok (ind, g')
      /\ length ind = Z.to_nat (Cobertura.n_camaras_nuevas cfg_cob_ejemplo)
      /\ forall p, In p ind -> en_caja caja_ejemplo p)
  /\ (exists hijo g',
         Cobertura._cruzar_individuo_blx (A := azar_lcg)
           [(0, 0); (1 # 100, 0)] [(1 # 100, 1 # 100)] (1 # 2) 7%Z
         = Ok (hijo, g')
         /\ length hijo
            = Nat.min (length [(0, 0); (1 # 100, 0)])
                (length [(1 # 100, 1 # 100)])).
Proof.
  apply (individuos_bien_formados geodesia_plana azar_lcg cfg_cob_ejemplo
           [(0, 0)] [(1 # 200, 1 # 200)] caja_ejemplo
           [(0, 0); (1 # 100, 0)] [(1 # 100, 1 # 100)] (1 # 2) 7%Z).
  - split; simpl; lra.
  - simpl. lia.
Defined.
